(** * Atom fitting by beam search: a model of [generate.py]

    This development embeds the density-to-structure fitting code of
    [generate.py] (class [AtomFitter] and the helper [get_min_rmsd]) and
    proves properties of it.

    Conventions of the embedding.
    - A Python/torch float is an exact rational ([Q]); rounding, infinities
      and NaN are outside the model.  An optional float setting
      ([threshold], [peak_value], [min_dist]) is an [option Q], where [None]
      stands for Python's [None] and for the infinite value that the source
      treats the same way ([peak_value = inf], [threshold = -inf]).
    - A tensor is the list of its entries in row-major order together with
      its shape; tensors that the source indexes with one common mask or
      index vector ([values], [idx_xyz], [idx_c], and later [xyz], [idx_c])
      are kept as one list of rows.
    - Code that can raise returns an [option] or a [result].
    - The numerical collaborators that live outside the repository
      (molgrid's [Coords2Grid], torch's [conv3d], autograd and [Adam],
      scipy's [linear_sum_assignment], numpy's [sqrt]) are parameters of
      the sections that use them.  Two of them reject some of the inputs
      that the code can hand them and are fallible here: the constructor
      of [Adam], which checks the hyperparameters in [gd_kwargs], and
      [linear_sum_assignment], which raises on a cost matrix it cannot
      solve.  The others are taken not to raise. *)

From Stdlib Require Import QArith Qabs Qround Lqa ZArith Lia.
From stdpp Require Import base list sorting option gmap strings.

(** ** Rational helpers *)

Definition Qltb (x y : Q) : bool :=
  match Qcompare x y with Lt => true | _ => false end.

Definition Qsq (x : Q) : Q := (x * x)%Q.

Definition Qsum (l : list Q) : Q := foldr Qplus 0%Q l.

Abbreviation vec3 := (Q * Q * Q)%type.

Definition vsub (p q : vec3) : vec3 :=
  let '(px, py, pz) := p in let '(qx, qy, qz) := q in
  (px - qx, py - qy, pz - qz)%Q.

(** [((p - q)**2).sum()] over the coordinate axis. *)
Definition sqdist (p q : vec3) : Q :=
  let '(dx, dy, dz) := vsub p q in (Qsq dx + Qsq dy + Qsq dz)%Q.

(** ** Tensor helpers *)

(** [t[idx]] for an index vector: raises when an index is out of range. *)
Definition gather {A} (t : list A) (idx : list nat) : option (list A) :=
  mapM (λ i, t !! i) idx.

(** [t[mask]] for a boolean mask of the same length. *)
Definition mask_select {A} (mask : list bool) (t : list A) : list A :=
  snd <$> filter (λ p, fst p = true) (zip mask t).

(** [u.unsqueeze(1) op v.unsqueeze(0)]: entry [i][j] is [f u_i v_j]. *)
Definition outer {A B C} (f : A → B → C) (u : list A) (v : list B)
  : list (list C) :=
  (λ a, f a <$> v) <$> u.

Definition map2d {A B C} (f : A → B → C) (m : list (list A))
    (n : list (list B)) : list (list C) :=
  zip_with (zip_with f) m n.

(** [torch.tril(m, diagonal)]: keeps entry [i][j] when [j - i <= diagonal]
    and clears the others. *)
Definition tril (diagonal : Z) (m : list (list bool)) : list (list bool) :=
  imap (λ i row,
    imap (λ j x, if bool_decide (Z.of_nat j - Z.of_nat i ≤ diagonal)%Z
                 then x else false) row) m.

(** [m.any(dim=1)] *)
Definition any_dim1 (m : list (list bool)) : list bool :=
  existsb id <$> m.

(** ** Channels and fitter settings *)

Record Channel := {
  atomic_radius : Q;
  name : string;
}.

(** [gd_kwargs]: the keyword arguments handed to the optimizer,
    [dict(lr=..., betas=(beta1, beta2), weight_decay=...)]. *)
Record GdKwargs := {
  lr : Q;
  betas : Q * Q;
  weight_decay : Q;
}.

Record AtomFitter := {
  beam_size : Z;
  multi_atom : bool;
  n_atoms_detect : Z;
  apply_conv : bool;
  threshold : option Q;
  peak_value : option Q;
  min_dist : option Q;
  constrain_types : bool;
  estimate_types : bool;
  fit_L1_loss : bool;
  interm_gd_iters : Z;
  final_gd_iters : Z;
  gd_kwargs : GdKwargs;
}.

(** A density grid of shape [(n_channels, grid_dim, grid_dim, grid_dim)],
    flattened in row-major order. *)
Record tensor4 := {
  n_channels : nat;
  grid_dim : nat;
  flat : list Q;
}.

Definition tensor4_wf (g : tensor4) : Prop :=
  length (flat g) = n_channels g * (grid_dim g * (grid_dim g * grid_dim g)).

(** One row of the sorted grid: value, spatial index and channel index. *)
Record voxel := {
  vx_value : Q;
  vx_idx : nat * nat * nat;
  vx_c : nat;
}.

(** A detected atom: coordinate and channel index. *)
Abbreviation atom := (vec3 * nat)%type.

(** ** [AtomFitter.detect_atoms] *)

Global Instance Qle_dec (x y : Q) : Decision (x <= y)%Q.
Proof.
  destruct (Qlt_le_dec y x) as [H|H]; [right|left; exact H].
  intros H'. exact (Qlt_not_le _ _ H H').
Defined.

(** Priority order of [torch.sort(..., descending=True)]. *)
Definition by_value_desc (a b : Q * nat) : Prop := (a.1 >= b.1)%Q.

Global Instance by_value_desc_dec a b : Decision (by_value_desc a b).
Proof. unfold by_value_desc. apply _. Defined.

(** [values, idx = torch.sort(grid.flatten(), descending=True)].  The call
    does not ask for a stable sort, so the order among equal values is
    left open by torch; the statements below only use that the values
    descend. *)
Definition sort_descending (vals : list Q) : list (Q * nat) :=
  merge_sort by_value_desc (imap (λ i v, (v, i)) vals).

(** Conversion of a flattened index to channel and spatial index. *)
Definition unravel (nc d : nat) (vi : Q * nat) : voxel :=
  let idx := vi.2 in
  let idx_z := idx mod d in let idx := idx / d in
  let idx_y := idx mod d in let idx := idx / d in
  let idx_x := idx mod d in let idx := idx / d in
  let idx_c := idx mod nc in
  {| vx_value := vi.1; vx_idx := (idx_x, idx_y, idx_z); vx_c := idx_c |}.

(** [grid = peak_value - (peak_value - grid).abs()] *)
Definition fold_peak (p : Q) (g : tensor4) : tensor4 :=
  {| n_channels := n_channels g; grid_dim := grid_dim g;
     flat := (λ v, p - Qabs (p - v))%Q <$> flat g |}.

(** [origin + resolution * idx_xyz.float()] with
    [origin = center - resolution * (float(grid_dim) - 1) / 2.0]. *)
Definition voxel_coord (center : vec3) (resolution : Q) (d : nat)
    (i : nat * nat * nat) : vec3 :=
  let '(cx, cy, cz) := center in
  let '(ix, iy, iz) := i in
  let off := (resolution * (inject_Z (Z.of_nat d) - 1) / 2)%Q in
  let f c k := (c - off + resolution * inject_Z (Z.of_nat k))%Q in
  (f cx ix, f cy iy, f cz iz).

Definition to_atom (center : vec3) (resolution : Q) (d : nat) (v : voxel)
  : atom :=
  (voxel_coord center resolution d (vx_idx v), vx_c v).

(** The entry [i][j] of [(dist2 < min_dist2) & same_type] for two atoms with
    their gathered radii. *)
Definition too_close_pair (md : Q) (a b : atom * Q) : bool :=
  Qltb (sqdist a.1.1 b.1.1) (Qsq (md * (a.2 + b.2)))
  && bool_decide (a.1.2 = b.1.2).

(** Non-max suppression, first path ([len(idx_c) < 1000]): NxN matrices. *)
Definition nms_matrix (md : Q) (r : list Q) (atoms : list atom)
  : option (list atom) :=
  let xyz := fst <$> atoms in
  let idx_c := snd <$> atoms in
  r_c ← gather r idx_c;
  let same_type := outer (λ a b : nat, bool_decide (a = b)) idx_c idx_c in
  let bond_radius := outer Qplus r_c r_c in
  let min_dist2 := fmap (M:=list) (λ b, Qsq (md * b)) <$> bond_radius in
  let dist2 := outer sqdist xyz xyz in
  let too_close :=
    any_dim1 (tril (-1) (map2d andb (map2d Qltb dist2 min_dist2) same_type)) in
  Some (mask_select (negb <$> too_close) atoms).

(** One iteration of the for loop of the second path: atom [a_i] with radius
    [r_i] is compared with the atoms kept so far. *)
Definition nms_loop_step (md : Q) (r : list Q) (kept : option (list atom))
    (a : atom) : option (list atom) :=
  kept ← kept;
  r_i ← r !! a.2;
  r_max ← gather r (snd <$> kept);
  let same_type := (λ c, bool_decide (a.2 = c)) <$> (snd <$> kept) in
  let bond_radius := (λ x, r_i + x)%Q <$> r_max in
  let min_dist2 := (λ b, Qsq (md * b)) <$> bond_radius in
  let dist2 := (λ p, sqdist a.1 p) <$> (fst <$> kept) in
  if existsb id (zip_with andb (zip_with Qltb dist2 min_dist2) same_type)
  then Some kept
  else Some (kept ++ [a]).

(** Non-max suppression, second path: a for loop over the atoms.  The
    source reads [xyz[0]] first, which raises on an empty list. *)
Definition nms_loop (md : Q) (r : list Q) (atoms : list atom)
  : option (list atom) :=
  match atoms with
  | [] => None
  | a0 :: rest => foldl (nms_loop_step md r) (Some [a0]) rest
  end.

Definition one_hot (nc : nat) (c : nat) : option (list Q) :=
  if decide (c < nc)
  then Some ((λ k, if decide (k = c) then 1%Q else 0%Q) <$> seq 0 nc)
  else None.

(** [F.one_hot(idx_c, n_channels)]: raises when the number of classes is
    not positive, also on an empty index vector, and when an index is not
    below it. *)
Definition F_one_hot (idx_c : list nat) (nc : nat) : option (list (list Q)) :=
  if decide (nc = 0) then None else mapM (one_hot nc) idx_c.

(** The numerical collaborators of the fitter.  Apart from the constructor
    of the optimizer they are taken not to raise: rendering, the gradient
    and the optimizer step are total on exact numbers. *)
Record Backend := {
  (** [AtomFitter.convolve]: torch's [conv3d] of the grid with the molgrid
      kernel of the channels at the given resolution, divided by the
      kernel's squared norm. *)
  convolve : tensor4 → list Channel → Q → tensor4;
  (** [self.kernel.values.sum(dim=(1,2,3))] once [init_kernel] has run. *)
  kernel_sum : list Channel → Q → list Q;
  (** [self.c2grid(xyz, c, r)] with the grid maker set to a dimension, a
      resolution and a center. *)
  c2grid : Q → Q → vec3 → list vec3 → list (list Q) → list Q → tensor4;
  (** [loss.backward()]: the gradient of the (L1 or L2) loss in [xyz]. *)
  backward : bool → Q → Q → vec3 → tensor4 → list vec3 → list (list Q)
             → list Q → list vec3;
  (** [torch.optim.Adam((xyz,), **gd_kwargs)], which raises [ValueError] on
      hyperparameters it does not accept ([None] here), and its [step]. *)
  solver_state : Type;
  Adam : GdKwargs → list vec3 → option solver_state;
  solver_step : solver_state → list vec3 → list vec3
                → solver_state * list vec3;
}.

Section Detection.

Context (B : Backend).

Definition apply_threshold (self : AtomFitter) (vs : list voxel)
  : list voxel :=
  match threshold self with
  | Some t => filter (λ v, Qltb t (vx_value v) = true) vs
  | None => vs
  end.

Definition exclude_exhausted (self : AtomFitter) (types : list Q)
    (vs : list voxel) : option (list voxel) :=
  if constrain_types self then
    left ← gather types (vx_c <$> vs);
    Some (mask_select (Qltb 0 <$> left) vs)
  else Some vs.

(** The value-ranked grid points that pass the threshold and the type
    filter. *)
Definition ranked_voxels (self : AtomFitter) (grid : tensor4)
    (channels : list Channel) (resolution : Q) (types : list Q)
  : option (list voxel) :=
  let nc := n_channels grid in
  let d := grid_dim grid in
  let grid := if apply_conv self then convolve B grid channels resolution
              else grid in
  let grid := match peak_value self with
              | Some p => fold_peak p grid
              | None => grid
              end in
  let sorted := sort_descending (flat grid) in
  let vs := unravel nc d <$> sorted in
  exclude_exhausted self types (apply_threshold self vs).

Definition suppress_non_max (self : AtomFitter) : option Q :=
  match min_dist self with
  | Some md => if Qltb 0 md then Some md else None
  | None => None
  end.

(** Suppression of atoms too close to a higher-value atom of same type. *)
Definition suppress (self : AtomFitter) (channels : list Channel)
    (atoms : list atom) : option (list atom) :=
  match suppress_non_max self with
  | Some md =>
      if bool_decide (n_atoms_detect self > 1)%Z then
        let r := atomic_radius <$> channels in
        if bool_decide (length atoms < 1000)
        then nms_matrix md r atoms
        else nms_loop md r atoms
      else Some atoms
  | None => Some atoms
  end.

(** [xyz[:n_atoms_detect]] when [n_atoms_detect >= 0]. *)
Definition limit (self : AtomFitter) (atoms : list atom) : list atom :=
  if bool_decide (n_atoms_detect self >= 0)%Z
  then take (Z.to_nat (n_atoms_detect self)) atoms
  else atoms.

(** The atoms that survive ranking and suppression, before the limit. *)
Definition surviving_atoms (self : AtomFitter) (grid : tensor4)
    (channels : list Channel) (center : vec3) (resolution : Q)
    (types : list Q) : option (list atom) :=
  vs ← ranked_voxels self grid channels resolution types;
  suppress self channels (to_atom center resolution (grid_dim grid) <$> vs).

Definition detect_atoms (self : AtomFitter) (grid : tensor4)
    (channels : list Channel) (center : vec3) (resolution : Q)
    (types : list Q) : option (list vec3 * list (list Q)) :=
  atoms ← surviving_atoms self grid channels center resolution types;
  let atoms := limit self atoms in
  c ← F_one_hot (snd <$> atoms) (n_channels grid);
  Some (fst <$> atoms, c).

End Detection.

(** ** [AtomFitter.fit_gd] *)

Record AtomGrid := {
  values : tensor4;
  channels : list Channel;
  center : vec3;
  resolution : Q;
  dimension : Q;
}.

(** [a - b] on tensors of one shape. *)
Definition tsub (a b : tensor4) : tensor4 :=
  {| n_channels := n_channels a; grid_dim := grid_dim a;
     flat := zip_with Qminus (flat a) (flat b) |}.

(** [grid_diff.abs().sum()] *)
Definition L1_loss (grid_diff : tensor4) : Q := Qsum (Qabs <$> flat grid_diff).

(** [(grid_diff**2).sum() / 2] *)
Definition L2_loss (grid_diff : tensor4) : Q :=
  (Qsum (Qsq <$> flat grid_diff) / 2)%Q.

Definition loss_of (self : AtomFitter) (grid_diff : tensor4) : Q :=
  if fit_L1_loss self then L1_loss grid_diff else L2_loss grid_diff.

Section GradientDescent.

Context (B : Backend).

(** The variables of the loop of [fit_gd]: the coordinates, the solver,
    the number of calls of [solver.step()] so far, and the locals
    [grid_pred], [grid_diff] and [loss], unbound before the first
    iteration. *)
Record gd_state := {
  gd_xyz : list vec3;
  gd_solver : solver_state B;
  gd_steps : nat;
  gd_locals : option (tensor4 * tensor4 * Q);
}.

Definition gd_forward (self : AtomFitter) (grid : AtomGrid)
    (c : list (list Q)) (r : list Q) (xyz : list vec3)
  : tensor4 * tensor4 * Q :=
  let grid_pred :=
    c2grid B (dimension grid) (resolution grid) (center grid) xyz c r in
  let grid_diff := tsub (values grid) grid_pred in
  (grid_pred, grid_diff, loss_of self grid_diff).

(** [for i in range(n_iters + 1)], over the remaining values of [i]. *)
Fixpoint gd_loop (self : AtomFitter) (grid : AtomGrid) (c : list (list Q))
    (r : list Q) (n_iters : Z) (range : list Z) (st : gd_state)
  : gd_state :=
  match range with
  | [] => st
  | i :: range =>
      let out := gd_forward self grid c r (gd_xyz st) in
      if bool_decide (i = n_iters) then
        {| gd_xyz := gd_xyz st; gd_solver := gd_solver st;
           gd_steps := gd_steps st; gd_locals := Some out |}
      else
        let grad :=
          backward B (fit_L1_loss self) (dimension grid) (resolution grid)
            (center grid) (values grid) (gd_xyz st) c r in
        let '(solver, xyz) := solver_step B (gd_solver st) (gd_xyz st) grad in
        gd_loop self grid c r n_iters range
          {| gd_xyz := xyz; gd_solver := solver;
             gd_steps := S (gd_steps st); gd_locals := Some out |}
  end.

(** One [loss.backward(); solver.step()] on the pair of the coordinates
    and the solver. *)
Definition gd_step (self : AtomFitter) (grid : AtomGrid)
    (c : list (list Q)) (s : list vec3 * solver_state B)
  : list vec3 * solver_state B :=
  let r := atomic_radius <$> channels grid in
  let grad :=
    backward B (fit_L1_loss self) (dimension grid) (resolution grid)
      (center grid) (values grid) s.1 c r in
  let '(solver, xyz) := solver_step B s.2 s.1 grad in
  (xyz, solver).

(** The state at the end of the loop; [None] when the constructor of the
    optimizer raises. *)
Definition gd_run (self : AtomFitter) (grid : AtomGrid) (xyz : list vec3)
    (c : list (list Q)) (n_iters : Z) : option gd_state :=
  let r := atomic_radius <$> channels grid in
  solver ← Adam B (gd_kwargs self) xyz;
  Some (gd_loop self grid c r n_iters (seqZ 0 (n_iters + 1))
          {| gd_xyz := xyz; gd_solver := solver; gd_steps := 0;
             gd_locals := None |}).

(** Returns [(xyz, grid_pred, grid_diff, loss)]; the locals are unbound,
    and the return raises, when the loop body never ran. *)
Definition fit_gd (self : AtomFitter) (grid : AtomGrid) (xyz : list vec3)
    (c : list (list Q)) (n_iters : Z)
  : option (list vec3 * tensor4 * tensor4 * Q) :=
  st ← gd_run self grid xyz c n_iters;
  '(grid_pred, grid_diff, loss) ← gd_locals st;
  Some (gd_xyz st, grid_pred, grid_diff, loss).

End GradientDescent.

Arguments gd_xyz {B} _.
Arguments gd_solver {B} _.
Arguments gd_steps {B} _.
Arguments gd_locals {B} _.

(** ** [AtomFitter.fit] *)

(** The objective of a structure: the fit loss alone, or the pair
    [(type_loss, fit_loss)] when types are constrained. *)
Inductive objective :=
  | Fit (fit_loss : Q)
  | TypeFit (type_loss fit_loss : Q).

(** Python's comparison of two objectives: floats by value, tuples
    lexicographically.  A float is never compared with a tuple within one
    call (Python would raise); the order is completed by putting floats
    first. *)
Definition obj_compare (a b : objective) : comparison :=
  match a, b with
  | Fit x, Fit y => (x ?= y)%Q
  | TypeFit t1 f1, TypeFit t2 f2 =>
      match (t1 ?= t2)%Q with Eq => (f1 ?= f2)%Q | o => o end
  | Fit _, TypeFit _ _ => Lt
  | TypeFit _ _, Fit _ => Gt
  end.

(** [a < b] *)
Definition obj_ltb (a b : objective) : bool :=
  match obj_compare a b with Lt => true | _ => false end.

Definition obj_le (a b : objective) : Prop := obj_compare a b ≠ Gt.

(** An element of [best_structs]:
    [(objective, struct_id, xyz, c, xyz_next, c_next)]. *)
Record struct_entry := {
  s_objective : objective;
  s_id : nat;
  s_xyz : list vec3;
  s_c : list (list Q);
  s_xyz_next : list vec3;
  s_c_next : list (list Q);
}.

(** An element of [visited_structs]: [(objective, struct_id, xyz, c)]; the
    elapsed time is left out. *)
Record visit := {
  v_objective : objective;
  v_id : nat;
  v_xyz : list vec3;
  v_c : list (list Q);
}.

(** Tuple comparison as [sorted] uses it: by objective, then by id.  Ids
    are unique within the pool, so the tensors behind them are never
    reached. *)
Definition struct_compare (a b : struct_entry) : comparison :=
  match obj_compare (s_objective a) (s_objective b) with
  | Eq => Nat.compare (s_id a) (s_id b)
  | o => o
  end.

Definition struct_le (a b : struct_entry) : Prop := struct_compare a b ≠ Gt.

Global Instance comparison_eq_dec' : EqDecision comparison.
Proof. solve_decision. Defined.

Global Instance struct_le_dec a b : Decision (struct_le a b).
Proof. unfold struct_le. apply _. Defined.

(** [sorted(structs)] *)
Definition sorted (structs : list struct_entry) : list struct_entry :=
  merge_sort struct_le structs.

(** [l[:n]] for any integer [n]. *)
Definition slice_to {A} (n : Z) (l : list A) : list A :=
  if bool_decide (0 ≤ n)%Z then take (Z.to_nat n) l
  else take (length l - Z.to_nat (- n)) l.

(** [c.sum(dim=0)] for [c] of shape [(N, nc)]. *)
Definition col_sums (nc : nat) (c : list (list Q)) : list Q :=
  foldr (zip_with Qplus) (replicate nc 0%Q) c.

(** [grid.sum(dim=(1,2,3))] *)
Definition channel_sums (g : tensor4) : list Q :=
  let n := grid_dim g * (grid_dim g * grid_dim g) in
  (λ k, Qsum (take n (drop (k * n) (flat g)))) <$> seq 0 (n_channels g).

(** The variables of the search loop of [fit].  [xyz_new] is the local of
    that name: the coordinates returned by the latest call of [fit_gd] in
    the loop, unbound before the first one. *)
Record search_state := {
  best_structs : list struct_entry;
  new_best_structs : list struct_entry;
  found_new_best_struct : bool;
  expanded_ids : gset nat;
  visited_structs : list visit;
  struct_count : nat;
  xyz_new : option (list vec3);
}.

Section Fit.

Context (B : Backend).

(** [AtomFitter.get_types_estimate] *)
Definition get_types_estimate (grid : tensor4) (channels : list Channel)
    (resolution : Q) : list Q :=
  zip_with Qdiv (channel_sums grid) (kernel_sum B channels resolution).

(** The type counts the search works with. *)
Definition fit_types (self : AtomFitter) (grid : AtomGrid) (types : list Q)
  : list Q :=
  if estimate_types self
  then get_types_estimate (values grid) (channels grid) (resolution grid)
  else types.

(** The fit loss given to the empty structure. *)
Definition initial_fit_loss (self : AtomFitter) (grid : AtomGrid) : Q :=
  if fit_L1_loss self
  then Qsum (Qabs <$> flat (values grid))
  else (Qsum (Qsq <$> flat (values grid)) / 2)%Q.

Definition make_objective (self : AtomFitter) (type_loss fit_loss : Q)
  : objective :=
  if constrain_types self then TypeFit type_loss fit_loss else Fit fit_loss.

Definition initial_objective (self : AtomFitter) (grid : AtomGrid)
    (types : list Q) : objective :=
  let types := fit_types self grid types in
  let fit_loss := initial_fit_loss self grid in
  let type_loss := Qsum (Qabs <$> types) in
  make_objective self type_loss fit_loss.

(** The state before the first pass of the search loop. *)
Definition fit_init (self : AtomFitter) (grid : AtomGrid) (types : list Q)
  : option search_state :=
  let types' := fit_types self grid types in
  let xyz := [] in
  let c := [] in
  let objective := initial_objective self grid types in
  '(xyz_next, c_next) ←
    detect_atoms B self (values grid) (channels grid) (center grid)
      (resolution grid) types';
  let struct_id := 0 in
  Some {|
    best_structs :=
      [ {| s_objective := objective; s_id := struct_id; s_xyz := xyz;
           s_c := c; s_xyz_next := xyz_next; s_c_next := c_next |} ];
    new_best_structs := [];
    found_new_best_struct := true;
    expanded_ids := ∅;
    visited_structs :=
      [ {| v_objective := objective; v_id := struct_id; v_xyz := xyz;
           v_c := c |} ];
    struct_count := 1;
    xyz_new := None;
  |}.

(** [any(objective_new < s[0] for s in best_structs)] *)
Definition is_new_best (objective_new : objective)
    (best : list struct_entry) : bool :=
  existsb (λ s, obj_ltb objective_new (s_objective s)) best.

(** One attempted expansion of the structure [struct_id] to the atoms
    [(xyz, c)]: gradient descent, objective, acceptance test, and the
    bookkeeping of both outcomes.  The source has this block twice, for
    the joint and for the single-atom expansion.  Returns the new state
    and whether the expansion was accepted. *)
Definition try_expansion (self : AtomFitter) (grid : AtomGrid)
    (types : list Q) (st : search_state) (struct_id : nat)
    (xyz : list vec3) (c_new : list (list Q))
  : option (search_state * bool) :=
  '(xyz_new', grid_pred, grid_diff, fit_loss) ←
    fit_gd B self grid xyz c_new (interm_gd_iters self);
  let type_diff :=
    zip_with Qminus types (col_sums (length (channels grid)) c_new) in
  let type_loss := Qsum (Qabs <$> type_diff) in
  let objective_new := make_objective self type_loss fit_loss in
  let visited :=
    {| v_objective := objective_new; v_id := struct_id; v_xyz := xyz_new';
       v_c := c_new |} in
  if is_new_best objective_new (best_structs st) then
    '(xyz_new_next, c_new_next) ←
      detect_atoms B self grid_diff (channels grid) (center grid)
        (resolution grid) type_diff;
    Some ({|
      best_structs := best_structs st;
      new_best_structs :=
        new_best_structs st ++
        [ {| s_objective := objective_new; s_id := struct_count st;
             s_xyz := xyz_new'; s_c := c_new; s_xyz_next := xyz_new_next;
             s_c_next := c_new_next |} ];
      found_new_best_struct := true;
      expanded_ids := expanded_ids st;
      visited_structs := visited_structs st ++ [visited];
      struct_count := S (struct_count st);
      xyz_new := Some xyz_new';
    |}, true)
  else
    Some ({|
      best_structs := best_structs st;
      new_best_structs := new_best_structs st;
      found_new_best_struct := found_new_best_struct st;
      expanded_ids := expanded_ids st;
      visited_structs := visited_structs st ++ [visited];
      struct_count := struct_count st;
      xyz_new := Some xyz_new';
    |}, false).

(** The single-atom expansions of one structure, one per frontier atom. *)
Definition expand_single (self : AtomFitter) (grid : AtomGrid)
    (types : list Q) (s : struct_entry) (st : search_state)
  : option search_state :=
  foldl (λ st next,
           st ← st;
           fst <$> try_expansion self grid types st (s_id s)
                     (s_xyz s ++ [next.1]) (s_c s ++ [next.2]))
        (Some st) (zip (s_xyz_next s) (s_c_next s)).

(** The body of [for ... in best_structs]. *)
Definition expand_struct (self : AtomFitter) (grid : AtomGrid)
    (types : list Q) (st : option search_state) (s : struct_entry)
  : option search_state :=
  st ← st;
  if decide (s_id s ∈ expanded_ids st) then Some st
  else
    '(st, do_single_atom) ←
      (if multi_atom self then
         '(st, accepted) ←
           try_expansion self grid types st (s_id s)
             (s_xyz s ++ s_xyz_next s) (s_c s ++ s_c_next s);
         Some (st, negb accepted)
       else Some (st, true));
    st ← (if do_single_atom : bool
          then expand_single self grid types s st
          else Some st);
    Some {|
      best_structs := best_structs st;
      new_best_structs := new_best_structs st;
      found_new_best_struct := found_new_best_struct st;
      expanded_ids := {[ s_id s ]} ∪ expanded_ids st;
      visited_structs := visited_structs st;
      struct_count := struct_count st;
      xyz_new := xyz_new st;
    |}.

(** The [for] loop of one pass, from the state at the top of the [while]
    body. *)
Definition expand_pool (self : AtomFitter) (grid : AtomGrid)
    (types : list Q) (st : search_state) : option search_state :=
  foldl (expand_struct self grid types)
    (Some {|
       best_structs := best_structs st;
       new_best_structs := [];
       found_new_best_struct := false;
       expanded_ids := expanded_ids st;
       visited_structs := visited_structs st;
       struct_count := struct_count st;
       xyz_new := xyz_new st;
     |})
    (best_structs st).

(** The block under [if found_new_best_struct:] that ends the pass. *)
Definition select_best (self : AtomFitter) (st : search_state)
  : option search_state :=
  if found_new_best_struct st then
    let best :=
      slice_to (beam_size self)
        (sorted (best_structs st ++ new_best_structs st)) in
    _ ← head best;
    last_xyz ← xyz_new st;
    Some {|
      best_structs := best;
      new_best_structs := new_best_structs st;
      found_new_best_struct :=
        if bool_decide (50 ≤ length last_xyz) then false
        else found_new_best_struct st;
      expanded_ids := expanded_ids st;
      visited_structs := visited_structs st;
      struct_count := struct_count st;
      xyz_new := xyz_new st;
    |}
  else Some st.

(** One iteration of [while found_new_best_struct]. *)
Definition search_pass (self : AtomFitter) (grid : AtomGrid)
    (types : list Q) (st : search_state) : option search_state :=
  expand_pool self grid types st ≫= select_best self.


(** The while loop, run for at most [fuel] iterations. *)
Fixpoint search (self : AtomFitter) (grid : AtomGrid) (types : list Q)
    (fuel : nat) (st : search_state) : option search_state :=
  if found_new_best_struct st then
    match fuel with
    | 0 => None
    | S fuel =>
        search_pass self grid types st ≫= search self grid types fuel
    end
  else Some st.

(** What [fit] hands over: the best structure after the final gradient
    descent, its density, both losses, the type loss and the visited
    structures.  With [constrain_types] the final objective is built from
    [type_loss.item()] where [type_loss] already is a Python float, which
    raises [AttributeError]. *)
Record fit_result := {
  xyz_best : list vec3;
  c_best : list (list Q);
  grid_pred : tensor4;
  L2_loss_best : Q;
  L1_loss_best : Q;
  type_diff_best : Q;
  visited : list visit;
}.

Definition fit (self : AtomFitter) (grid : AtomGrid) (types : list Q)
    (fuel : nat) : option fit_result :=
  let types' := fit_types self grid types in
  st ← fit_init self grid types;
  st ← search self grid types' fuel st;
  best ← head (best_structs st);
  let type_loss :=
    Qsum (Qabs <$> zip_with Qminus types'
                     (col_sums (length (channels grid)) (s_c best))) in
  '(xyz_best, grid_pred, grid_diff, fit_loss) ←
    fit_gd B self grid (s_xyz best) (s_c best) (final_gd_iters self);
  if constrain_types self then None else
  let best_objective := Fit fit_loss in
  Some {|
    xyz_best := xyz_best;
    c_best := s_c best;
    grid_pred := grid_pred;
    L2_loss_best := L2_loss grid_diff;
    L1_loss_best := L1_loss grid_diff;
    type_diff_best := type_loss;
    visited :=
      visited_structs st ++
      [ {| v_objective := best_objective; v_id := S (s_id best);
           v_xyz := xyz_best; v_c := s_c best |} ];
  |}.

End Fit.

(** ** [get_min_rmsd] *)

Inductive exn :=
  | ValueError (msg : string)
  | ZeroDivisionError
  | IndexError.

(** The outcome of a call: an exception or the returned value. *)
Inductive result (A : Type) :=
  | Raise (e : exn)
  | Return (a : A).
Arguments Raise {A} e.
Arguments Return {A} a.

Definition bind_result {A C} (m : result A) (f : A → result C) : result C :=
  match m with Raise e => Raise e | Return a => f a end.

Definition or_raise {A} (e : exn) (m : option A) : result A :=
  match m with Some a => Return a | None => Raise e end.

(** A loop that collects the results of [f] and stops at the first
    exception. *)
Fixpoint mapM_result {A C} (f : A → result C) (l : list A) : result (list C) :=
  match l with
  | [] => Return []
  | x :: l =>
      bind_result (f x) (λ y,
      bind_result (mapM_result f l) (λ k, Return (y :: k)))
  end.

(** Order of [np.argsort] on labelled positions. *)
Definition by_label (a b : nat * nat) : Prop := a.1 ≤ b.1.

Global Instance by_label_dec a b : Decision (by_label a b).
Proof. unfold by_label. apply _. Defined.

(** [np.argsort(c)]: the positions of [c] in ascending order of label. *)
Definition argsort (c : list nat) : list nat :=
  snd <$> merge_sort by_label (zip c (seq 0 (length c))).

(** [count_types]: the number of atoms of type [k]. *)
Definition count_type (k : nat) (c : list nat) : nat :=
  length (filter (λ x, x = k) c).

(** [m[rows, cols]] *)
Definition index_pairs (m : list (list Q)) (rows cols : list nat)
  : option (list Q) :=
  mapM (λ ij, m !! ij.1 ≫= λ row, row !! ij.2) (zip rows cols).

Section MinRmsd.

(** [scipy.optimize.linear_sum_assignment], which raises [ValueError] on a
    cost matrix it does not accept, and [np.sqrt]. *)
Variable linear_sum_assignment :
  list (list Q) → result (list nat * list nat).
Variable np_sqrt : Q → Q.

(** The body of [for c in set(c1)] for one type [c]: the cost of the
    assignment found between the points of that type. *)
Definition type_ssd (xyz1 : list vec3) (c1 : list nat) (xyz2 : list vec3)
    (c2 : list nat) (c : nat) : result Q :=
  let xyz1_c := mask_select ((λ x, bool_decide (x = c)) <$> c1) xyz1 in
  let xyz2_c := mask_select ((λ x, bool_decide (x = c)) <$> c2) xyz2 in
  let dist2_c := outer sqdist xyz1_c xyz2_c in
  bind_result (linear_sum_assignment dist2_c) (λ idx,
  or_raise IndexError (Qsum <$> index_pairs dist2_c idx.1 idx.2)).

Definition get_min_rmsd (xyz1 : list vec3) (c1 : list nat)
    (xyz2 : list vec3) (c2 : list nat) : result Q :=
  if bool_decide (length c1 ≠ length c2)
  then Raise (ValueError "structs must have same num atoms")
  else
    let n_atoms := length c1 in
    let idx1 := argsort c1 in
    let idx2 := argsort c2 in
    bind_result (or_raise IndexError (gather c1 idx1)) (λ c1,
    bind_result (or_raise IndexError (gather c2 idx2)) (λ c2,
    if existsb id (zip_with (λ a b, bool_decide (a ≠ b)) c1 c2)
    then Raise (ValueError "structs must have same num atoms of each type")
    else
      bind_result (or_raise IndexError (gather xyz1 idx1)) (λ xyz1,
      bind_result (or_raise IndexError (gather xyz2 idx2)) (λ xyz2,
      bind_result
        (mapM_result (type_ssd xyz1 c1 xyz2 c2) (remove_dups c1))
        (λ costs,
           let ssd := foldl Qplus 0%Q costs in
           if bool_decide (n_atoms = 0) then Raise ZeroDivisionError
           else Return (np_sqrt (ssd / inject_Z (Z.of_nat n_atoms))%Q)))))).

(** [get_min_rmsd] on two lists of labelled points. *)
Definition min_rmsd_of (atoms1 atoms2 : list (vec3 * nat)) : result Q :=
  get_min_rmsd atoms1.*1 atoms1.*2 atoms2.*1 atoms2.*2.

End MinRmsd.

(** ** Notions used in the statements *)

(** Descending order of value on ranked grid points. *)
Definition value_desc (u v : voxel) : Prop := (vx_value u >= vx_value v)%Q.

(** [a < b] on objectives, as a proposition. *)
Definition obj_lt (a b : objective) : Prop :=
  match a, b with
  | Fit x, Fit y => (x < y)%Q
  | TypeFit t1 f1, TypeFit t2 f2 => (t1 < t2)%Q ∨ (t1 == t2 ∧ f1 < f2)%Q
  | Fit _, TypeFit _ _ => True
  | TypeFit _ _, Fit _ => False
  end.

(** [a == b] on objectives. *)
Definition obj_eq (a b : objective) : Prop :=
  match a, b with
  | Fit x, Fit y => (x == y)%Q
  | TypeFit t1 f1, TypeFit t2 f2 => (t1 == t2 ∧ f1 == f2)%Q
  | _, _ => False
  end.

(** What an accepted structure and a visited structure have in common. *)
Definition entry_key (s : struct_entry) := (s_objective s, s_xyz s, s_c s).
Definition visit_key (v : visit) := (v_objective v, v_xyz v, v_c v).

(** The attempts that pass the acceptance test against the pool [best]. *)
Definition accepted (best : list struct_entry) (attempts : list visit)
  : list visit :=
  filter (λ v, is_new_best (v_objective v) best = true) attempts.

(** [st] is reached from [st0] within one pass by the expansion attempts
    [attempts], in this order. *)
Record pass_steps (st0 st : search_state) (attempts : list visit) : Prop := {
  ps_best : best_structs st = best_structs st0;
  ps_visited : visited_structs st = visited_structs st0 ++ attempts;
  ps_new :
    entry_key <$> new_best_structs st
    = (entry_key <$> new_best_structs st0)
      ++ (visit_key <$> accepted (best_structs st0) attempts);
  ps_found :
    found_new_best_struct st
    = found_new_best_struct st0
      || bool_decide (accepted (best_structs st0) attempts ≠ []);
  ps_xyz_new :
    xyz_new st = match last attempts with
                 | Some v => Some (v_xyz v)
                 | None => xyz_new st0
                 end;
}.

(** ** The pass as the description of the search has it *)

Section PassSpec.

Context (B : Backend).

(** One expansion attempt: the atoms [(xyz_add, c_add)] are appended to the
    structure [parent], the coordinates are refined with the intermediate
    budget, and the objective is recomputed from the residual; the attempt
    is logged under the id of [parent]. *)
Definition spec_expansion (self : AtomFitter) (grid : AtomGrid)
    (types : list Q) (parent : struct_entry) (xyz_add : list vec3)
    (c_add : list (list Q)) : option visit :=
  let c_new := s_c parent ++ c_add in
  '(xyz_new, _, _, fit_loss) ←
    fit_gd B self grid (s_xyz parent ++ xyz_add) c_new (interm_gd_iters self);
  let type_loss :=
    Qsum (Qabs <$> zip_with Qminus types
                     (col_sums (length (channels grid)) c_new)) in
  Some {| v_objective := if constrain_types self
                         then TypeFit type_loss fit_loss else Fit fit_loss;
          v_id := s_id parent; v_xyz := xyz_new; v_c := c_new |}.

(** The attempts made for one structure of the pool: in multi-atom mode
    the joint expansion by the whole frontier, and, unless that one beats
    a pool member, one expansion for each atom of the frontier. *)
Definition spec_struct_attempts (self : AtomFitter) (grid : AtomGrid)
    (types : list Q) (pool : list struct_entry) (s : struct_entry)
  : option (list visit) :=
  let singles :=
    mapM (λ next, spec_expansion self grid types s [next.1] [next.2])
      (zip (s_xyz_next s) (s_c_next s)) in
  if multi_atom self then
    joint ← spec_expansion self grid types s (s_xyz_next s) (s_c_next s);
    if is_new_best (v_objective joint) pool then Some [joint]
    else cons joint <$> singles
  else singles.

(** The attempts of one pass, in order: those of every structure of the
    pool whose id has not been expanded before. *)
Fixpoint spec_pass_attempts (self : AtomFitter) (grid : AtomGrid)
    (types : list Q) (pool : list struct_entry) (expanded : gset nat)
    (todo : list struct_entry) : option (list visit) :=
  match todo with
  | [] => Some []
  | s :: todo =>
      if decide (s_id s ∈ expanded)
      then spec_pass_attempts self grid types pool expanded todo
      else
        a ← spec_struct_attempts self grid types pool s;
        rest ← spec_pass_attempts self grid types pool
                 ({[ s_id s ]} ∪ expanded) todo;
        Some (a ++ rest)
  end.

End PassSpec.

(** ** Example data *)

(** A small renderer for the examples: an atom of channel 0 is wide, it adds
    2 to every voxel of channel 0 and 1 more to its own voxel; an atom of
    any other channel adds 1 to its own voxel. *)
Definition nearest_index (c resolution : Q) (d : nat) (x : Q) : nat :=
  Z.to_nat (Qfloor ((x - c) / resolution + (inject_Z (Z.of_nat d) - 1) / 2
                    + (1 # 2))%Q).

Definition hot_index (row : list Q) : nat :=
  default 0 (fst <$> list_find (λ q, Qltb 0 q = true) row).

Definition toy_deposit (center : vec3) (resolution : Q) (d : nat)
    (g : list Q) (a : vec3 * list Q) : list Q :=
  let '(x, y, z) := a.1 in
  let '(cx, cy, cz) := center in
  let k := hot_index a.2 in
  let i := ((k * d + nearest_index cx resolution d x) * d
            + nearest_index cy resolution d y) * d
           + nearest_index cz resolution d z in
  let g := if decide (k = 0)
           then imap (λ j v, if decide (j < d * d * d) then (v + 2)%Q else v) g
           else g in
  alter (λ v, (v + 1)%Q) i g.

Definition toy_c2grid (dimension resolution : Q) (center : vec3)
    (xyz : list vec3) (c : list (list Q)) (r : list Q) : tensor4 :=
  let d := S (Z.to_nat (Qfloor (dimension / resolution))) in
  let nc := length r in
  {| n_channels := nc; grid_dim := d;
     flat := Qred <$> foldl (toy_deposit center resolution d)
               (replicate (nc * (d * d * d)) 0%Q) (zip xyz c) |}.

Definition toy_backend : Backend := {|
  convolve := λ g _ _, g;
  kernel_sum := λ chans _, replicate (length chans) 1%Q;
  c2grid := toy_c2grid;
  backward := λ _ _ _ _ _ xyz _ _, (λ _, (0, 0, 0)%Q) <$> xyz;
  solver_state := unit;
  Adam := λ _ _, Some tt;
  solver_step := λ s xyz _, (s, xyz);
|}.

(** The defaults of [--learning_rate], [--beta1], [--beta2] and
    [--weight_decay]. *)
Definition default_gd_kwargs : GdKwargs :=
  {| lr := 1 # 10; betas := (9 # 10, 999 # 1000)%Q; weight_decay := 0 |}.

(** The checks of the constructor of [torch.optim.Adam] on these
    arguments: a negative learning rate, a beta outside [0, 1) or a
    negative weight decay is refused. *)
Definition adam_accepts (kw : GdKwargs) : bool :=
  bool_decide (0 <= lr kw)%Q
  && bool_decide (0 <= (betas kw).1)%Q && Qltb (betas kw).1 1
  && bool_decide (0 <= (betas kw).2)%Q && Qltb (betas kw).2 1
  && bool_decide (0 <= weight_decay kw)%Q.

(** A backend whose optimizer moves the atoms: the gradient of an atom is
    its offset from the center of the grid, and a step subtracts the
    learning rate times the gradient. *)
Definition sgd_backend : Backend := {|
  convolve := λ g _ _, g;
  kernel_sum := λ chans _, replicate (length chans) 1%Q;
  c2grid := toy_c2grid;
  backward := λ _ _ _ center _ xyz _ _, (λ p, vsub p center) <$> xyz;
  solver_state := Q;
  Adam := λ kw _, if adam_accepts kw then Some (lr kw) else None;
  solver_step := λ rate xyz grad,
    (rate,
     zip_with (λ p g : vec3,
                 (Qred (p.1.1 - rate * g.1.1), Qred (p.1.2 - rate * g.1.2),
                  Qred (p.2 - rate * g.2))%Q) xyz grad);
|}.

Definition carbon : Channel := {| atomic_radius := 1; name := "C" |}.
Definition wide : Channel := {| atomic_radius := 2; name := "wide" |}.
Definition narrow : Channel := {| atomic_radius := 1 # 2; name := "narrow" |}.

Definition detector (t : option Q) (md : option Q) (n : Z) : AtomFitter := {|
  beam_size := 1; multi_atom := false; n_atoms_detect := n;
  apply_conv := false; threshold := t; peak_value := Some (3 # 2)%Q;
  min_dist := md; constrain_types := false; estimate_types := false;
  fit_L1_loss := false; interm_gd_iters := 10; final_gd_iters := 100;
  gd_kwargs := default_gd_kwargs;
|}.

Definition zero_voxel : tensor4 :=
  {| n_channels := 1; grid_dim := 1; flat := [0%Q] |}.

(** A grid of one channel whose values decrease along the flattened
    index. *)
Definition ramp (d : nat) : tensor4 :=
  {| n_channels := 1; grid_dim := d;
     flat := (λ k, inject_Z (Z.of_nat (d * d * d - k)) / 1000)%Q
             <$> seq 0 (d * d * d) |}.

Definition line3 : list atom :=
  [ ((0, 0, 0)%Q, 0); ((1, 0, 0)%Q, 0); ((2, 0, 0)%Q, 0) ].

Definition ramp10_detector : AtomFitter :=
  detector None (Some (3 # 4)%Q) 1000.

Definition ramp10_atoms : list atom :=
  to_atom (0, 0, 0)%Q 1%Q 10 <$>
  default []
    (ranked_voxels toy_backend ramp10_detector (ramp 10) [carbon] 1%Q []).

Definition beam2 : AtomFitter := {|
  beam_size := 2; multi_atom := true; n_atoms_detect := 49;
  apply_conv := false; threshold := Some (1 # 2)%Q; peak_value := None;
  min_dist := None; constrain_types := false; estimate_types := false;
  fit_L1_loss := false; interm_gd_iters := 0; final_gd_iters := 0;
  gd_kwargs := default_gd_kwargs;
|}.

(** [beam2] with a learning rate of 1/2, and with a negative one. *)
Definition with_lr (rate : Q) (self : AtomFitter) : AtomFitter := {|
  beam_size := beam_size self; multi_atom := multi_atom self;
  n_atoms_detect := n_atoms_detect self; apply_conv := apply_conv self;
  threshold := threshold self; peak_value := peak_value self;
  min_dist := min_dist self; constrain_types := constrain_types self;
  estimate_types := estimate_types self; fit_L1_loss := fit_L1_loss self;
  interm_gd_iters := interm_gd_iters self;
  final_gd_iters := final_gd_iters self;
  gd_kwargs := {| lr := rate; betas := betas (gd_kwargs self);
                  weight_decay := weight_decay (gd_kwargs self) |};
|}.

(** A target of two voxels with the values 3 and 4. *)
Definition target34 : AtomGrid := {|
  values := {| n_channels := 2; grid_dim := 1; flat := [3; 4]%Q |};
  channels := [wide; narrow];
  center := (0, 0, 0)%Q;
  resolution := 1;
  dimension := 0;
|}.

(** A fitter that constrains the types, and a target of two wide atoms in
    opposite corners of a 2x2x2 grid. *)
Definition beam3_typed : AtomFitter := {|
  beam_size := 3; multi_atom := false; n_atoms_detect := 2;
  apply_conv := false; threshold := Some (1 # 2)%Q; peak_value := None;
  min_dist := None; constrain_types := true; estimate_types := false;
  fit_L1_loss := false; interm_gd_iters := 1; final_gd_iters := 2;
  gd_kwargs := default_gd_kwargs;
|}.

Definition two_atoms : AtomGrid := {|
  values := {| n_channels := 1; grid_dim := 2;
               flat := [3; 2; 2; 2; 2; 2; 2; 3]%Q |};
  channels := [wide];
  center := (0, 0, 0)%Q;
  resolution := 1;
  dimension := 1;
|}.

(** One wide atom in the middle of a 4x4x4 grid and 49 narrow atoms. *)
Definition crowded_target : AtomGrid := {|
  values := {| n_channels := 2; grid_dim := 4;
               flat := ((λ k : nat, if decide (k = 21) then 3%Q else 2%Q)
                        <$> seq 0 64)
                       ++ ((λ k : nat, if decide (k < 49) then 1%Q else 0%Q)
                           <$> seq 0 64) |};
  channels := [wide; narrow];
  center := (0, 0, 0)%Q;
  resolution := 1;
  dimension := 3;
|}.

(** ** Notions used for [get_min_rmsd] *)

(** Looking up the position of a labelled position, keeping the label. *)
Definition fetch {A} (t : list A) (p : nat * nat) : option (A * nat) :=
  y ← t !! p.2; Some (y, p.1).

(** The labels in the order of [argsort]. *)
Definition sorted_labels (c : list nat) : list nat :=
  (merge_sort by_label (zip c (seq 0 (length c)))).*1.

(** The total squared distance of pairing the points in order. *)
Definition pair_cost (ps qs : list vec3) : Q := Qsum (zip_with sqdist ps qs).

(** [v] is the least total squared distance over the pairings of [ps] with
    a reordering of [qs]. *)
Definition min_cost (ps qs : list vec3) (v : Q) : Prop :=
  (∃ qs', qs' ≡ₚ qs ∧ v = pair_cost ps qs')
  ∧ ∀ qs', qs' ≡ₚ qs → (v <= pair_cost ps qs')%Q.

(** [xyz[c_sorted == c]] *)
Definition class_points (c : nat) (xyz : list vec3) (s : list nat)
  : list vec3 :=
  mask_select ((λ x, bool_decide (x = c)) <$> s) xyz.

(** ** The contract of the assignment solver, and instances for examples *)

(** [linear_sum_assignment] on an [n]x[n] cost matrix (of finite entries,
    as all entries are here) does not raise, and returns the rows in order
    and a permutation of the columns whose total cost is minimal. *)
Definition lsa_optimal (lsa : list (list Q) → result (list nat * list nat))
  : Prop :=
  ∀ (m : list (list Q)) (n : nat),
    length m = n → Forall (λ row, length row = n) m →
    ∃ rows cols,
      lsa m = Return (rows, cols)
      ∧ rows = seq 0 n
      ∧ cols ≡ₚ seq 0 n
      ∧ ∀ cols' v w,
          cols' ≡ₚ seq 0 n →
          Qsum <$> index_pairs m rows cols = Some v →
          Qsum <$> index_pairs m (seq 0 n) cols' = Some w →
          (v <= w)%Q.

(** Equality of outcomes up to the value of the returned rational. *)
Definition result_equiv (a b : result Q) : Prop :=
  match a, b with
  | Raise e, Raise e' => e = e'
  | Return x, Return y => (x == y)%Q
  | _, _ => False
  end.

(** An assignment solver by exhaustive search. *)
Definition lsa_cost (m : list (list Q)) (cols : list nat) : Q :=
  default 0%Q (Qsum <$> index_pairs m (seq 0 (length m)) cols).

Definition lsa_brute (m : list (list Q)) : result (list nat * list nat) :=
  let rows := seq 0 (length m) in
  Return
    (rows,
     foldr (λ cols best,
              if Qltb (lsa_cost m cols) (lsa_cost m best) then cols else best)
           rows (permutations rows)).

(** The square root of [q] rounded down to a quotient of integer roots. *)
Definition sqrt_floor (q : Q) : Q :=
  let r := Qred q in
  (inject_Z (Z.sqrt (Qnum r)) / inject_Z (Z.sqrt (Zpos (Qden r))))%Q.

Definition no_search_state : search_state := {|
  best_structs := []; new_best_structs := [];
  found_new_best_struct := false; expanded_ids := ∅;
  visited_structs := []; struct_count := 0; xyz_new := None;
|}.

Definition crowded_init : search_state :=
  default no_search_state
    (fit_init toy_backend beam2 crowded_target [1; 49]%Q).

Definition crowded_pass1 : search_state :=
  default no_search_state
    (expand_pool toy_backend beam2 crowded_target [1; 49]%Q crowded_init).

(** Two structures with the same atoms in another order. *)
Definition pts_a : list (vec3 * nat) :=
  [ ((0, 0, 0)%Q, 0); ((1, 0, 0)%Q, 1); ((0, 2, 0)%Q, 0) ].

Definition pts_b : list (vec3 * nat) :=
  [ ((0, 2, 0)%Q, 0); ((0, 0, 0)%Q, 0); ((1, 0, 0)%Q, 1) ].

(** * Further parts of the code *)

(** The grid whose values rank the candidates: the input after the optional
    convolution and the optional reflection at the peak value. *)
Definition scored_grid (B : Backend) (self : AtomFitter) (grid : tensor4)
    (channels : list Channel) (resolution : Q) : tensor4 :=
  let grid := if apply_conv self then convolve B grid channels resolution
              else grid in
  match peak_value self with
  | Some p => fold_peak p grid
  | None => grid
  end.

(** The flattened index of the grid point [(ix, iy, iz)] of channel [k]. *)
Definition ravel (d : nat) (k : nat) (i : nat * nat * nat) : nat :=
  let '(ix, iy, iz) := i in ((k * d + ix) * d + iy) * d + iz.

(** What holds of every atom that [detect_atoms] may return. *)
Definition detected_from (self : AtomFitter) (scores : tensor4) (nc d : nat)
    (center : vec3) (resolution : Q) (types : list Q) (a : atom) : Prop :=
  ∃ i v,
    i.1.1 < d ∧ i.1.2 < d ∧ i.2 < d ∧ a.2 < nc
    ∧ a.1 = voxel_coord center resolution d i
    ∧ flat scores !! ravel d a.2 i = Some v
    ∧ (∀ t, threshold self = Some t → (t < v)%Q)
    ∧ (constrain_types self = true →
       ∃ n, types !! a.2 = Some n ∧ (0 < n)%Q).

(** What the pool of [best_structs] satisfies between two passes. *)
Record pool_inv (self : AtomFitter) (st : search_state) : Prop := {
  inv_nonempty : best_structs st ≠ [];
  inv_sorted : StronglySorted struct_le (best_structs st);
  inv_ids : NoDup (s_id <$> best_structs st);
  inv_count : Forall (λ s, s_id s < struct_count st) (best_structs st);
  inv_beam :
    (1 ≤ beam_size self)%Z →
    (Z.of_nat (length (best_structs st)) ≤ beam_size self)%Z;
}.

(** Within a pass: the ids of the pool and of the accepted structures are
    pairwise distinct and below the counter. *)
Definition ids_fresh (st : search_state) : Prop :=
  NoDup (s_id <$> best_structs st ++ new_best_structs st)
  ∧ Forall (λ s, s_id s < struct_count st)
      (best_structs st ++ new_best_structs st).

(** The best objective of [st'] is at most every objective of the pool of
    [st]. *)
Definition no_worse (st st' : search_state) : Prop :=
  ∀ e e', head (best_structs st') = Some e' → e ∈ best_structs st →
    obj_le (s_objective e') (s_objective e).

(** Putting the points [new], in order, at the positions of type [c]. *)
Fixpoint scatter (c : nat) (new qs : list vec3) (s : list nat) : list vec3 :=
  match qs, s with
  | q :: qs', x :: s' =>
      if decide (x = c) then
        match new with
        | n :: new' => n :: scatter c new' qs' s'
        | [] => q :: scatter c [] qs' s'
        end
      else q :: scatter c new qs' s'
  | _, _ => qs
  end.

(** The position that numpy reads for the index [i] of an array of length
    [n]: negative indices count from the end, and an index outside
    [-n .. n-1] raises. *)
Definition np_index (n : nat) (i : Z) : option nat :=
  if bool_decide (0 ≤ i < Z.of_nat n)%Z then Some (Z.to_nat i)
  else if bool_decide (- Z.of_nat n ≤ i < 0)%Z
       then Some (Z.to_nat (i + Z.of_nat n))
       else None.

(** [count_types(c, n_types)]: [count[i] += 1] for each [i] of [c], from
    [np.zeros(n_types)]. *)
Definition count_step (n_types : nat) (count : result (list nat)) (i : Z)
  : result (list nat) :=
  bind_result count (λ count,
    match np_index n_types i with
    | Some k => Return (alter S k count)
    | None => Raise IndexError
    end).

Definition count_types (c : list Z) (n_types : nat) : result (list nat) :=
  foldl (count_step n_types) (Return (replicate n_types 0)) c.

(** [np.linalg.norm(ref_types - types, ord=1)] *)
Definition norm1_diff (ref_types types : list nat) : Z :=
  foldr Z.add 0%Z
    (zip_with (λ a b, Z.abs (Z.of_nat a - Z.of_nat b)) ref_types types).

Section StructMetrics.

Variable linear_sum_assignment :
  list (list Q) → result (list nat * list nat).
Variable np_sqrt : Q → Q.

(** The block of [compute_struct_metrics] under [if ref_struct is not
    None]: the values written as [type_diff], [exact_types] and [RMSD],
    where [None] stands for [np.nan].  A structure is the list of its
    atoms, the rows of [struct.xyz] with the entries of [struct.c]. *)
Definition compute_struct_metrics (n_types : nat)
    (struct ref_struct : list (vec3 * nat))
  : result (Z * bool * option Q) :=
  bind_result (count_types (Z.of_nat <$> struct.*2) n_types) (λ types,
  bind_result (count_types (Z.of_nat <$> ref_struct.*2) n_types)
    (λ ref_types,
  let type_diff := norm1_diff ref_types types in
  let exact_types := bool_decide (type_diff = 0%Z) in
  match min_rmsd_of linear_sum_assignment np_sqrt ref_struct struct with
  | Return rmsd => Return (type_diff, exact_types, Some rmsd)
  | Raise (ValueError _) => Return (type_diff, exact_types, None)
  | Raise ZeroDivisionError => Return (type_diff, exact_types, None)
  | Raise e => Raise e
  end)).

End StructMetrics.

(** The number of entries of [c] that index position [k] of an array of
    length [n]. *)
Definition hits (n : nat) (k : nat) (c : list Z) : nat :=
  length (filter (λ i, i = Z.of_nat k ∨ i = (Z.of_nat k - Z.of_nat n)%Z) c).

(** The detection on the 2x2x2 ramp at resolution 2, with a threshold,
    suppression and three atoms asked for. *)
Definition ramp2_detector : AtomFitter :=
  detector (Some (1 # 2000)%Q) (Some (3 # 4)%Q) 3.

Definition ramp2_detected : list vec3 * list (list Q) :=
  default ([], [])
    (detect_atoms toy_backend ramp2_detector (ramp 2) [carbon] (0, 0, 0)%Q
       2%Q []).

(** The state in which the search on [crowded_target] ends. *)
Definition crowded_final : search_state :=
  default no_search_state
    (search toy_backend beam2 crowded_target [1; 49]%Q 10 crowded_init).

(** A structure with the types of [pts_a] at other places. *)
Definition pts_c : list (vec3 * nat) :=
  [ ((0, 2, 1)%Q, 0); ((0, 0, 0)%Q, 0); ((3, 0, 0)%Q, 1) ].

(** A target without density. *)
Definition empty_target : AtomGrid := {|
  values := zero_voxel;
  channels := [carbon];
  center := (0, 0, 0)%Q;
  resolution := 1;
  dimension := 0;
|}.

(** * Properties *)

(** * Properties *)

Lemma Qltb_lt x y : Qltb x y = true ↔ (x < y)%Q.
Proof.
  unfold Qltb. rewrite Qlt_alt. destruct (x ?= y)%Q; split; congruence.
Qed.

Lemma existsb_id_lookup (l : list bool) :
  existsb id l = true ↔ ∃ j, l !! j = Some true.
Proof.
  rewrite existsb_exists. split.
  - intros (x & Hin & Hx). unfold id in Hx. subst x.
    apply list_elem_of_In, list_elem_of_lookup in Hin. exact Hin.
  - intros (j & Hj). exists true. split; [|done].
    apply list_elem_of_In, list_elem_of_lookup. eauto.
Qed.

Lemma tril_row_lookup (i : nat) (row : list bool) (j : nat) :
  imap (λ j x, if bool_decide (Z.of_nat j - Z.of_nat i ≤ -1)%Z then x else false)
       row !! j = Some true
  ↔ j < i ∧ row !! j = Some true.
Proof.
  rewrite list_lookup_imap. destruct (row !! j) as [x|]; simpl.
  - case_bool_decide; split.
    + intros [= ->]. split; [lia|done].
    + intros [_ ?]; done.
    + intros [=].
    + intros [? _]. lia.
  - split; [intros [=]|intros [_ [=]]].
Qed.

Lemma mask_select_sublist {A} (mask : list bool) (l : list A) :
  mask_select mask l `sublist_of` l.
Proof.
  unfold mask_select. revert l.
  induction mask as [|b mask IH]; intros [|x l]; simpl;
    try apply sublist_nil_l.
  rewrite filter_cons. simpl. destruct b; case_decide; try done; simpl.
  - apply sublist_skip, IH.
  - apply sublist_cons, IH.
Qed.

Lemma nms_matrix_too_close md r atoms r_c :
  gather r (snd <$> atoms) = Some r_c →
  ∃ too_close : list bool,
    length too_close = length atoms ∧
    nms_matrix md r atoms = Some (mask_select (negb <$> too_close) atoms) ∧
    ∀ i a ra, atoms !! i = Some a → r_c !! i = Some ra →
      (too_close !! i = Some true ↔
       ∃ j b rb, j < i ∧ atoms !! j = Some b ∧ r_c !! j = Some rb ∧
                 too_close_pair md (a, ra) (b, rb) = true).
Proof.
  intros Hg. pose proof (length_mapM _ _ _ Hg) as Hlen.
  rewrite length_fmap in Hlen.
  unfold nms_matrix. rewrite Hg. simpl.
  eexists. split; [|split; [reflexivity|]].
  - unfold any_dim1, tril, map2d, outer.
    rewrite length_fmap, length_imap, !length_zip_with, !length_fmap. lia.
  - intros i a ra Ha Hra.
    unfold any_dim1, tril, map2d, outer.
    rewrite list_lookup_fmap, list_lookup_imap, !lookup_zip_with,
      !list_lookup_fmap. rewrite Ha, Hra. simpl.
    split.
    + intros [= Hex]. apply existsb_id_lookup in Hex as [j Hj].
      apply tril_row_lookup in Hj as [Hlt Hj].
      rewrite !lookup_zip_with, !list_lookup_fmap in Hj.
      destruct (atoms !! j) as [b|] eqn:Hb; simpl in Hj; [|done].
      destruct (r_c !! j) as [rb|] eqn:Hrb; simpl in Hj; [|done].
      exists j, b, rb. repeat split; try done.
      unfold too_close_pair. simpl. congruence.
    + intros (j & b & rb & Hlt & Hb & Hrb & Hclose).
      f_equal. apply existsb_id_lookup. exists j.
      apply tril_row_lookup. split; [done|].
      rewrite !lookup_zip_with, !list_lookup_fmap, Hb, Hrb. simpl.
      unfold too_close_pair in Hclose. simpl in Hclose. congruence.
Qed.

Lemma Forall_sublist {A} (P : A → Prop) (l1 l2 : list A) :
  l1 `sublist_of` l2 → Forall P l2 → Forall P l1.
Proof.
  induction 1 as [|x l1 l2 _ IH|x l1 l2 _ IH]; intros HF.
  - constructor.
  - apply Forall_cons in HF as [? ?]. constructor; auto.
  - apply Forall_cons in HF as [? ?]. auto.
Qed.

Lemma StronglySorted_sublist {A} (R : relation A) (l1 l2 : list A) :
  l1 `sublist_of` l2 → StronglySorted R l2 → StronglySorted R l1.
Proof.
  induction 1 as [|x l1 l2 Hs IH|x l1 l2 _ IH]; intros HS.
  - constructor.
  - apply StronglySorted_inv in HS as [HS HF]. constructor; [auto|].
    eapply Forall_sublist; eauto.
  - apply StronglySorted_inv in HS as [HS _]. auto.
Qed.

Lemma gather_is_Some {A} (t : list A) (idx : list nat) :
  Forall (λ i, i < length t) idx → is_Some (gather t idx).
Proof.
  intros H. apply mapM_is_Some. eapply Forall_impl; [exact H|].
  intros i Hi. simpl. by apply lookup_lt_is_Some.
Qed.

Lemma gather_lookup {A} (t : list A) (idx : list nat) k i j :
  gather t idx = Some k → idx !! i = Some j → k !! i = t !! j.
Proof.
  intros Hg Hi. apply mapM_Some in Hg.
  destruct (Forall2_lookup_l _ _ _ _ _ Hg Hi) as (y & Hy & Hty). congruence.
Qed.

Lemma too_close_pair_true md (a b : atom) ra rb :
  too_close_pair md (a, ra) (b, rb) = true
  ↔ (sqdist a.1 b.1 < Qsq (md * (ra + rb)))%Q ∧ a.2 = b.2.
Proof.
  unfold too_close_pair. simpl.
  rewrite andb_true_iff, Qltb_lt, bool_decide_eq_true. done.
Qed.

(** Suppression never reorders or invents atoms. *)
Lemma nms_matrix_sublist md r atoms kept :
  nms_matrix md r atoms = Some kept → kept `sublist_of` atoms.
Proof.
  unfold nms_matrix. destruct (gather r atoms.*2); simpl; [|done].
  intros [= <-]. apply mask_select_sublist.
Qed.

Lemma foldl_nms_loop_step_None md r rest :
  foldl (nms_loop_step md r) None rest = None.
Proof. induction rest; simpl; auto. Qed.

Lemma nms_loop_step_cases md r kept0 a :
  match nms_loop_step md r (Some kept0) a with
  | Some kept1 =>
      (kept1 = kept0 ∨ kept1 = kept0 ++ [a]) ∧ is_Some (r !! a.2)
      ∧ is_Some (gather r kept0.*2)
  | None => r !! a.2 = None ∨ gather r kept0.*2 = None
  end.
Proof.
  unfold nms_loop_step. simpl.
  destruct (r !! a.2); simpl; [|by left].
  destruct (gather r kept0.*2); simpl; [|by right].
  destruct (existsb _ _); eauto.
Qed.

Lemma foldl_nms_loop_sublist md r rest : ∀ kept0 pre kept,
  kept0 `sublist_of` pre →
  foldl (nms_loop_step md r) (Some kept0) rest = Some kept →
  kept `sublist_of` pre ++ rest.
Proof.
  induction rest as [|a rest IH]; intros kept0 pre kept Hsub; cbn [foldl].
  - intros [= <-]. by rewrite app_nil_r.
  - replace (pre ++ a :: rest) with ((pre ++ [a]) ++ rest)
      by (by rewrite <- app_assoc).
    pose proof (nms_loop_step_cases md r kept0 a) as Hc.
    destruct (nms_loop_step md r (Some kept0) a) as [kept1|];
      [|by rewrite foldl_nms_loop_step_None].
    destruct Hc as [[-> | ->] _]; apply IH.
    + by apply sublist_inserts_r.
    + by apply sublist_app.
Qed.

Lemma nms_loop_sublist md r atoms kept :
  nms_loop md r atoms = Some kept → kept `sublist_of` atoms.
Proof.
  destruct atoms as [|a0 rest]; simpl; [done|].
  intros H. change (a0 :: rest) with ([a0] ++ rest).
  eapply foldl_nms_loop_sublist; [|exact H]. done.
Qed.

Lemma foldl_nms_loop_is_Some md r rest : ∀ kept0,
  Forall (λ a : atom, a.2 < length r) kept0 →
  Forall (λ a : atom, a.2 < length r) rest →
  is_Some (foldl (nms_loop_step md r) (Some kept0) rest).
Proof.
  induction rest as [|a rest IH]; intros kept0 Hk Hr; cbn [foldl];
    [by eexists|].
  apply Forall_cons in Hr as [Ha Hr].
  pose proof (nms_loop_step_cases md r kept0 a) as Hc.
  destruct (nms_loop_step md r (Some kept0) a) as [kept1|].
  - destruct Hc as [[-> | ->] _]; apply IH; auto.
    apply Forall_app; split; auto.
  - destruct Hc as [Hc | Hc].
    + apply lookup_lt_is_Some_2 in Ha as [? ?]. congruence.
    + destruct (gather_is_Some r kept0.*2) as [? ?]; [|congruence].
      by apply Forall_fmap.
Qed.

Global Instance by_value_desc_trans : Transitive by_value_desc.
Proof.
  intros a b c. unfold by_value_desc. intros H1 H2.
  exact (Qle_trans _ _ _ H2 H1).
Qed.

Global Instance by_value_desc_total : Total by_value_desc.
Proof.
  intros a b. unfold by_value_desc.
  destruct (Qlt_le_dec a.1 b.1) as [H|H]; [right|left]; auto.
  by apply Qlt_le_weak.
Qed.

Lemma fold_peak_nonpos p v : (v == 0)%Q → (p - Qabs (p - v) <= 0)%Q.
Proof.
  intros Hv. pose proof (Qle_Qabs (p - v)) as H. rewrite Hv in *. lra.
Qed.

Section DetectionFacts.

Context (B : Backend).

Lemma exclude_exhausted_sublist self types vs vs' :
  exclude_exhausted self types vs = Some vs' → vs' `sublist_of` vs.
Proof.
  unfold exclude_exhausted. destruct (constrain_types self).
  - destruct (gather types _); simpl; [|done].
    intros [= <-]. apply mask_select_sublist.
  - by intros [= <-].
Qed.

Lemma apply_threshold_sublist self vs :
  apply_threshold self vs `sublist_of` vs.
Proof.
  unfold apply_threshold. destruct (threshold self); [|done].
  apply sublist_filter.
Qed.

Lemma unravel_sorted nc d l :
  StronglySorted value_desc (unravel nc d <$> sort_descending l).
Proof.
  apply (StronglySorted_fmap _ by_value_desc).
  - intros x y H. exact H.
  - apply StronglySorted_merge_sort; apply _.
Qed.

Lemma unravel_channel nc d l :
  0 < nc → Forall (λ v, vx_c v < nc) (unravel nc d <$> l).
Proof.
  intros Hnc. apply Forall_fmap, Forall_forall. intros x _. simpl.
  apply Nat.mod_upper_bound. lia.
Qed.

(** The ranked grid points are in descending order of value and carry
    channel indices of the grid. *)
Lemma ranked_voxels_sorted self grid channels resolution types vs :
  ranked_voxels B self grid channels resolution types = Some vs →
  StronglySorted value_desc vs
  ∧ (0 < n_channels grid → Forall (λ v, vx_c v < n_channels grid) vs).
Proof.
  unfold ranked_voxels. intros H.
  apply exclude_exhausted_sublist in H.
  pose proof (apply_threshold_sublist self
    (unravel (n_channels grid) (grid_dim grid) <$>
     sort_descending (flat
       match peak_value self with
       | Some p => fold_peak p
           (if apply_conv self then convolve B grid channels resolution
            else grid)
       | None => if apply_conv self
                 then convolve B grid channels resolution else grid
       end))) as H'.
  assert (Hsub := transitivity H H'). clear H H'.
  split.
  - eapply StronglySorted_sublist; [exact Hsub|]. apply unravel_sorted.
  - intros Hnc. eapply Forall_sublist; [exact Hsub|].
    by apply unravel_channel.
Qed.

Lemma ranked_voxels_is_Some self grid channels resolution types :
  0 < n_channels grid →
  (constrain_types self = true → n_channels grid ≤ length types) →
  is_Some (ranked_voxels B self grid channels resolution types).
Proof.
  intros Hnc Hty. unfold ranked_voxels, exclude_exhausted.
  destruct (constrain_types self); [|by eexists].
  match goal with |- is_Some (gather ?t ?i ≫= _) =>
    destruct (gather_is_Some t i) as [k ->]; [|by eexists] end.
  apply Forall_fmap.
  eapply Forall_sublist; [apply apply_threshold_sublist|].
  apply Forall_fmap, Forall_forall. intros x _. simpl.
  specialize (Hty eq_refl).
  pose proof (Nat.mod_upper_bound
    (((x.2 `div` grid_dim grid) `div` grid_dim grid) `div` grid_dim grid)
    (n_channels grid)). lia.
Qed.

Lemma suppress_sublist self channels atoms kept :
  suppress self channels atoms = Some kept → kept `sublist_of` atoms.
Proof.
  unfold suppress. destruct (suppress_non_max self); [|by intros [= <-]].
  case_bool_decide; [|by intros [= <-]].
  case_bool_decide.
  - apply nms_matrix_sublist.
  - apply nms_loop_sublist.
Qed.

Lemma suppress_is_Some self channels (atoms : list atom) :
  Forall (λ a, a.2 < length channels) atoms →
  is_Some (suppress self channels atoms).
Proof.
  intros Hc. unfold suppress.
  destruct (suppress_non_max self); [|by eexists].
  case_bool_decide; [|by eexists].
  assert (Forall (λ a : atom, a.2 < length (atomic_radius <$> channels))
            atoms) as Hr by (by rewrite length_fmap).
  case_bool_decide as Hlen.
  - unfold nms_matrix.
    destruct (gather_is_Some (atomic_radius <$> channels) atoms.*2)
      as [k ->]; [by apply Forall_fmap|]. by eexists.
  - destruct atoms as [|a0 rest]; [simpl in Hlen; lia|].
    apply Forall_cons in Hr as [? ?]. simpl.
    apply foldl_nms_loop_is_Some; auto.
Qed.

End DetectionFacts.

Section DetectionTheorems.

Context (B : Backend).

(** X1: when suppression is enabled ([min_dist > 0]) and more than
    one atom is asked for ([n_atoms_detect > 1]), on every ranked
    candidate list of fewer than 1000 atoms an atom is suppressed exactly
    when some earlier atom of the same channel lies within
    [min_dist * (r_a + r_b)] of it (compared on the squares, as the code
    does); the atoms that are kept keep their order. *)
Theorem suppress_iff_earlier_close self channels (atoms : list atom) md :
  min_dist self = Some md → (0 < md)%Q → (1 < n_atoms_detect self)%Z →
  length atoms < 1000 →
  Forall (λ a, a.2 < length channels) atoms →
  ∃ too_close : list bool,
    length too_close = length atoms ∧
    suppress self channels atoms
      = Some (mask_select (negb <$> too_close) atoms) ∧
    ∀ i a ch_a, atoms !! i = Some a → channels !! a.2 = Some ch_a →
      (too_close !! i = Some true ↔
       ∃ j b ch_b, j < i ∧ atoms !! j = Some b ∧ b.2 = a.2 ∧
         channels !! b.2 = Some ch_b ∧
         (sqdist a.1 b.1
          < Qsq (md * (atomic_radius ch_a + atomic_radius ch_b)))%Q).
Proof.
  intros Hmd Hpos Hn Hlen Hch.
  destruct (gather_is_Some (atomic_radius <$> channels) atoms.*2)
    as [r_c Hg].
  { apply Forall_fmap. rewrite length_fmap. exact Hch. }
  destruct (nms_matrix_too_close md _ _ _ Hg) as (tc & Hl & Hnms & Hspec).
  exists tc. split; [done|]. split.
  - unfold suppress, suppress_non_max. rewrite Hmd.
    apply Qltb_lt in Hpos. rewrite Hpos.
    rewrite bool_decide_eq_true_2 by lia.
    rewrite bool_decide_eq_true_2 by done. done.
  - intros i a ch_a Ha Hca.
    assert (Hrad : ∀ k (x : atom), atoms !! k = Some x →
              r_c !! k = atomic_radius <$> channels !! x.2).
    { intros k x Hx. rewrite <- list_lookup_fmap.
      eapply gather_lookup; [exact Hg|].
      by rewrite list_lookup_fmap, Hx. }
    pose proof (Hrad _ _ Ha) as Hra. rewrite Hca in Hra. simpl in Hra.
    rewrite (Hspec i a _ Ha Hra). split.
    + intros (j & b & rb & Hlt & Hb & Hrb & Hclose).
      apply too_close_pair_true in Hclose as [Hd Heq].
      pose proof (Hrad _ _ Hb) as Hrb'. rewrite Hrb in Hrb'.
      destruct (channels !! b.2) as [ch_b|] eqn:Hcb; [|done].
      simpl in Hrb'. injection Hrb' as ->.
      exists j, b, ch_b. repeat split; auto.
    + intros (j & b & ch_b & Hlt & Hb & Heq & Hcb & Hd).
      pose proof (Hrad _ _ Hb) as Hrb. rewrite Hcb in Hrb. simpl in Hrb.
      exists j, b, (atomic_radius ch_b). repeat split; auto.
      apply too_close_pair_true. auto.
Qed.

End DetectionTheorems.

Section DetectionTheorems2.

Context (B : Backend).

Lemma limit_spec self (atoms : list atom) :
  ((0 ≤ n_atoms_detect self)%Z →
     limit self atoms = take (Z.to_nat (n_atoms_detect self)) atoms
     ∧ (Z.of_nat (length (limit self atoms)) ≤ n_atoms_detect self)%Z)
  ∧ ((n_atoms_detect self < 0)%Z → limit self atoms = atoms).
Proof.
  unfold limit. split; intros Hn.
  - rewrite bool_decide_eq_true_2 by lia. split; [done|].
    rewrite length_take. lia.
  - rewrite bool_decide_eq_false_2 by lia. done.
Qed.

Lemma surviving_atoms_spec self grid channels center resolution types :
  0 < n_channels grid →
  n_channels grid ≤ length channels →
  (constrain_types self = true → n_channels grid ≤ length types) →
  ∃ ranked survivors,
    ranked_voxels B self grid channels resolution types = Some ranked ∧
    StronglySorted value_desc ranked ∧
    surviving_atoms B self grid channels center resolution types
      = Some survivors ∧
    survivors `sublist_of`
      (to_atom center resolution (grid_dim grid) <$> ranked) ∧
    Forall (λ a : atom, a.2 < n_channels grid) survivors.
Proof.
  intros Hnc Hch Hty.
  destruct (ranked_voxels_is_Some B self grid channels resolution types
              Hnc Hty) as [ranked Hr].
  destruct (ranked_voxels_sorted B _ _ _ _ _ _ Hr) as [Hsorted Hc].
  specialize (Hc Hnc).
  set (atoms := to_atom center resolution (grid_dim grid) <$> ranked).
  assert (Forall (λ a : atom, a.2 < n_channels grid) atoms) as Hac.
  { subst atoms. apply Forall_fmap. exact Hc. }
  destruct (suppress_is_Some self channels atoms) as [survivors Hs].
  { eapply Forall_impl; [exact Hac|]. simpl. intros; lia. }
  pose proof (suppress_sublist _ _ _ _ Hs) as Hsub.
  exists ranked, survivors. repeat split; auto.
  - unfold surviving_atoms. rewrite Hr. simpl. exact Hs.
  - eapply Forall_sublist; [exact Hsub|exact Hac].
Qed.

Lemma detect_atoms_of_survivors self grid channels center resolution types
    survivors :
  0 < n_channels grid →
  surviving_atoms B self grid channels center resolution types
    = Some survivors →
  Forall (λ a : atom, a.2 < n_channels grid) survivors →
  ∃ c, detect_atoms B self grid channels center resolution types
         = Some ((limit self survivors).*1, c)
       ∧ length c = length (limit self survivors).
Proof.
  intros Hnc Hsurv Hac.
  assert (Forall (λ a : atom, a.2 < n_channels grid) (limit self survivors))
    as Hlc.
  { eapply Forall_sublist; [|exact Hac].
    unfold limit. case_bool_decide; [apply sublist_take|done]. }
  destruct (mapM_is_Some_2 (one_hot (n_channels grid))
              (limit self survivors).*2) as [c Hcs].
  { apply Forall_fmap. eapply Forall_impl; [exact Hlc|].
    intros a Ha. simpl. unfold one_hot. rewrite decide_True by done.
    by eexists. }
  exists c. split.
  - unfold detect_atoms, F_one_hot. rewrite Hsurv. simpl.
    rewrite decide_False by lia. rewrite Hcs. done.
  - apply length_mapM in Hcs. rewrite length_fmap in Hcs. done.
Qed.

(** C6: [detect_atoms] returns at most [n_atoms_detect] atoms when
    [n_atoms_detect >= 0], namely the first [n_atoms_detect] of the atoms
    that survive ranking and suppression, which are listed in descending
    order of grid value; when [n_atoms_detect] is negative it returns all
    of them. *)
Theorem detect_atoms_limit self grid channels center resolution types :
  0 < n_channels grid →
  n_channels grid ≤ length channels →
  (constrain_types self = true → n_channels grid ≤ length types) →
  ∃ ranked survivors xyz c,
    ranked_voxels B self grid channels resolution types = Some ranked ∧
    StronglySorted value_desc ranked ∧
    surviving_atoms B self grid channels center resolution types
      = Some survivors ∧
    survivors `sublist_of`
      (to_atom center resolution (grid_dim grid) <$> ranked) ∧
    detect_atoms B self grid channels center resolution types
      = Some (xyz, c) ∧
    length c = length xyz ∧
    ((0 ≤ n_atoms_detect self)%Z →
       xyz = (take (Z.to_nat (n_atoms_detect self)) survivors).*1 ∧
       (Z.of_nat (length xyz) ≤ n_atoms_detect self)%Z) ∧
    ((n_atoms_detect self < 0)%Z → xyz = survivors.*1).
Proof.
  intros Hnc Hch Hty.
  destruct (surviving_atoms_spec self grid channels center resolution
              types Hnc Hch Hty)
    as (ranked & survivors & Hr & Hsorted & Hsurv & Hsub & Hac).
  destruct (detect_atoms_of_survivors _ _ _ _ _ _ _ Hnc Hsurv Hac)
    as (c & Hd & Hlen).
  exists ranked, survivors, (limit self survivors).*1, c.
  destruct (limit_spec self survivors) as [Hpos Hneg].
  repeat split; auto.
  - by rewrite length_fmap.
  - f_equal. by apply Hpos.
  - rewrite length_fmap. by apply Hpos.
  - intros Hn. f_equal. by apply Hneg.
Qed.

(** C5, as amended: on an all-zero density grid with at least one channel
    [detect_atoms] returns no atom whenever a threshold is set and is not
    negative (with the convolution switched on, provided the convolved
    grid is all-zero too). *)
Theorem detect_atoms_zero_grid self grid channels center resolution types t :
  0 < n_channels grid →
  Forall (λ v, v == 0)%Q (flat grid) →
  threshold self = Some t → (0 <= t)%Q →
  (apply_conv self = true →
   Forall (λ v, v == 0)%Q (flat (convolve B grid channels resolution))) →
  detect_atoms B self grid channels center resolution types = Some ([], []).
Proof.
  intros Hnc Hz Ht Hpos Hconv.
  assert (ranked_voxels B self grid channels resolution types = Some [])
    as Hr.
  { unfold ranked_voxels.
    set (g1 := if apply_conv self then _ else _).
    assert (Forall (λ v, v == 0)%Q (flat g1)) as Hg1.
    { subst g1. destruct (apply_conv self); auto. }
    set (g2 := match peak_value self with Some p => _ | None => _ end).
    assert (Forall (λ v, v <= 0)%Q (flat g2)) as Hg2.
    { subst g2. destruct (peak_value self) as [p|]; simpl.
      - apply Forall_fmap. eapply Forall_impl; [exact Hg1|].
        intros v Hv. simpl. by apply fold_peak_nonpos.
      - eapply Forall_impl; [exact Hg1|]. intros v Hv. rewrite Hv. lra. }
    assert (apply_threshold self
              (unravel (n_channels grid) (grid_dim grid) <$>
               sort_descending (flat g2)) = []) as ->.
    { unfold apply_threshold. rewrite Ht.
      match goal with |- ?f = [] => destruct f as [|v vs] eqn:Hf end;
        [done|exfalso].
      assert (v ∈ v :: vs) as Hv by left. rewrite <- Hf in Hv.
      apply list_elem_of_filter in Hv as [Hlt Hin].
      apply Qltb_lt in Hlt.
      apply list_elem_of_fmap in Hin as (vi & -> & Hin).
      unfold sort_descending in Hin. rewrite merge_sort_Permutation in Hin.
      apply elem_of_lookup_imap in Hin as (i & x & -> & Hx).
      simpl in Hlt. rewrite Forall_forall in Hg2.
      assert (x <= 0)%Q by (apply Hg2; by eapply list_elem_of_lookup_2).
      lra. }
    unfold exclude_exhausted. destruct (constrain_types self); done. }
  unfold detect_atoms, surviving_atoms. rewrite Hr. simpl.
  assert (suppress self channels [] = Some []) as ->.
  { unfold suppress. destruct (suppress_non_max self); [|done].
    case_bool_decide; done. }
  simpl. unfold limit, F_one_hot. rewrite decide_False by lia.
  case_bool_decide; [rewrite take_nil|]; done.
Qed.

(** C4: the suppression rule is not applied whenever
    [n_atoms_detect <= 1], though [min_dist > 0] asks for it.  With a
    negative [n_atoms_detect], which stands for no limit, [detect_atoms]
    therefore returns every ranked candidate, however close it is to a
    higher-ranked atom of its channel. *)
Theorem suppression_skipped_without_limit self grid channels center
    resolution types :
  0 < n_channels grid →
  n_channels grid ≤ length channels →
  (constrain_types self = true → n_channels grid ≤ length types) →
  ((n_atoms_detect self ≤ 1)%Z →
   ∀ atoms, suppress self channels atoms = Some atoms)
  ∧ ((n_atoms_detect self < 0)%Z →
     ∃ ranked c,
       ranked_voxels B self grid channels resolution types = Some ranked
       ∧ detect_atoms B self grid channels center resolution types
         = Some ((to_atom center resolution (grid_dim grid) <$> ranked).*1, c)
       ∧ length c = length ranked).
Proof.
  intros Hnc Hch Hty.
  assert ((n_atoms_detect self ≤ 1)%Z →
          ∀ atoms, suppress self channels atoms = Some atoms) as Hskip.
  { intros Hn atoms. unfold suppress.
    destruct (suppress_non_max self); [|done].
    by rewrite bool_decide_eq_false_2 by lia. }
  split; [exact Hskip|]. intros Hn.
  destruct (ranked_voxels_is_Some B self grid channels resolution types
              Hnc Hty) as [ranked Hr].
  destruct (ranked_voxels_sorted B _ _ _ _ _ _ Hr) as [_ Hc].
  specialize (Hc Hnc).
  set (atoms := to_atom center resolution (grid_dim grid) <$> ranked).
  assert (Forall (λ a : atom, a.2 < n_channels grid) atoms) as Hac.
  { subst atoms. apply Forall_fmap. exact Hc. }
  assert (surviving_atoms B self grid channels center resolution types
          = Some atoms) as Hsurv.
  { unfold surviving_atoms. rewrite Hr. simpl. apply Hskip. lia. }
  destruct (detect_atoms_of_survivors _ _ _ _ _ _ _ Hnc Hsurv Hac)
    as (c & Hd & Hlen).
  destruct (limit_spec self atoms) as [_ Hneg].
  rewrite (Hneg Hn) in Hd, Hlen.
  exists ranked, c. split; [done|]. split; [done|].
  rewrite Hlen. subst atoms. by rewrite length_fmap.
Qed.

End DetectionTheorems2.

Lemma detect_atoms_zero_grid_witness :
  0 < n_channels zero_voxel
  ∧ Forall (λ v, v == 0)%Q (flat zero_voxel)
  ∧ detect_atoms toy_backend (detector (Some (1 # 10)%Q) None 1) zero_voxel
      [carbon] (0, 0, 0)%Q 1%Q [] = Some ([], []).
Proof.
  assert (Forall (λ v, v == 0)%Q (flat zero_voxel)) as Hz.
  { repeat constructor. }
  split; [simpl; lia|]. split; [exact Hz|].
  apply (detect_atoms_zero_grid toy_backend (detector (Some (1 # 10)%Q) None 1)
           zero_voxel [carbon] (0, 0, 0)%Q 1%Q [] (1 # 10)%Q).
  - simpl. lia.
  - exact Hz.
  - reflexivity.
  - vm_compute. discriminate.
  - intros _. exact Hz.
Defined.

Lemma zero_grid_without_threshold_detects :
  0 < n_channels zero_voxel
  ∧ Forall (λ v, v == 0)%Q (flat zero_voxel)
  ∧ ∃ xyz c,
      detect_atoms toy_backend (detector None None 1) zero_voxel [carbon]
        (0, 0, 0)%Q 1%Q [] = Some (xyz, c)
      ∧ length xyz = 1.
Proof.
  split; [simpl; lia|]. split; [repeat constructor|].
  eexists _, _. split; [vm_compute; reflexivity|reflexivity].
Qed.

Lemma unlimited_detection_keeps_close_atom :
  let self := detector None (Some (3 # 4)%Q) (-1) in
  let a0 : atom := ((0, 0, 0)%Q, 0) in
  let a1 : atom := ((1, 0, 0)%Q, 0) in
  min_dist self = Some (3 # 4)%Q ∧ (0 < 3 # 4)%Q
  ∧ line3 !! 0 = Some a0 ∧ line3 !! 1 = Some a1 ∧ a0.2 = a1.2
  ∧ (sqdist a1.1 a0.1
     < Qsq ((3 # 4) * (atomic_radius carbon + atomic_radius carbon)))%Q
  ∧ suppress self [carbon] line3 = Some line3.
Proof.
  simpl. repeat split; try reflexivity.
Qed.

Lemma suppression_skipped_without_limit_witness :
  ((-1 ≤ 1)%Z →
   ∀ atoms, suppress (detector None (Some (3 # 4)%Q) (-1)) [carbon] atoms
            = Some atoms)
  ∧ ((-1 < 0)%Z →
     ∃ ranked c,
       ranked_voxels toy_backend (detector None (Some (3 # 4)%Q) (-1))
         (ramp 2) [carbon] 1%Q [] = Some ranked
       ∧ detect_atoms toy_backend (detector None (Some (3 # 4)%Q) (-1))
           (ramp 2) [carbon] (0, 0, 0)%Q 1%Q []
         = Some ((to_atom (0, 0, 0)%Q 1%Q 2 <$> ranked).*1, c)
       ∧ length c = length ranked).
Proof.
  apply (suppression_skipped_without_limit toy_backend
           (detector None (Some (3 # 4)%Q) (-1)) (ramp 2) [carbon]
           (0, 0, 0)%Q 1%Q []).
  - simpl. lia.
  - simpl. lia.
  - simpl. discriminate.
Defined.

Lemma detect_atoms_limit_witness :
  (∃ ranked survivors xyz c,
     ranked_voxels toy_backend (detector None None 3) (ramp 2)
       [carbon] 1%Q [] = Some ranked ∧
     StronglySorted value_desc ranked ∧
     surviving_atoms toy_backend (detector None None 3) (ramp 2)
       [carbon] (0, 0, 0)%Q 1%Q [] = Some survivors ∧
     survivors `sublist_of` (to_atom (0, 0, 0)%Q 1%Q 2 <$> ranked) ∧
     detect_atoms toy_backend (detector None None 3) (ramp 2)
       [carbon] (0, 0, 0)%Q 1%Q [] = Some (xyz, c) ∧
     length c = length xyz ∧
     ((0 ≤ 3)%Z → xyz = (take (Z.to_nat 3) survivors).*1 ∧
                  (Z.of_nat (length xyz) ≤ 3)%Z) ∧
     ((3 < 0)%Z → xyz = survivors.*1))
  ∧ (∃ ranked survivors xyz c,
       ranked_voxels toy_backend (detector None None (-1)) (ramp 2)
         [carbon] 1%Q [] = Some ranked ∧
       StronglySorted value_desc ranked ∧
       surviving_atoms toy_backend (detector None None (-1)) (ramp 2)
         [carbon] (0, 0, 0)%Q 1%Q [] = Some survivors ∧
       survivors `sublist_of` (to_atom (0, 0, 0)%Q 1%Q 2 <$> ranked) ∧
       detect_atoms toy_backend (detector None None (-1)) (ramp 2)
         [carbon] (0, 0, 0)%Q 1%Q [] = Some (xyz, c) ∧
       length c = length xyz ∧
       ((0 ≤ -1)%Z → xyz = (take (Z.to_nat (-1)) survivors).*1 ∧
                     (Z.of_nat (length xyz) ≤ -1)%Z) ∧
       ((-1 < 0)%Z → xyz = survivors.*1))
  ∧ length <$> surviving_atoms toy_backend (detector None None 3) (ramp 2)
                 [carbon] (0, 0, 0)%Q 1%Q [] = Some 8
  ∧ (λ r, length r.1) <$> detect_atoms toy_backend (detector None None 3)
                            (ramp 2) [carbon] (0, 0, 0)%Q 1%Q [] = Some 3
  ∧ (λ r, length r.1) <$> detect_atoms toy_backend (detector None None (-1))
                            (ramp 2) [carbon] (0, 0, 0)%Q 1%Q [] = Some 8.
Proof.
  split.
  { apply (detect_atoms_limit toy_backend (detector None None 3)
             (ramp 2) [carbon] (0, 0, 0)%Q 1%Q []).
    - simpl. lia.
    - simpl. lia.
    - simpl. discriminate. }
  split.
  { apply (detect_atoms_limit toy_backend (detector None None (-1))
             (ramp 2) [carbon] (0, 0, 0)%Q 1%Q []).
    - simpl. lia.
    - simpl. lia.
    - simpl. discriminate. }
  repeat split; vm_compute; reflexivity.
Defined.

Lemma suppress_iff_earlier_close_witness :
  ∃ too_close : list bool,
    length too_close = length line3 ∧
    suppress (detector None (Some (3 # 4)%Q) 3) [carbon] line3
      = Some (mask_select (negb <$> too_close) line3) ∧
    ∀ i a ch_a, line3 !! i = Some a → [carbon] !! a.2 = Some ch_a →
      (too_close !! i = Some true ↔
       ∃ j b ch_b, j < i ∧ line3 !! j = Some b ∧ b.2 = a.2 ∧
         [carbon] !! b.2 = Some ch_b ∧
         (sqdist a.1 b.1
          < Qsq ((3 # 4) * (atomic_radius ch_a + atomic_radius ch_b)))%Q).
Proof.
  apply (suppress_iff_earlier_close (detector None (Some (3 # 4)%Q) 3)
           [carbon] line3 (3 # 4)%Q).
  - reflexivity.
  - reflexivity.
  - simpl. lia.
  - simpl. lia.
  - repeat constructor.
Defined.

(** C10: the two suppression paths are not equivalent.  On three same-type
    atoms in a row the matrix path keeps only the first and the loop path
    keeps the first and the third; and on a one-channel 10x10x10 grid,
    whose 1000 candidates take the loop path, the atom of third rank is
    kept although the atom of second rank, of the same channel, is within
    the suppression distance of it. *)
Theorem nms_loop_differs_from_matrix :
  let a0 : atom := ((0, 0, 0)%Q, 0) in
  let a2 : atom := ((2, 0, 0)%Q, 0) in
  nms_matrix (3 # 4) [1%Q] line3 = Some [a0]
  ∧ nms_loop (3 # 4) [1%Q] line3 = Some [a0; a2]
  ∧ length ramp10_atoms = 1000
  ∧ suppress ramp10_detector [carbon] ramp10_atoms
    = nms_loop (3 # 4) [1%Q] ramp10_atoms
  ∧ length <$> suppress ramp10_detector [carbon] ramp10_atoms = Some 250
  ∧ ∃ a b,
      ramp10_atoms !! 1 = Some b ∧ ramp10_atoms !! 2 = Some a
      ∧ suppress ramp10_detector [carbon] ramp10_atoms ≫= (.!! 1) = Some a
      ∧ too_close_pair (3 # 4) (a, 1%Q) (b, 1%Q) = true.
Proof.
  intros a0 a2.
  split; [vm_compute; reflexivity|].
  split; [vm_compute; reflexivity|].
  split; [vm_compute; reflexivity|].
  split; [vm_compute; reflexivity|].
  split; [vm_compute; reflexivity|].
  eexists _, _.
  split; [vm_compute; reflexivity|].
  split; [vm_compute; reflexivity|].
  split; [vm_compute; reflexivity|].
  vm_compute; reflexivity.
Qed.


Section GradientDescentFacts.

Context (B : Backend).

Lemma gd_loop_budget self grid c n_iters (k : nat) : ∀ i st,
  (i + Z.of_nat k = n_iters)%Z →
  let st' := gd_loop B self grid c (atomic_radius <$> channels grid) n_iters
               (seqZ i (Z.of_nat k + 1)) st in
  gd_steps st' = gd_steps st + k
  ∧ (gd_xyz st', gd_solver st')
    = Nat.iter k (gd_step B self grid c) (gd_xyz st, gd_solver st)
  ∧ gd_locals st'
    = Some (gd_forward B self grid c (atomic_radius <$> channels grid)
              (gd_xyz st')).
Proof.
  induction k as [|k IH]; intros i st Hi st'; subst st'.
  - rewrite seqZ_cons by lia. simpl.
    rewrite bool_decide_eq_true_2 by lia. simpl.
    split; [lia|]. split; done.
  - rewrite seqZ_cons by lia. cbn [gd_loop].
    rewrite bool_decide_eq_false_2 by lia.
    destruct (solver_step B (gd_solver st) (gd_xyz st) _)
      as [solver xyz'] eqn:Hstep.
    replace (Z.pred (Z.of_nat (S k) + 1)) with (Z.of_nat k + 1)%Z by lia.
    match goal with |- context [gd_loop _ _ _ _ _ _ _ ?s] =>
      destruct (IH (Z.succ i) s ltac:(lia)) as (H1 & H2 & H3) end.
    simpl in H1, H2. split; [rewrite H1; lia|]. split; [|exact H3].
    rewrite H2. rewrite Nat.iter_succ_r. f_equal.
    unfold gd_step. simpl. rewrite Hstep. done.
Qed.

(** C7, as amended: for every [n_iters >= 0], when the constructor of the
    optimizer accepts [gd_kwargs], [fit_gd] returns after exactly
    [n_iters] solver steps, with no convergence test, and returns the
    coordinates after these steps, the density rendered from them, the
    residual (the target value minus the rendered value at every grid
    point) and the loss of that residual (half the sum of its squares, or
    the sum of its absolute values under [fit_L1_loss]); when the
    constructor raises, so does [fit_gd]. *)
Theorem fit_gd_runs_budget self grid xyz c n_iters :
  (0 ≤ n_iters)%Z →
  (∀ solver0, Adam B (gd_kwargs self) xyz = Some solver0 →
     ∃ st xyz' solver' grid_pred grid_diff loss,
       gd_run B self grid xyz c n_iters = Some st
       ∧ fit_gd B self grid xyz c n_iters
         = Some (xyz', grid_pred, grid_diff, loss)
       ∧ gd_steps st = Z.to_nat n_iters
       ∧ (xyz', solver')
         = Nat.iter (Z.to_nat n_iters) (gd_step B self grid c) (xyz, solver0)
       ∧ grid_pred
         = c2grid B (dimension grid) (resolution grid) (center grid) xyz' c
             (atomic_radius <$> channels grid)
       ∧ flat grid_diff
         = zip_with Qminus (flat (values grid)) (flat grid_pred)
       ∧ loss = (if fit_L1_loss self
                 then Qsum (Qabs <$> flat grid_diff)
                 else Qsum (Qsq <$> flat grid_diff) / 2)%Q)
  ∧ (Adam B (gd_kwargs self) xyz = None →
     fit_gd B self grid xyz c n_iters = None).
Proof.
  intros Hn. split.
  - intros solver0 Hs.
    pose proof (gd_loop_budget self grid c n_iters (Z.to_nat n_iters) 0
      {| gd_xyz := xyz; gd_solver := solver0; gd_steps := 0;
         gd_locals := None |} ltac:(lia)) as H.
    rewrite Z2Nat.id in H by lia. simpl in H.
    destruct H as (H1 & H2 & H3).
    set (st := gd_loop B self grid c (atomic_radius <$> channels grid)
                 n_iters (seqZ 0 (n_iters + 1))
                 {| gd_xyz := xyz; gd_solver := solver0; gd_steps := 0;
                    gd_locals := None |}) in *.
    assert (gd_run B self grid xyz c n_iters = Some st) as Hrun.
    { unfold gd_run. rewrite Hs. done. }
    eexists st, (gd_xyz st), (gd_solver st), _, _, _.
    split; [exact Hrun|]. split.
    { unfold fit_gd. rewrite Hrun. simpl. rewrite H3. reflexivity. }
    split; [exact H1|]. split; [exact H2|].
    split; [reflexivity|]. split; [reflexivity|].
    unfold loss_of, L1_loss, L2_loss. reflexivity.
  - intros Hs. unfold fit_gd, gd_run. rewrite Hs. done.
Qed.

(** X6: a negative budget leaves the loop body unexecuted and the return
    statement reads unbound locals. *)
Lemma fit_gd_negative_budget self grid xyz c n_iters :
  (n_iters < 0)%Z → fit_gd B self grid xyz c n_iters = None.
Proof.
  intros Hn. unfold fit_gd, gd_run.
  destruct (Adam B (gd_kwargs self) xyz); [|done]. simpl.
  replace (seqZ 0 (n_iters + 1)) with (@nil Z); [done|].
  symmetry. apply seqZ_nil. lia.
Qed.

End GradientDescentFacts.

(** ** Order on objectives *)

Lemma obj_compare_Lt a b : obj_compare a b = Lt ↔ obj_lt a b.
Proof.
  destruct a as [x|t1 f1], b as [y|t2 f2]; simpl.
  - symmetry. apply Qlt_alt.
  - by split.
  - by split.
  - destruct (Qcompare_spec t1 t2) as [H|H|H].
    + rewrite <- Qlt_alt. split; [auto|]. intros [?|[_ ?]]; [lra|done].
    + split; auto.
    + split; [done|]. intros [?|[? _]]; lra.
Qed.

Lemma obj_compare_Eq a b : obj_compare a b = Eq ↔ obj_eq a b.
Proof.
  destruct a as [x|t1 f1], b as [y|t2 f2]; simpl.
  - symmetry. apply Qeq_alt.
  - by split.
  - by split.
  - destruct (Qcompare_spec t1 t2) as [H|H|H].
    + rewrite <- Qeq_alt. split; [auto|]. by intros [_ ?].
    + split; [done|]. intros [? _]. lra.
    + split; [done|]. intros [? _]. lra.
Qed.

Lemma obj_compare_antisym a b : obj_compare b a = CompOpp (obj_compare a b).
Proof.
  destruct a as [x|t1 f1], b as [y|t2 f2]; simpl.
  - symmetry. apply Qcompare_antisym.
  - done.
  - done.
  - rewrite <- (Qcompare_antisym t1 t2), <- (Qcompare_antisym f1 f2).
    by destruct (t1 ?= t2)%Q.
Qed.

Lemma obj_compare_Gt a b : obj_compare a b = Gt ↔ obj_lt b a.
Proof.
  rewrite <- obj_compare_Lt, (obj_compare_antisym a b).
  destruct (obj_compare a b); simpl; split; congruence.
Qed.

Lemma obj_lt_trans a b c : obj_lt a b → obj_lt b c → obj_lt a c.
Proof. destruct a, b, c; simpl; first [done | lra]. Qed.

Lemma obj_eq_sym a b : obj_eq a b → obj_eq b a.
Proof. destruct a, b; simpl; first [done | lra]. Qed.

Lemma obj_eq_trans a b c : obj_eq a b → obj_eq b c → obj_eq a c.
Proof. destruct a, b, c; simpl; first [done | lra]. Qed.

Lemma obj_lt_eq a b c : obj_lt a b → obj_eq b c → obj_lt a c.
Proof. destruct a, b, c; simpl; first [done | lra]. Qed.

Lemma obj_eq_lt a b c : obj_eq a b → obj_lt b c → obj_lt a c.
Proof. destruct a, b, c; simpl; first [done | lra]. Qed.

Lemma obj_le_alt a b : obj_le a b ↔ obj_lt a b ∨ obj_eq a b.
Proof.
  unfold obj_le. rewrite <- obj_compare_Lt, <- obj_compare_Eq.
  destruct (obj_compare a b); split; try congruence; auto.
  intros [?|?]; congruence.
Qed.

Lemma struct_le_alt a b :
  struct_le a b
  ↔ obj_lt (s_objective a) (s_objective b)
    ∨ (obj_eq (s_objective a) (s_objective b) ∧ s_id a ≤ s_id b).
Proof.
  unfold struct_le, struct_compare.
  rewrite <- obj_compare_Lt, <- obj_compare_Eq.
  destruct (obj_compare (s_objective a) (s_objective b)).
  - destruct (Nat.compare_spec (s_id a) (s_id b)); split; try done;
      try (intros _; right; split; [done|lia]).
    intros [?|[_ ?]]; [done|lia].
  - split; auto.
  - split; [done|]. intros [?|[? _]]; done.
Qed.

Global Instance struct_le_trans : Transitive struct_le.
Proof.
  intros a b c. rewrite !struct_le_alt.
  intros [H1|[H1 I1]] [H2|[H2 I2]].
  - left. eapply obj_lt_trans; eauto.
  - left. eapply obj_lt_eq; eauto.
  - left. eapply obj_eq_lt; eauto.
  - right. split; [eapply obj_eq_trans; eauto|lia].
Qed.

Global Instance struct_le_total : Total struct_le.
Proof.
  intros a b. rewrite !struct_le_alt.
  destruct (obj_compare (s_objective a) (s_objective b)) eqn:Hc.
  - apply obj_compare_Eq in Hc. pose proof (obj_eq_sym _ _ Hc).
    destruct (decide (s_id a ≤ s_id b)); [left|right]; right; split; auto.
    lia.
  - apply obj_compare_Lt in Hc. auto.
  - apply obj_compare_Gt in Hc. auto.
Qed.

Lemma struct_le_obj_le a b :
  struct_le a b → obj_le (s_objective a) (s_objective b).
Proof.
  rewrite struct_le_alt, obj_le_alt. intros [?|[? _]]; auto.
Qed.

Lemma sorted_spec structs :
  StronglySorted struct_le (sorted structs) ∧ sorted structs ≡ₚ structs.
Proof.
  split; [apply StronglySorted_merge_sort; apply _|].
  apply merge_sort_Permutation.
Qed.

Lemma is_new_best_spec o best :
  is_new_best o best = true ↔ ∃ s, s ∈ best ∧ obj_lt o (s_objective s).
Proof.
  unfold is_new_best. rewrite existsb_exists.
  split; intros (s & Hin & Hs); exists s.
  - split; [by apply list_elem_of_In|]. apply obj_compare_Lt.
    unfold obj_ltb in Hs. by destruct (obj_compare _ _).
  - split; [by apply list_elem_of_In|]. apply obj_compare_Lt in Hs.
    unfold obj_ltb. by rewrite Hs.
Qed.

(** The head of a truncated list is the head of the list. *)
Lemma head_slice_to {A} n (l : list A) x :
  head (slice_to n l) = Some x → head l = Some x.
Proof.
  unfold slice_to. case_bool_decide.
  - destruct (Z.to_nat n), l; simpl; congruence.
  - destruct (length l - Z.to_nat (- n)), l; simpl; congruence.
Qed.

Lemma head_slice_to_is_Some {A} n (l : list A) :
  (1 ≤ n)%Z → l ≠ [] → is_Some (head (slice_to n l)).
Proof.
  intros Hn Hl. unfold slice_to. rewrite bool_decide_eq_true_2 by lia.
  destruct l; [done|]. destruct (Z.to_nat n) eqn:E; [lia|]. by eexists.
Qed.

(** ** One pass of the search *)

Lemma pass_steps_refl st : pass_steps st st [].
Proof.
  split; simpl; rewrite ?app_nil_r; auto.
  by rewrite orb_false_r.
Qed.

Lemma pass_steps_trans st0 st1 st2 a1 a2 :
  pass_steps st0 st1 a1 → pass_steps st1 st2 a2 →
  pass_steps st0 st2 (a1 ++ a2).
Proof.
  intros [B1 V1 N1 F1 X1] [B2 V2 N2 F2 X2].
  split.
  - congruence.
  - rewrite V2, V1. by rewrite app_assoc.
  - rewrite N2, N1, B1. unfold accepted.
    by rewrite filter_app, fmap_app, app_assoc.
  - rewrite F2, F1, B1. unfold accepted. rewrite filter_app.
    rewrite <- orb_assoc. f_equal.
    destruct (filter _ a1), (filter _ a2); done.
  - rewrite X2, X1. rewrite last_app. by destruct (last a2).
Qed.

Section PassFacts.

Context (B : Backend).

Lemma try_expansion_steps self grid types st id xyz c st' acc :
  try_expansion B self grid types st id xyz c = Some (st', acc) →
  ∃ v, pass_steps st st' [v]
       ∧ acc = is_new_best (v_objective v) (best_structs st)
       ∧ expanded_ids st' = expanded_ids st.
Proof.
  unfold try_expansion.
  destruct (fit_gd _ _ _ _ _ _) as [[[[x gp] gd] fl]|]; simpl; [|done].
  match goal with |- context [is_new_best ?o ?b] =>
    set (o' := o) in *; destruct (is_new_best o' b) eqn:Hacc end.
  - destruct (detect_atoms _ _ _ _ _ _ _) as [[xn cn]|]; simpl; [|done].
    intros [= <- <-].
    exists {| v_objective := o'; v_id := id; v_xyz := x; v_c := c |}.
    split; [|done]. split; simpl; auto.
    + unfold accepted. rewrite filter_cons. simpl.
      rewrite decide_True by done. by rewrite fmap_app.
    + unfold accepted. rewrite filter_cons. simpl.
      rewrite decide_True by done. by rewrite orb_true_r.
  - intros [= <- <-].
    exists {| v_objective := o'; v_id := id; v_xyz := x; v_c := c |}.
    split; [|done]. split; simpl; auto.
    + unfold accepted. rewrite filter_cons. simpl.
      rewrite decide_False by congruence. by rewrite app_nil_r.
    + unfold accepted. rewrite filter_cons. simpl.
      rewrite decide_False by congruence. by rewrite orb_false_r.
Qed.

Lemma expand_single_steps self grid types s : ∀ nexts st st',
  foldl (λ st next,
           st ← st;
           fst <$> try_expansion B self grid types st (s_id s)
                     (s_xyz s ++ [next.1]) (s_c s ++ [next.2]))
        (Some st) nexts = Some st' →
  ∃ attempts, pass_steps st st' attempts
              ∧ expanded_ids st' = expanded_ids st.
Proof.
  induction nexts as [|next nexts IH]; intros st st'; cbn [foldl].
  - intros [= <-]. exists []. split; [apply pass_steps_refl|done].
  - simpl.
    destruct (try_expansion _ _ _ _ _ _ _ _) as [[st1 acc]|] eqn:Ht; simpl.
    + intros H. apply try_expansion_steps in Ht as (v & Hv & _ & He).
      apply IH in H as (attempts & Ha & He').
      exists ([v] ++ attempts). split; [|congruence].
      eapply pass_steps_trans; eauto.
    + intros H. exfalso. revert H. clear.
      induction nexts; simpl; [done|auto].
Qed.

Lemma expand_struct_steps self grid types st s st' :
  expand_struct B self grid types (Some st) s = Some st' →
  ∃ attempts, pass_steps st st' attempts.
Proof.
  unfold expand_struct. simpl. case_decide.
  { intros [= <-]. exists []. apply pass_steps_refl. }
  assert (∀ st1 a1 (single : bool),
    pass_steps st st1 a1 →
    (if single then expand_single B self grid types s st1 else Some st1)
      ≫= (λ st,
       Some {| best_structs := best_structs st;
               new_best_structs := new_best_structs st;
               found_new_best_struct := found_new_best_struct st;
               expanded_ids := {[s_id s]} ∪ expanded_ids st;
               visited_structs := visited_structs st;
               struct_count := struct_count st;
               xyz_new := xyz_new st |}) = Some st' →
    ∃ attempts, pass_steps st st' attempts) as Hrest.
  { intros st1 a1 single H1 Hq.
    destruct single.
    - destruct (expand_single B self grid types s st1) as [st2|] eqn:Hs;
        simpl in Hq; [|done].
      apply expand_single_steps in Hs as (a2 & H2 & _).
      injection Hq as <-. exists (a1 ++ a2).
      pose proof (pass_steps_trans _ _ _ _ _ H1 H2) as [? ? ? ? ?].
      split; simpl; auto.
    - simpl in Hq. injection Hq as <-. exists a1.
      destruct H1 as [? ? ? ? ?]. split; simpl; auto. }
  destruct (multi_atom self).
  - destruct (try_expansion _ _ _ _ _ _ _ _) as [[st1 acc]|] eqn:Ht;
      simpl; [|done].
    apply try_expansion_steps in Ht as (v & Hv & _ & _).
    apply (Hrest st1 [v] (negb acc)). exact Hv.
  - simpl. apply (Hrest st [] true). apply pass_steps_refl.
Qed.

Lemma foldl_expand_struct_None self grid types l :
  foldl (expand_struct B self grid types) None l = None.
Proof. induction l; simpl; auto. Qed.

Lemma foldl_expand_struct_steps self grid types : ∀ l st st',
  foldl (expand_struct B self grid types) (Some st) l = Some st' →
  ∃ attempts, pass_steps st st' attempts.
Proof.
  induction l as [|s l IH]; intros st st'; cbn [foldl].
  - intros [= <-]. exists []. apply pass_steps_refl.
  - destruct (expand_struct B self grid types (Some st) s) as [st1|] eqn:H1.
    + intros H. apply expand_struct_steps in H1 as (a1 & H1).
      apply IH in H as (a2 & H2). exists (a1 ++ a2).
      eapply pass_steps_trans; eauto.
    + by rewrite foldl_expand_struct_None.
Qed.

(** The for loop of a pass: its attempts are logged, and its accepted
    structures are exactly the attempts that beat a pool member. *)
Lemma expand_pool_steps self grid types st st1 :
  expand_pool B self grid types st = Some st1 →
  ∃ attempts,
    best_structs st1 = best_structs st
    ∧ visited_structs st1 = visited_structs st ++ attempts
    ∧ entry_key <$> new_best_structs st1
      = visit_key <$> accepted (best_structs st) attempts
    ∧ found_new_best_struct st1
      = bool_decide (new_best_structs st1 ≠ [])
    ∧ (attempts ≠ [] → is_Some (xyz_new st1)).
Proof.
  unfold expand_pool. intros H.
  apply foldl_expand_struct_steps in H as (attempts & [Hb Hv Hn Hf Hx]).
  simpl in *. exists attempts. repeat split; auto.
  - rewrite Hf.
    assert (length (new_best_structs st1)
            = length (accepted (best_structs st) attempts)) as Hl.
    { rewrite <- (length_fmap entry_key), Hn, length_fmap. done. }
    destruct (new_best_structs st1), (accepted _ _); simpl in *; done.
  - intros Hne. rewrite Hx. destruct (last attempts) eqn:E; [by eexists|].
    apply last_None in E. done.
Qed.

(** The attempts that the code makes are those of the description. *)
Lemma try_expansion_spec self grid types st s xyz_add c_add st' acc :
  try_expansion B self grid types st (s_id s) (s_xyz s ++ xyz_add)
    (s_c s ++ c_add) = Some (st', acc) →
  ∃ v, spec_expansion B self grid types s xyz_add c_add = Some v
       ∧ pass_steps st st' [v]
       ∧ acc = is_new_best (v_objective v) (best_structs st)
       ∧ expanded_ids st' = expanded_ids st.
Proof.
  unfold try_expansion, spec_expansion, make_objective.
  destruct (fit_gd _ _ _ _ _ _) as [[[[x gp] gd] fl]|]; simpl; [|done].
  match goal with |- context [is_new_best ?o ?b] =>
    set (o' := o) in *; destruct (is_new_best o' b) eqn:Hacc end.
  - destruct (detect_atoms _ _ _ _ _ _ _) as [[xn cn]|]; simpl; [|done].
    intros [= <- <-]. eexists. split; [reflexivity|]. simpl.
    split; [|done]. split; simpl; auto.
    + unfold accepted. rewrite filter_cons. simpl.
      rewrite decide_True by done. by rewrite fmap_app.
    + unfold accepted. rewrite filter_cons. simpl.
      rewrite decide_True by done. by rewrite orb_true_r.
  - intros [= <- <-]. eexists. split; [reflexivity|]. simpl.
    split; [|done]. split; simpl; auto.
    + unfold accepted. rewrite filter_cons. simpl.
      rewrite decide_False by congruence. by rewrite app_nil_r.
    + unfold accepted. rewrite filter_cons. simpl.
      rewrite decide_False by congruence. by rewrite orb_false_r.
Qed.

Lemma expand_single_spec self grid types s : ∀ nexts st st',
  foldl (λ st next,
           st ← st;
           fst <$> try_expansion B self grid types st (s_id s)
                     (s_xyz s ++ [next.1]) (s_c s ++ [next.2]))
        (Some st) nexts = Some st' →
  ∃ attempts,
    mapM (λ next, spec_expansion B self grid types s [next.1] [next.2])
      nexts = Some attempts
    ∧ pass_steps st st' attempts
    ∧ expanded_ids st' = expanded_ids st.
Proof.
  induction nexts as [|next nexts IH]; intros st st'; cbn [foldl].
  - intros [= <-]. exists []. split; [done|].
    split; [apply pass_steps_refl|done].
  - simpl.
    destruct (try_expansion _ _ _ _ _ _ _ _) as [[st1 acc]|] eqn:Ht; simpl.
    + intros H. apply try_expansion_spec in Ht as (v & Hs & Hv & _ & He).
      apply IH in H as (attempts & Hm & Ha & He').
      exists (v :: attempts). split; [by rewrite Hs; simpl; rewrite Hm|].
      split; [|congruence].
      apply (pass_steps_trans st st1 st' [v] attempts); done.
    + intros H. exfalso. revert H. clear.
      induction nexts; simpl; [done|auto].
Qed.

Lemma expand_struct_spec self grid types st s st' :
  expand_struct B self grid types (Some st) s = Some st' →
  s_id s ∉ expanded_ids st →
  ∃ attempts,
    spec_struct_attempts B self grid types (best_structs st) s
      = Some attempts
    ∧ pass_steps st st' attempts
    ∧ expanded_ids st' = {[ s_id s ]} ∪ expanded_ids st.
Proof.
  unfold expand_struct, spec_struct_attempts. simpl. intros H Hnot.
  rewrite decide_False in H by done.
  assert (∀ st1 a1,
    pass_steps st st1 a1 → expanded_ids st1 = expanded_ids st →
    expand_single B self grid types s st1
      ≫= (λ st,
       Some {| best_structs := best_structs st;
               new_best_structs := new_best_structs st;
               found_new_best_struct := found_new_best_struct st;
               expanded_ids := {[s_id s]} ∪ expanded_ids st;
               visited_structs := visited_structs st;
               struct_count := struct_count st;
               xyz_new := xyz_new st |}) = Some st' →
    ∃ a2,
      mapM (λ next, spec_expansion B self grid types s [next.1] [next.2])
        (zip (s_xyz_next s) (s_c_next s)) = Some a2
      ∧ pass_steps st st' (a1 ++ a2)
      ∧ expanded_ids st' = {[ s_id s ]} ∪ expanded_ids st) as Hsingle.
  { intros st1 a1 H1 He1 Hq.
    destruct (expand_single B self grid types s st1) as [st2|] eqn:Hs;
      simpl in Hq; [|done].
    apply expand_single_spec in Hs as (a2 & Hm & H2 & He2).
    injection Hq as <-. exists a2. split; [done|].
    pose proof (pass_steps_trans _ _ _ _ _ H1 H2) as [? ? ? ? ?].
    split; [split; simpl; auto|]. simpl. congruence. }
  destruct (multi_atom self).
  - destruct (try_expansion _ _ _ _ _ _ _ _) as [[st1 acc]|] eqn:Ht;
      simpl in H; [|done].
    apply try_expansion_spec in Ht as (v & Hs & Hv & Hacc & He).
    rewrite Hs. simpl. rewrite <- Hacc. destruct acc; simpl in H.
    + injection H as <-. exists [v]. split; [done|].
      destruct Hv as [? ? ? ? ?]. split; [split; simpl; auto|].
      simpl. congruence.
    + destruct (Hsingle st1 [v] Hv He H) as (a2 & -> & Hp & He').
      exists (v :: a2). done.
  - simpl in H.
    destruct (Hsingle st [] (pass_steps_refl st) eq_refl H)
      as (a2 & -> & Hp & He').
    exists a2. done.
Qed.

Lemma foldl_expand_struct_spec self grid types pool : ∀ l st st',
  best_structs st = pool →
  foldl (expand_struct B self grid types) (Some st) l = Some st' →
  ∃ attempts,
    spec_pass_attempts B self grid types pool (expanded_ids st) l
      = Some attempts
    ∧ pass_steps st st' attempts.
Proof.
  induction l as [|s l IH]; intros st st' Hpool; cbn [foldl].
  - intros [= <-]. exists []. split; [done|apply pass_steps_refl].
  - destruct (expand_struct B self grid types (Some st) s) as [st1|] eqn:H1.
    2: { by rewrite foldl_expand_struct_None. }
    intros H. simpl.
    destruct (decide (s_id s ∈ expanded_ids st)) as [Hin|Hnot].
    + assert (st1 = st) as ->.
      { revert H1. unfold expand_struct. simpl.
        rewrite decide_True by done. congruence. }
      by apply IH.
    + apply expand_struct_spec in H1 as (a1 & Hs & Hp1 & He1); [|done].
      destruct (IH st1 st') as (a2 & Hm & Hp2); [|done|].
      { destruct Hp1 as [-> _ _ _ _]. done. }
      rewrite Hpool in Hs. rewrite Hs. simpl.
      rewrite He1 in Hm. rewrite Hm. simpl.
      exists (a1 ++ a2). split; [done|].
      eapply pass_steps_trans; eauto.
Qed.

(** The for loop of a pass makes the attempts of the description, logs
    them, and accepts exactly those that beat a pool member. *)
Lemma expand_pool_spec self grid types st st1 :
  expand_pool B self grid types st = Some st1 →
  ∃ attempts,
    spec_pass_attempts B self grid types (best_structs st) (expanded_ids st)
      (best_structs st) = Some attempts
    ∧ best_structs st1 = best_structs st
    ∧ visited_structs st1 = visited_structs st ++ attempts
    ∧ entry_key <$> new_best_structs st1
      = visit_key <$> accepted (best_structs st) attempts
    ∧ found_new_best_struct st1
      = bool_decide (accepted (best_structs st) attempts ≠ [])
    ∧ (attempts ≠ [] → is_Some (xyz_new st1)).
Proof.
  unfold expand_pool. intros H.
  apply (foldl_expand_struct_spec _ _ _ (best_structs st)) in H
    as (attempts & Hspec & [Hb Hv Hn Hf Hx]); [|done].
  simpl in *. exists attempts. repeat split; auto.
  intros Hne. rewrite Hx. destruct (last attempts) eqn:E; [by eexists|].
  apply last_None in E. done.
Qed.

End PassFacts.

Lemma Qminus_0_r_eq (x : Q) : (x - 0)%Q = x.
Proof.
  destruct x as [n d]. unfold Qminus, Qplus, Qopp. simpl.
  by rewrite Z.mul_1_r, Z.add_0_r, Pos.mul_1_r.
Qed.

Lemma tsub_zero_flat (g : tensor4) :
  flat (tsub g {| n_channels := n_channels g; grid_dim := grid_dim g;
                  flat := replicate (length (flat g)) 0%Q |}) = flat g.
Proof.
  simpl. induction (flat g) as [|x l IH]; simpl; [done|].
  by rewrite Qminus_0_r_eq, IH.
Qed.

Section FitTheorems.

Context (B : Backend).

(** C3, as amended: the initial, empty structure is given the loss of the
    whole target against no density as its fit loss: the sum of the
    absolute target values under [fit_L1_loss], and half the sum of their
    squares otherwise (not the Euclidean norm); with [constrain_types]
    the objective pairs it with the sum of the absolute type counts as
    its first component, which takes precedence in every comparison. *)
Theorem initial_objective_magnitude self grid types :
  0 < n_channels (values grid) →
  n_channels (values grid) ≤ length (channels grid) →
  (constrain_types self = true →
   n_channels (values grid) ≤ length (fit_types B self grid types)) →
  let fit_loss :=
    (if fit_L1_loss self then Qsum (Qabs <$> flat (values grid))
     else Qsum (Qsq <$> flat (values grid)) / 2)%Q in
  let type_loss := Qsum (Qabs <$> fit_types B self grid types) in
  ∃ st e0,
    fit_init B self grid types = Some st
    ∧ best_structs st = [e0]
    ∧ s_id e0 = 0 ∧ s_xyz e0 = [] ∧ s_c e0 = []
    ∧ s_objective e0
      = (if constrain_types self then TypeFit type_loss fit_loss
         else Fit fit_loss)
    ∧ fit_loss
      = loss_of self
          (tsub (values grid)
             {| n_channels := n_channels (values grid);
                grid_dim := grid_dim (values grid);
                flat := replicate (length (flat (values grid))) 0%Q |})
    ∧ ∀ t f,
        obj_ltb (if constrain_types self then TypeFit t f else Fit f)
          (s_objective e0) = true
        ↔ if constrain_types self
          then (t < type_loss)%Q ∨ (t == type_loss ∧ f < fit_loss)%Q
          else (f < fit_loss)%Q.
Proof.
  intros Hnc Hch Hty fit_loss type_loss.
  destruct (surviving_atoms_spec B self (values grid) (channels grid)
              (center grid) (resolution grid) (fit_types B self grid types)
              Hnc Hch Hty)
    as (_ & survivors & _ & _ & Hsurv & _ & Hac).
  destruct (detect_atoms_of_survivors B _ _ _ _ _ _ _ Hnc Hsurv Hac)
    as (c_next & Hd & _).
  unfold fit_init. rewrite Hd. simpl.
  eexists _, _. split; [reflexivity|]. split; [reflexivity|]. simpl.
  split; [done|]. split; [done|]. split; [done|].
  split.
  { unfold initial_objective, make_objective, initial_fit_loss.
    by destruct (constrain_types self), (fit_L1_loss self). }
  split.
  { unfold loss_of, L1_loss, L2_loss. by rewrite tsub_zero_flat. }
  intros t f. unfold initial_objective, make_objective.
  fold type_loss.
  replace (initial_fit_loss self grid) with fit_loss by reflexivity.
  unfold obj_ltb.
  destruct (constrain_types self).
  - rewrite <- (obj_compare_Lt (TypeFit t f) (TypeFit type_loss fit_loss)).
    destruct (obj_compare _ _); split; congruence.
  - rewrite <- (obj_compare_Lt (Fit f) (Fit fit_loss)).
    destruct (obj_compare _ _); split; congruence.
Qed.

(** C1: a pass of the search loop makes the expansion attempts of the
    description and logs them; an expansion is accepted exactly when its
    objective is less than the objective of some pool member; when at
    least one is accepted, the new pool is the pool and the accepted
    structures together, sorted ascending and cut to [beam_size], and the
    objective of its best structure is at most that of every structure of
    the old pool; when none is accepted, the pool stays as it is and the
    loop flag is cleared. *)
Theorem accepted_pass_merges_pool self grid types st st1 :
  expand_pool B self grid types st = Some st1 →
  ∃ attempts,
    spec_pass_attempts B self grid types (best_structs st) (expanded_ids st)
      (best_structs st) = Some attempts
    ∧ visited_structs st1 = visited_structs st ++ attempts
    ∧ entry_key <$> new_best_structs st1
      = visit_key <$> accepted (best_structs st) attempts
    ∧ (∀ o, is_new_best o (best_structs st) = true
            ↔ ∃ s, s ∈ best_structs st ∧ obj_lt o (s_objective s))
    ∧ (new_best_structs st1 = [] →
       found_new_best_struct st1 = false
       ∧ select_best self st1 = Some st1
       ∧ best_structs st1 = best_structs st)
    ∧ (new_best_structs st1 ≠ [] →
       found_new_best_struct st1 = true
       ∧ ((1 ≤ beam_size self)%Z → is_Some (select_best self st1))
       ∧ ∀ st2, select_best self st1 = Some st2 →
           let merged := sorted (best_structs st ++ new_best_structs st1) in
           merged ≡ₚ best_structs st ++ new_best_structs st1
           ∧ StronglySorted struct_le merged
           ∧ best_structs st2 = slice_to (beam_size self) merged
           ∧ ((0 ≤ beam_size self)%Z →
              best_structs st2 = take (Z.to_nat (beam_size self)) merged)
           ∧ ∀ e2 e, head (best_structs st2) = Some e2 →
                     e ∈ best_structs st →
                     obj_le (s_objective e2) (s_objective e)).
Proof.
  intros H. apply expand_pool_spec in H
    as (attempts & Hspec & Hb & Hv & Hn & Hf & Hx).
  exists attempts. split; [done|]. split; [done|]. split; [done|].
  split; [intros o; apply is_new_best_spec|].
  assert (length (new_best_structs st1)
          = length (accepted (best_structs st) attempts)) as Hlen.
  { rewrite <- (length_fmap entry_key), Hn, length_fmap. done. }
  split.
  { intros Hnil.
    assert (found_new_best_struct st1 = false) as Hfound.
    { rewrite Hf. apply bool_decide_eq_false_2. intros Hne. apply Hne.
      rewrite Hnil in Hlen. simpl in Hlen.
      destruct (accepted _ _); done. }
    split; [done|]. split; [|done].
    unfold select_best. by rewrite Hfound. }
  intros Hne.
  assert (found_new_best_struct st1 = true) as Hfound.
  { rewrite Hf. apply bool_decide_eq_true_2.
    destruct (new_best_structs st1), (accepted _ _); done. }
  destruct (sorted_spec (best_structs st ++ new_best_structs st1))
    as [Hss Hperm].
  assert (sorted (best_structs st1 ++ new_best_structs st1) ≠ []) as Hmne.
  { rewrite Hb. intros E. rewrite E in Hperm.
    apply Permutation_nil_l in Hperm. symmetry in Hperm.
    apply app_eq_nil in Hperm as [_ ?]. done. }
  assert (is_Some (xyz_new st1)) as [last_xyz Hlast].
  { apply Hx. intros ->. unfold accepted in Hn. simpl in Hn.
    destruct (new_best_structs st1); done. }
  split; [done|]. split.
  - intros Hbeam. unfold select_best. rewrite Hfound.
    destruct (head_slice_to_is_Some (beam_size self) _ Hbeam Hmne)
      as [e0 ->]. simpl. rewrite Hlast. simpl. by eexists.
  - intros st2. unfold select_best. rewrite Hfound, Hb.
    destruct (head (slice_to _ _)) as [e0|] eqn:Hhead; simpl; [|done].
    rewrite Hlast. simpl. intros [= <-]. simpl.
    split; [done|]. split; [done|]. split; [done|].
    split.
    { intros Hb0. unfold slice_to. by rewrite bool_decide_eq_true_2. }
    intros e2 e He2 He. rewrite Hhead in He2. injection He2 as ->.
    apply head_slice_to in Hhead.
    destruct (sorted (best_structs st ++ new_best_structs st1))
      as [|m rest] eqn:Hm; [done|].
    simpl in Hhead. injection Hhead as ->.
    apply StronglySorted_inv in Hss as [_ Hall].
    assert (e ∈ e2 :: rest) as Hin.
    { rewrite Hperm. apply elem_of_app. by left. }
    apply struct_le_obj_le.
    apply elem_of_cons in Hin as [->|Hin].
    + destruct (struct_le_total e2 e2); done.
    + rewrite Forall_forall in Hall. by apply Hall.
Qed.

End FitTheorems.


(** ** Facts about [argsort] and label histograms *)

Lemma mapM_Permutation {A C} (f : A → option C) (l l' : list A) :
  l ≡ₚ l' → ∀ k, mapM f l = Some k → ∃ k', mapM f l' = Some k' ∧ k ≡ₚ k'.
Proof.
  induction 1 as [|x l l' _ IH|x y l|l1 l2 l3 _ IH1 _ IH2]; intros k Hk.
  - exists k. done.
  - simpl in *. destruct (f x) as [y|]; simpl in *; [|done].
    destruct (mapM f l) as [k0|]; simpl in *; [|done].
    injection Hk as <-. destruct (IH k0 eq_refl) as (k' & -> & Hp).
    simpl. eexists. split; [done|]. by constructor.
  - simpl in *. destruct (f y) as [y'|]; simpl in *; [|done].
    destruct (f x) as [x'|]; simpl in *; [|done].
    destruct (mapM f l) as [k0|]; simpl in *; [|done].
    injection Hk as <-. eexists. split; [done|]. apply perm_swap.
  - destruct (IH1 k Hk) as (k1 & H1 & P1).
    destruct (IH2 k1 H1) as (k2 & H2 & P2).
    exists k2. split; [done|]. by etrans.
Qed.

Lemma mapM_fetch_zip_seq {A} (t : list A) (c : list nat) : ∀ t0,
  length t = length c →
  mapM (fetch (t0 ++ t)) (zip c (seq (length t0) (length c)))
  = Some (zip t c).
Proof.
  revert c. induction t as [|y t IH]; intros [|x c] t0 Hl; simpl in *;
    try done.
  unfold fetch in *. simpl.
  rewrite list_lookup_middle by done. simpl.
  specialize (IH c (t0 ++ [y])). rewrite length_app in IH. simpl in IH.
  rewrite <- app_assoc in IH. simpl in IH.
  replace (length t0 + 1) with (S (length t0)) in IH by lia.
  rewrite IH by lia. done.
Qed.

Lemma mapM_fetch_split {A} (t : list A) (ps : list (nat * nat)) k :
  mapM (fetch t) ps = Some k →
  gather t ps.*2 = Some k.*1 ∧ k.*2 = ps.*1.
Proof.
  intros H. apply mapM_Some_1 in H. split.
  - apply mapM_Some_2, Forall2_fmap.
    eapply Forall2_impl; [exact H|]. intros p y Hf. unfold fetch in Hf.
    destruct (t !! p.2); simplify_eq/=. done.
  - induction H as [|p y ps k Hf _ IH]; [done|].
    rewrite !fmap_cons, IH. f_equal. unfold fetch in Hf.
    destruct (t !! p.2); simplify_eq/=. done.
Qed.

Global Instance by_label_trans : Transitive by_label.
Proof. intros a b c. unfold by_label. lia. Qed.

Global Instance by_label_total : Total by_label.
Proof. intros a b. unfold by_label. lia. Qed.

Lemma sorted_labels_sorted c : StronglySorted le (sorted_labels c).
Proof.
  apply (StronglySorted_fmap _ by_label); [done|].
  apply StronglySorted_merge_sort; apply _.
Qed.

Lemma sorted_labels_Permutation c : sorted_labels c ≡ₚ c.
Proof.
  unfold sorted_labels. rewrite merge_sort_Permutation.
  rewrite fst_zip; [done|]. rewrite length_seq. lia.
Qed.

(** [t[np.argsort(c)]] exists when [t] is as long as [c], and carries the
    same labelled points as [t]. *)
Lemma gather_argsort {A} (t : list A) (c : list nat) :
  length t = length c →
  ∃ T, gather t (argsort c) = Some T
       ∧ zip T (sorted_labels c) ≡ₚ zip t c
       ∧ length T = length c.
Proof.
  intros Hl.
  pose proof (mapM_fetch_zip_seq t c [] Hl) as H0. simpl in H0.
  destruct (mapM_Permutation (fetch t) _
              (merge_sort by_label (zip c (seq 0 (length c))))
              (symmetry (merge_sort_Permutation _ _)) _ H0)
    as (k & Hk & Hp).
  apply mapM_fetch_split in Hk as [Hg Hk2].
  exists k.*1. split; [exact Hg|].
  unfold sorted_labels. rewrite <- Hk2.
  rewrite zip_fst_snd. split; [done|].
  rewrite length_fmap. apply Permutation_length in Hp.
  rewrite <- Hp, length_zip. lia.
Qed.

Lemma gather_argsort_labels (c : list nat) :
  gather c (argsort c) = Some (sorted_labels c).
Proof.
  destruct (gather_argsort c c eq_refl) as (T & Hg & Hp & Hl).
  rewrite Hg. f_equal.
  assert (Forall (λ p : nat * nat, p.1 = p.2) (zip T (sorted_labels c))) as HF.
  { rewrite Hp. clear. induction c; simpl; constructor; auto. }
  assert (length (sorted_labels c) = length c) as Hl'.
  { by rewrite sorted_labels_Permutation. }
  revert HF. generalize (sorted_labels c) Hl'. rewrite <- Hl. clear.
  induction T as [|x T IH]; intros [|y s] Hl HF; simpl in *; try done.
  apply Forall_cons in HF as [Hxy HF]. simpl in Hxy. subst y.
  f_equal. apply IH; [lia|done].
Qed.

Lemma count_type_count_occ k c : count_type k c = count_occ Nat.eq_dec c k.
Proof.
  unfold count_type. induction c as [|x c IH]; simpl; [done|].
  rewrite filter_cons. destruct (Nat.eq_dec x k), (decide (x = k));
    simpl; try done; by rewrite IH.
Qed.

Lemma same_histogram_Permutation c1 c2 :
  (∀ k, count_type k c1 = count_type k c2) ↔ c1 ≡ₚ c2.
Proof.
  rewrite (Permutation_count_occ Nat.eq_dec).
  split; intros H k; specialize (H k);
    by rewrite ?count_type_count_occ in *.
Qed.

Lemma sorted_labels_eq_iff c1 c2 :
  sorted_labels c1 = sorted_labels c2 ↔ c1 ≡ₚ c2.
Proof.
  split.
  - intros H. rewrite <- (sorted_labels_Permutation c1), H.
    apply sorted_labels_Permutation.
  - intros H. apply (StronglySorted_unique le).
    + apply sorted_labels_sorted.
    + apply sorted_labels_sorted.
    + by rewrite !sorted_labels_Permutation.
Qed.

(** [any(c1 != c2)] on arrays of one length. *)
Lemma any_differ_false (s1 s2 : list nat) :
  length s1 = length s2 →
  existsb id (zip_with (λ a b, bool_decide (a ≠ b)) s1 s2) = false
  ↔ s1 = s2.
Proof.
  revert s2. induction s1 as [|x s1 IH]; intros [|y s2] Hl; simpl in *;
    try done.
  rewrite orb_false_iff, IH by lia. unfold id.
  rewrite bool_decide_eq_false. split.
  - intros [Hxy ->]. f_equal. by destruct (decide (x = y)).
  - intros [= -> ->]. split; [|done]. by intros ?.
Qed.

(** ** Assignment costs *)

Lemma Qsum_Permutation (l l' : list Q) : l ≡ₚ l' → (Qsum l == Qsum l')%Q.
Proof.
  induction 1 as [|x l l' _ IH|x y l|l1 l2 l3 _ IH1 _ IH2]; simpl.
  - reflexivity.
  - by rewrite IH.
  - ring.
  - by rewrite IH1.
Qed.

Lemma Qsum_nonneg (l : list Q) : Forall (λ x, 0 <= x)%Q l → (0 <= Qsum l)%Q.
Proof.
  induction 1 as [|x l Hx _ IH]; simpl; [apply Qle_refl|]. lra.
Qed.

Lemma Qsq_nonneg x : (0 <= Qsq x)%Q.
Proof. unfold Qsq. nra. Qed.

Lemma sqdist_nonneg p q : (0 <= sqdist p q)%Q.
Proof.
  destruct p as [[px py] pz], q as [[qx qy] qz]. unfold sqdist. simpl.
  pose proof (Qsq_nonneg (px - qx)). pose proof (Qsq_nonneg (py - qy)).
  pose proof (Qsq_nonneg (pz - qz)). lra.
Qed.

Lemma sqdist_self p : (sqdist p p == 0)%Q.
Proof.
  destruct p as [[px py] pz]. unfold sqdist, Qsq. simpl. ring.
Qed.

Lemma zip_with_uncurry {A C D} (f : A → C → D) l k :
  zip_with f l k = uncurry f <$> zip l k.
Proof.
  revert k. induction l as [|x l IH]; intros [|y k]; simpl; try done.
  by rewrite IH.
Qed.

Lemma pair_cost_nonneg ps qs : (0 <= pair_cost ps qs)%Q.
Proof.
  apply Qsum_nonneg. revert qs.
  induction ps as [|p ps IH]; intros [|q qs]; simpl; constructor; auto.
  apply sqdist_nonneg.
Qed.

Lemma pair_cost_self ps : (pair_cost ps ps == 0)%Q.
Proof.
  unfold pair_cost. induction ps as [|p ps IH]; simpl; [reflexivity|].
  rewrite IH, sqdist_self. ring.
Qed.

(** Reordering the first list of a pairing is matched by a reordering of
    the second. *)
Lemma zip_Permutation_l {A C} (ps ps' : list A) (qs1 : list C) :
  ps ≡ₚ ps' → length ps = length qs1 →
  ∃ qs2, qs2 ≡ₚ qs1 ∧ zip ps' qs2 ≡ₚ zip ps qs1.
Proof.
  intros HP Hl.
  assert (Forall2 (λ p (pq : A * C), pq.1 = p) ps (zip ps qs1)) as HF.
  { apply Forall2_same_length_lookup_2; [rewrite length_zip; lia|].
    intros i x [a b] Hx Hy. apply lookup_zip_Some in Hy as [Ha _].
    simpl. congruence. }
  destruct (Permutation_Forall2 HP HF) as (zs & HZ & HF').
  exists zs.*2. split.
  - rewrite <- HZ. rewrite snd_zip; [done|lia].
  - assert (zs.*1 = ps') as <-.
    { clear -HF'. induction HF' as [|p pq ps' zs Hp _ IH]; [done|].
      rewrite fmap_cons. by f_equal. }
    by rewrite zip_fst_snd.
Qed.

Lemma min_cost_le ps ps' qs qs' v v' :
  ps ≡ₚ ps' → qs ≡ₚ qs' → length ps = length qs →
  min_cost ps qs v → min_cost ps' qs' v' → (v <= v')%Q.
Proof.
  intros HP HQ Hl [_ Hmin] [(qs1' & HQ1 & ->) _].
  destruct (zip_Permutation_l ps' ps qs1') as (qs2 & HQ2 & Hz).
  { by symmetry. }
  { rewrite HQ1, <- HQ, <- HP. done. }
  assert (pair_cost ps qs2 == pair_cost ps' qs1')%Q as <-.
  { unfold pair_cost.
    rewrite (zip_with_uncurry sqdist ps qs2),
      (zip_with_uncurry sqdist ps' qs1').
    apply Qsum_Permutation. by apply fmap_Permutation. }
  apply Hmin. by rewrite HQ2, HQ1.
Qed.

Lemma min_cost_Permutation ps ps' qs qs' v v' :
  ps ≡ₚ ps' → qs ≡ₚ qs' → length ps = length qs →
  min_cost ps qs v → min_cost ps' qs' v' → (v == v')%Q.
Proof.
  intros HP HQ Hl H H'. apply Qle_antisym.
  - by apply (min_cost_le ps ps' qs qs').
  - apply (min_cost_le ps' ps qs' qs); try done.
    by rewrite <- HP, <- HQ.
Qed.

Lemma min_cost_self ps qs v : ps ≡ₚ qs → min_cost ps qs v → (v == 0)%Q.
Proof.
  intros Hp [(qs' & _ & ->) Hmin]. apply Qle_antisym.
  - rewrite <- (pair_cost_self ps). by apply Hmin.
  - apply pair_cost_nonneg.
Qed.

(** ** The cost computed for one type *)

Lemma class_points_filter c xyz s :
  length xyz = length s →
  class_points c xyz s = (filter (λ p : vec3 * nat, p.2 = c) (zip xyz s)).*1.
Proof.
  unfold class_points, mask_select. revert s.
  induction xyz as [|p xyz IH]; intros [|x s] Hl; simpl in *; try done.
  rewrite !filter_cons. simpl.
  destruct (decide (x = c)) as [->|Hne].
  - rewrite bool_decide_eq_true_2 by done. rewrite decide_True by done.
    rewrite !fmap_cons. f_equal. apply IH. lia.
  - rewrite bool_decide_eq_false_2 by done. rewrite decide_False by done.
    apply IH. lia.
Qed.

Lemma class_points_length c xyz s :
  length xyz = length s → length (class_points c xyz s) = count_type c s.
Proof.
  intros Hl. rewrite class_points_filter by done. rewrite length_fmap.
  unfold count_type. revert s Hl.
  induction xyz as [|p xyz IH]; intros [|x s] Hl; simpl in *; try done.
  rewrite !filter_cons. simpl.
  destruct (decide (x = c)); simpl; rewrite IH by lia; done.
Qed.

Lemma class_points_Permutation c xyz s (atoms : list (vec3 * nat)) :
  length xyz = length s → zip xyz s ≡ₚ atoms →
  class_points c xyz s ≡ₚ (filter (λ p : vec3 * nat, p.2 = c) atoms).*1.
Proof.
  intros Hl Hp. rewrite class_points_filter by done. by rewrite Hp.
Qed.

Lemma gather_seq {A} (qs : list A) : gather qs (seq 0 (length qs)) = Some qs.
Proof.
  apply mapM_Some_2, Forall2_same_length_lookup_2; [by rewrite length_seq|].
  intros i j y Hj Hy. apply lookup_seq in Hj as [-> _]. done.
Qed.

Lemma gather_Permutation {A} (qs : list A) cols :
  cols ≡ₚ seq 0 (length qs) →
  ∃ qc, gather qs cols = Some qc ∧ qc ≡ₚ qs.
Proof.
  intros Hc.
  destruct (mapM_Permutation (λ i, qs !! i) _ _ (symmetry Hc) _ (gather_seq qs))
    as (qc & Hg & Hp).
  exists qc. split; [done|]. by symmetry.
Qed.

Lemma Permutation_gather {A} (qs qs' : list A) :
  qs' ≡ₚ qs →
  ∃ cols, cols ≡ₚ seq 0 (length qs) ∧ gather qs cols = Some qs'.
Proof.
  intros Hp.
  pose proof (mapM_Some_1 _ _ _ (gather_seq qs)) as HF.
  apply Forall2_flip in HF.
  destruct (Permutation_Forall2 (symmetry Hp) HF) as (cols & Hc & HF').
  exists cols. split; [by symmetry|].
  apply mapM_Some_2, Forall2_flip. exact HF'.
Qed.

Lemma index_pairs_outer (ps qs : list vec3) cols qc :
  length cols = length ps → gather qs cols = Some qc →
  index_pairs (outer sqdist ps qs) (seq 0 (length ps)) cols
  = Some (zip_with sqdist ps qc).
Proof.
  intros Hl Hg. pose proof (length_mapM _ _ _ Hg) as Hlq.
  apply mapM_Some_2, Forall2_same_length_lookup_2.
  { rewrite length_zip, length_zip_with, length_seq. lia. }
  intros i [i' j] y Hij Hy.
  apply lookup_zip_Some in Hij as [Hi Hj]. simpl in *.
  apply lookup_seq in Hi as [-> _]. simpl.
  apply lookup_zip_with_Some in Hy as (p & q & -> & Hp & Hq).
  unfold outer. rewrite list_lookup_fmap, Hp. simpl.
  rewrite list_lookup_fmap.
  rewrite <- (gather_lookup _ _ _ _ _ Hg Hj), Hq. done.
Qed.

Lemma foldl_Qplus_proper (k k' : list Q) : ∀ a a' : Q,
  Forall2 Qeq k k' → (a == a')%Q →
  (foldl Qplus a k == foldl Qplus a' k')%Q.
Proof.
  intros a a' H. revert a a'.
  induction H as [|x y k k' Hxy _ IH]; intros a a' Ha; simpl; [done|].
  apply IH. by rewrite Ha, Hxy.
Qed.

Lemma foldl_Qplus_zero (k : list Q) :
  Forall (λ v, v == 0)%Q k → (foldl Qplus 0 k == 0)%Q.
Proof.
  intros H. assert (∀ a : Q, (a == 0 → foldl Qplus a k == 0)%Q) as Hg.
  { induction H as [|x k Hx _ IH]; intros a Ha; simpl; [done|].
    apply IH. rewrite Ha, Hx. ring. }
  by apply Hg.
Qed.

Lemma Forall2_join_l {A} (R R' : A → Q → Prop) l k k' :
  Forall2 R l k → Forall2 R' l k' →
  (∀ c v v', c ∈ l → R c v → R' c v' → (v == v')%Q) →
  Forall2 Qeq k k'.
Proof.
  intros H. revert k'.
  induction H as [|c v l k Hc _ IH]; intros k' H' Huniq.
  - by apply Forall2_nil_inv_l in H' as ->.
  - apply Forall2_cons_inv_l in H' as (v' & k0 & Hc' & H' & ->).
    constructor.
    + eapply Huniq; eauto. by left.
    + apply IH; [done|]. intros ? ? ? ?. apply Huniq. by right.
Qed.

Lemma count_type_not_elem k c : k ∉ c → count_type k c = 0.
Proof.
  unfold count_type. induction c as [|x c IH]; intros Hk; [done|].
  apply not_elem_of_cons in Hk as [Hne Hk].
  rewrite filter_cons, decide_False by done. by apply IH.
Qed.

Lemma same_histogram_dec c1 c2 :
  {∀ k, count_type k c1 = count_type k c2}
  + {∃ k, count_type k c1 ≠ count_type k c2}.
Proof.
  destruct (decide (Forall (λ k, count_type k c1 = count_type k c2)
                      (c1 ++ c2))) as [HF|HF].
  - left. intros k. destruct (decide (k ∈ c1 ++ c2)) as [Hin|Hin].
    + rewrite Forall_forall in HF. by apply HF.
    + apply not_elem_of_app in Hin as [H1 H2].
      by rewrite !count_type_not_elem.
  - right. apply not_Forall_Exists in HF; [|apply _].
    apply Exists_exists in HF as (k & _ & Hk). by exists k.
Qed.

Lemma mapM_result_Return {A C} (f : A → result C) (l : list A) k :
  mapM_result f l = Return k ↔ Forall2 (λ x y, f x = Return y) l k.
Proof.
  revert k. induction l as [|x l IH]; intros k; simpl.
  - split; [intros [= <-]; constructor|].
    intros H. by apply Forall2_nil_inv_l in H as ->.
  - destruct (f x) as [e|y] eqn:Hx; simpl.
    + split; [done|]. intros H.
      apply Forall2_cons_inv_l in H as (? & ? & ? & _ & _). congruence.
    + destruct (mapM_result f l) as [e|k0] eqn:Hl; simpl.
      * split; [done|]. intros H.
        apply Forall2_cons_inv_l in H as (y' & k' & _ & H & _).
        apply IH in H. done.
      * split.
        -- intros [= <-]. constructor; [done|]. by apply IH.
        -- intros H.
           apply Forall2_cons_inv_l in H as (y' & k' & Hy & H & ->).
           apply IH in H. congruence.
Qed.

Lemma mapM_result_is_Return {A C} (f : A → result C) (l : list A) :
  Forall (λ x, ∃ y, f x = Return y) l → ∃ k, mapM_result f l = Return k.
Proof.
  induction 1 as [|x l [y Hy] _ [k Hk]]; simpl; [by eexists|].
  rewrite Hy, Hk. simpl. by eexists.
Qed.

Lemma mapM_result_Raise {A C} (f : A → result C) (l : list A) e :
  mapM_result f l = Raise e → ∃ x, x ∈ l ∧ f x = Raise e.
Proof.
  induction l as [|x l IH]; simpl; [done|].
  destruct (f x) as [e'|y] eqn:Hx; simpl.
  - intros [= ->]. exists x. split; [by left|done].
  - destruct (mapM_result f l) as [e'|k] eqn:Hl; simpl; [|done].
    intros [= ->]. destruct (IH eq_refl) as (x' & Hin & Hx').
    exists x'. split; [by right|done].
Qed.

Section MinRmsdFacts.

Variable lsa : list (list Q) → result (list nat * list nat).
Variable np_sqrt : Q → Q.
Hypothesis lsa_ok : lsa_optimal lsa.

Lemma type_ssd_min_cost xyz1 s1 xyz2 s2 c :
  length xyz1 = length s1 → length xyz2 = length s2 →
  count_type c s1 = count_type c s2 →
  ∃ v, type_ssd lsa xyz1 s1 xyz2 s2 c = Return v
       ∧ min_cost (class_points c xyz1 s1) (class_points c xyz2 s2) v.
Proof.
  intros Hl1 Hl2 Hcount. unfold type_ssd.
  fold (class_points c xyz1 s1). fold (class_points c xyz2 s2).
  set (ps := class_points c xyz1 s1). set (qs := class_points c xyz2 s2).
  assert (length ps = length qs) as Hpq.
  { subst ps qs. rewrite !class_points_length by done. done. }
  set (m := outer sqdist ps qs).
  destruct (lsa_ok m (length ps)) as (idx1 & idx2 & Hlsa & Hrows & Hcols & Hmin).
  { subst m. unfold outer. by rewrite length_fmap. }
  { subst m. unfold outer. apply Forall_fmap, Forall_forall.
    intros p _. simpl. rewrite length_fmap. lia. }
  rewrite Hlsa. simpl. subst idx1.
  rewrite Hpq in Hcols.
  destruct (gather_Permutation qs idx2 Hcols) as (qc & Hg & Hqc).
  assert (length idx2 = length ps) as Hli.
  { rewrite Hcols, length_seq. lia. }
  subst m. rewrite (index_pairs_outer ps qs idx2 qc Hli Hg). simpl.
  eexists. split; [reflexivity|]. split.
  - exists qc. split; [done|reflexivity].
  - intros qs' Hqs'.
    destruct (Permutation_gather qs qs' Hqs') as (cols & Hc & Hg').
    apply (Hmin cols).
    + by rewrite Hpq.
    + rewrite (index_pairs_outer ps qs idx2 qc Hli Hg). done.
    + rewrite (index_pairs_outer ps qs cols qs'); [done| |done].
      rewrite Hc, length_seq. lia.
Qed.

Lemma get_min_rmsd_length xyz1 c1 xyz2 c2 :
  length c1 ≠ length c2 →
  get_min_rmsd lsa np_sqrt xyz1 c1 xyz2 c2
  = Raise (ValueError "structs must have same num atoms").
Proof.
  intros H. unfold get_min_rmsd. by rewrite bool_decide_eq_true_2.
Qed.

Lemma get_min_rmsd_histogram xyz1 c1 xyz2 c2 :
  length c1 = length c2 → ¬ c1 ≡ₚ c2 →
  get_min_rmsd lsa np_sqrt xyz1 c1 xyz2 c2
  = Raise (ValueError "structs must have same num atoms of each type").
Proof.
  intros Hl Hp. unfold get_min_rmsd.
  rewrite bool_decide_eq_false_2 by (by intros ?).
  rewrite !gather_argsort_labels. simpl.
  destruct (existsb id _) eqn:E; [done|].
  apply any_differ_false in E.
  - by apply sorted_labels_eq_iff in E.
  - rewrite (Permutation_length (sorted_labels_Permutation c1)),
      (Permutation_length (sorted_labels_Permutation c2)). done.
Qed.

Lemma get_min_rmsd_compatible xyz1 c1 xyz2 c2 :
  length xyz1 = length c1 → length xyz2 = length c2 → c1 ≡ₚ c2 →
  let s := sorted_labels c1 in
  ∃ X1 X2 costs,
    zip X1 s ≡ₚ zip xyz1 c1 ∧ zip X2 s ≡ₚ zip xyz2 c2
    ∧ length X1 = length s ∧ length X2 = length s
    ∧ Forall2 (λ c v, min_cost (class_points c X1 s) (class_points c X2 s) v)
        (remove_dups s) costs
    ∧ get_min_rmsd lsa np_sqrt xyz1 c1 xyz2 c2
      = if decide (length c1 = 0) then Raise ZeroDivisionError
        else Return (np_sqrt (foldl Qplus 0 costs
                              / inject_Z (Z.of_nat (length c1)))%Q).
Proof.
  intros Hl1 Hl2 Hp s.
  pose proof (Permutation_length Hp) as Hlc.
  assert (sorted_labels c2 = s) as Hs2.
  { subst s. symmetry. by apply sorted_labels_eq_iff. }
  assert (length s = length c1) as Hls.
  { subst s. by rewrite sorted_labels_Permutation. }
  destruct (gather_argsort xyz1 c1 Hl1) as (X1 & Hg1 & Hz1 & HX1).
  destruct (gather_argsort xyz2 c2 Hl2) as (X2 & Hg2 & Hz2 & HX2).
  rewrite Hs2 in Hz2. fold s in Hz1.
  assert (∀ c, c ∈ remove_dups s →
            ∃ v, type_ssd lsa X1 s X2 s c = Return v
                 ∧ min_cost (class_points c X1 s) (class_points c X2 s) v)
    as Hty.
  { intros c _. apply type_ssd_min_cost; lia. }
  destruct (mapM_result_is_Return (type_ssd lsa X1 s X2 s) (remove_dups s))
    as [costs Hcosts].
  { apply Forall_forall. intros c Hc. simpl.
    destruct (Hty c Hc) as (v & Hv & _). rewrite Hv. by eexists. }
  exists X1, X2, costs. repeat split; try done; try lia.
  - pose proof (proj1 (mapM_result_Return _ _ _) Hcosts) as HF.
    clear Hcosts. induction HF as [|c v l k Hc HF IH]; constructor.
    + destruct (Hty c) as (v' & Hv' & Hm); [by left|]. congruence.
    + apply IH. intros c' Hc'. apply Hty. by right.
  - unfold get_min_rmsd.
    rewrite bool_decide_eq_false_2 by (intros ?; done).
    rewrite !gather_argsort_labels. simpl. rewrite Hs2. fold s.
    rewrite (proj2 (any_differ_false s s eq_refl) eq_refl).
    rewrite Hg1, Hg2. simpl. rewrite Hcosts. simpl.
    destruct (decide (length c1 = 0)) as [E|E].
    + by rewrite bool_decide_eq_true_2.
    + by rewrite bool_decide_eq_false_2.
Qed.

End MinRmsdFacts.

Section MinRmsdTheorems.

Variable lsa : list (list Q) → result (list nat * list nat).
Variable np_sqrt : Q → Q.

(** The three outcomes of [get_min_rmsd] on well-formed inputs. *)
Lemma get_min_rmsd_cases xyz1 c1 xyz2 c2 :
  lsa_optimal lsa →
  length xyz1 = length c1 → length xyz2 = length c2 →
  let r := get_min_rmsd lsa np_sqrt xyz1 c1 xyz2 c2 in
  let differ :=
    length c1 ≠ length c2 ∨ ∃ k, count_type k c1 ≠ count_type k c2 in
  (differ ∧ ∃ msg, r = Raise (ValueError msg))
  ∨ (¬ differ ∧ c1 = [] ∧ c2 = [] ∧ r = Raise ZeroDivisionError)
  ∨ (¬ differ ∧ c1 ≠ [] ∧ c2 ≠ [] ∧ ∃ v, r = Return v).
Proof.
  intros Hlsa Hl1 Hl2 r differ.
  destruct (decide (length c1 = length c2)) as [E|E].
  2: { left. split; [by left|]. eexists. by apply get_min_rmsd_length. }
  destruct (same_histogram_dec c1 c2) as [Hs|[k Hk]].
  2: { left. split; [right; by exists k|].
       eexists. apply get_min_rmsd_histogram; [done|].
       intros Hp. apply Hk. by apply same_histogram_Permutation. }
  assert (¬ differ) as Hn.
  { intros [?|[k Hk]]; [done|]. by apply Hk. }
  right.
  destruct (get_min_rmsd_compatible lsa np_sqrt Hlsa xyz1 c1 xyz2 c2
              Hl1 Hl2 (proj1 (same_histogram_Permutation c1 c2) Hs))
    as (X1 & X2 & costs & _ & _ & _ & _ & _ & Hr).
  fold r in Hr. destruct (decide (length c1 = 0)) as [Z|Z].
  - left. repeat split; try done; apply length_zero_iff_nil; lia.
  - right. repeat split; try done.
    + intros ->. done.
    + intros ->. simpl in E. done.
    + by eexists.
Qed.

(** For two structures with the same atoms of each type, not empty, an
    exception of [get_min_rmsd] comes from the assignment solver: the
    solver raised it on the squared distances of the points of one type,
    or returned indices outside that matrix. *)
Lemma get_min_rmsd_solver_raise xyz1 c1 xyz2 c2 e :
  length xyz1 = length c1 → length xyz2 = length c2 →
  c1 ≡ₚ c2 → c1 ≠ [] →
  get_min_rmsd lsa np_sqrt xyz1 c1 xyz2 c2 = Raise e →
  ∃ c ps qs,
    c ∈ c1
    ∧ ps ≡ₚ (filter (λ p : vec3 * nat, p.2 = c) (zip xyz1 c1)).*1
    ∧ qs ≡ₚ (filter (λ p : vec3 * nat, p.2 = c) (zip xyz2 c2)).*1
    ∧ (lsa (outer sqdist ps qs) = Raise e
       ∨ (e = IndexError
          ∧ ∃ idx, lsa (outer sqdist ps qs) = Return idx
                   ∧ index_pairs (outer sqdist ps qs) idx.1 idx.2 = None)).
Proof.
  intros Hl1 Hl2 Hp Hne.
  pose proof (Permutation_length Hp) as Hlc.
  set (s := sorted_labels c1).
  assert (sorted_labels c2 = s) as Hs2.
  { subst s. symmetry. by apply sorted_labels_eq_iff. }
  assert (length s = length c1) as Hls.
  { subst s. by rewrite sorted_labels_Permutation. }
  destruct (gather_argsort xyz1 c1 Hl1) as (X1 & Hg1 & Hz1 & HX1).
  destruct (gather_argsort xyz2 c2 Hl2) as (X2 & Hg2 & Hz2 & HX2).
  rewrite Hs2 in Hz2. fold s in Hz1.
  unfold get_min_rmsd.
  rewrite bool_decide_eq_false_2 by (intros ?; done).
  rewrite !gather_argsort_labels. simpl. rewrite Hs2. fold s.
  rewrite (proj2 (any_differ_false s s eq_refl) eq_refl).
  rewrite Hg1, Hg2. simpl.
  destruct (mapM_result _ _) as [e'|costs] eqn:Hm; simpl.
  - intros [= ->]. apply mapM_result_Raise in Hm as (c & Hc & Hty).
    exists c, (class_points c X1 s), (class_points c X2 s).
    split.
    { apply (proj1 (elem_of_remove_dups _ _)) in Hc.
      rewrite <- (sorted_labels_Permutation c1). exact Hc. }
    split; [apply class_points_Permutation; [lia|done]|].
    split; [apply class_points_Permutation; [lia|done]|].
    revert Hty. unfold type_ssd, class_points.
    destruct (lsa _) as [e'|idx] eqn:Hlsa; simpl.
    + intros [= ->]. by left.
    + destruct (index_pairs _ _ _) eqn:Hip; simpl; [done|].
      intros [= <-]. right. split; [done|]. by exists idx.
  - rewrite bool_decide_eq_false_2; [done|].
    intros E. apply length_zero_iff_nil in E. done.
Qed.

(** C8, as amended: on two labelled point sets [get_min_rmsd] raises its
    [ValueError] whenever they differ in atom count or in the count of
    some type, and [ZeroDivisionError] when both are empty; on other
    inputs it raises only what the assignment solver makes it raise.
    With a solver that accepts and solves every square matrix it raises
    a [ValueError] exactly when the sets differ in this way, raises
    [ZeroDivisionError] exactly when both are empty, and raises nothing
    else. *)
Theorem get_min_rmsd_raises_iff xyz1 c1 xyz2 c2 :
  length xyz1 = length c1 → length xyz2 = length c2 →
  let r := get_min_rmsd lsa np_sqrt xyz1 c1 xyz2 c2 in
  let differ :=
    length c1 ≠ length c2 ∨ ∃ k, count_type k c1 ≠ count_type k c2 in
  (differ → ∃ msg, r = Raise (ValueError msg))
  ∧ (c1 = [] → c2 = [] → r = Raise ZeroDivisionError)
  ∧ (¬ differ → c1 ≠ [] → ∀ e, r = Raise e →
     ∃ c ps qs,
       c ∈ c1
       ∧ ps ≡ₚ (filter (λ p : vec3 * nat, p.2 = c) (zip xyz1 c1)).*1
       ∧ qs ≡ₚ (filter (λ p : vec3 * nat, p.2 = c) (zip xyz2 c2)).*1
       ∧ (lsa (outer sqdist ps qs) = Raise e
          ∨ (e = IndexError
             ∧ ∃ idx, lsa (outer sqdist ps qs) = Return idx
                      ∧ index_pairs (outer sqdist ps qs) idx.1 idx.2
                        = None)))
  ∧ (lsa_optimal lsa →
     ((∃ msg, r = Raise (ValueError msg)) ↔ differ)
     ∧ (r = Raise ZeroDivisionError ↔ c1 = [] ∧ c2 = [])
     ∧ r ≠ Raise IndexError
     ∧ ((∃ e, r = Raise e) ↔ differ ∨ (c1 = [] ∧ c2 = []))).
Proof.
  intros Hl1 Hl2 r differ. subst r differ.
  split.
  { intros [Hd|[k Hk]].
    - eexists. by apply get_min_rmsd_length.
    - destruct (decide (length c1 = length c2)) as [E|E].
      + eexists. apply get_min_rmsd_histogram; [done|].
        intros Hp. apply Hk. by apply same_histogram_Permutation.
      + eexists. by apply get_min_rmsd_length. }
  split.
  { intros -> ->. reflexivity. }
  split.
  { intros Hn Hne e He.
    apply (get_min_rmsd_solver_raise xyz1 c1 xyz2 c2 e); try done.
    apply same_histogram_Permutation. intros k.
    destruct (decide (count_type k c1 = count_type k c2)); [done|].
    exfalso. apply Hn. right. by exists k. }
  intros Hlsa.
  destruct (get_min_rmsd_cases xyz1 c1 xyz2 c2 Hlsa Hl1 Hl2)
    as [[Hd [msg Hr]]|[(Hn & E1 & E2 & Hr)|(Hn & N1 & N2 & [v Hr])]].
  - split; [split; [intros _; exact Hd|intros _; eauto]|].
    split; [split|].
    { intros H. congruence. }
    { intros [-> ->]. exfalso. destruct Hd as [?|[k ?]]; done. }
    split; [congruence|].
    split; [intros _; by left|intros _; eauto].
  - split; [split; [intros [m Hm]; congruence|intros Hd; done]|].
    split; [split; done|].
    split; [congruence|].
    split; [intros _; by right|intros _; eauto].
  - split; [split; [intros [m Hm]; congruence|intros Hd; done]|].
    split; [split; [intros H; congruence|intros [? ?]; done]|].
    split; [congruence|].
    split; [intros [e He]; congruence|intros [?|[? ?]]; done].
Qed.

End MinRmsdTheorems.

Section MinRmsdInvariance.

Variable lsa : list (list Q) → result (list nat * list nat).
Variable np_sqrt : Q → Q.
Hypothesis lsa_ok : lsa_optimal lsa.
Hypothesis np_sqrt_proper : Proper (Qeq ==> Qeq) np_sqrt.

Lemma min_rmsd_of_Permutation atoms1 atoms1' atoms2 atoms2' :
  atoms1 ≡ₚ atoms1' → atoms2 ≡ₚ atoms2' →
  result_equiv (min_rmsd_of lsa np_sqrt atoms1 atoms2)
    (min_rmsd_of lsa np_sqrt atoms1' atoms2').
Proof.
  intros H1 H2. unfold min_rmsd_of.
  assert (atoms1.*2 ≡ₚ atoms1'.*2) as Hc1 by (by rewrite H1).
  assert (atoms2.*2 ≡ₚ atoms2'.*2) as Hc2 by (by rewrite H2).
  pose proof (Permutation_length Hc1) as Hlen1.
  pose proof (Permutation_length Hc2) as Hlen2.
  destruct (decide (length atoms1.*2 = length atoms2.*2)) as [E|E].
  2: { rewrite (get_min_rmsd_length lsa np_sqrt _ _ _ _ E).
       rewrite get_min_rmsd_length by lia. done. }
  destruct (decide (atoms1.*2 ≡ₚ atoms2.*2)) as [Hp|Hp].
  2: { rewrite (get_min_rmsd_histogram lsa np_sqrt _ _ _ _ E Hp).
       rewrite get_min_rmsd_histogram; [done|lia|].
       intros Hp'. apply Hp. by rewrite Hc1, Hc2. }
  assert (atoms1'.*2 ≡ₚ atoms2'.*2) as Hp' by (by rewrite <- Hc1, <- Hc2).
  destruct (get_min_rmsd_compatible lsa np_sqrt lsa_ok
              atoms1.*1 atoms1.*2 atoms2.*1 atoms2.*2
              ltac:(by rewrite !length_fmap)
              ltac:(by rewrite !length_fmap) Hp)
    as (X1 & X2 & costs & Hz1 & Hz2 & HX1 & HX2 & HF & ->).
  destruct (get_min_rmsd_compatible lsa np_sqrt lsa_ok
              atoms1'.*1 atoms1'.*2 atoms2'.*1 atoms2'.*2
              ltac:(by rewrite !length_fmap)
              ltac:(by rewrite !length_fmap) Hp')
    as (X1' & X2' & costs' & Hz1' & Hz2' & HX1' & HX2' & HF' & ->).
  rewrite <- Hlen1.
  destruct (decide (length atoms1.*2 = 0)); [done|]. simpl.
  apply np_sqrt_proper.
  assert (sorted_labels atoms1'.*2 = sorted_labels atoms1.*2) as Hs.
  { symmetry. by apply sorted_labels_eq_iff. }
  rewrite Hs in *.
  rewrite !zip_fst_snd in *.
  apply Qmult_comp; [|reflexivity].
  apply foldl_Qplus_proper; [|reflexivity].
  eapply Forall2_join_l; [exact HF|exact HF'|].
  intros c v v' _ Hv Hv'.
  eapply min_cost_Permutation; [| | |exact Hv|exact Hv'].
  - rewrite !class_points_Permutation by eassumption. by rewrite H1.
  - rewrite !class_points_Permutation by eassumption. by rewrite H2.
  - rewrite !class_points_length by done. done.
Qed.

Hypothesis np_sqrt_0 : (np_sqrt 0 == 0)%Q.

Lemma min_rmsd_of_self atoms :
  atoms ≠ [] →
  ∃ v, min_rmsd_of lsa np_sqrt atoms atoms = Return v ∧ (v == 0)%Q.
Proof.
  intros Hne. unfold min_rmsd_of.
  destruct (get_min_rmsd_compatible lsa np_sqrt lsa_ok
              atoms.*1 atoms.*2 atoms.*1 atoms.*2)
    as (X1 & X2 & costs & Hz1 & Hz2 & HX1 & HX2 & HF & Hr);
    [by rewrite !length_fmap..|done|].
  rewrite Hr. rewrite length_fmap.
  destruct (decide (length atoms = 0)) as [E|E].
  { apply length_zero_iff_nil in E. done. }
  eexists. split; [reflexivity|].
  etrans; [|exact np_sqrt_0]. apply np_sqrt_proper.
  assert (foldl Qplus 0 costs == 0)%Q as ->; [|unfold Qdiv; ring].
  apply foldl_Qplus_zero.
  rewrite !zip_fst_snd in *.
  clear Hr. induction HF as [|c v l k Hv _ IH]; constructor; [|done].
  eapply min_cost_self; [|exact Hv].
  rewrite !class_points_Permutation by eassumption. done.
Qed.

End MinRmsdInvariance.

(** C9, as amended: the outcome of [get_min_rmsd] does not change when the
    labelled points of either input are reordered, and on two identical
    structures that are not empty it returns 0. *)
Theorem get_min_rmsd_permutation_invariant
    (lsa : list (list Q) → result (list nat * list nat)) (np_sqrt : Q → Q) :
  lsa_optimal lsa → Proper (Qeq ==> Qeq) np_sqrt → (np_sqrt 0 == 0)%Q →
  (∀ atoms1 atoms1' atoms2 atoms2',
     atoms1 ≡ₚ atoms1' → atoms2 ≡ₚ atoms2' →
     result_equiv (min_rmsd_of lsa np_sqrt atoms1 atoms2)
       (min_rmsd_of lsa np_sqrt atoms1' atoms2'))
  ∧ (∀ atoms, atoms ≠ [] →
       ∃ v, min_rmsd_of lsa np_sqrt atoms atoms = Return v ∧ (v == 0)%Q).
Proof.
  intros Hlsa Hproper Hzero. split.
  - intros. by apply min_rmsd_of_Permutation.
  - intros. by apply min_rmsd_of_self.
Qed.

(** ** The example solver and square root meet their contracts *)

Lemma argmin_foldr {A} (f : A → Q) (d : A) (l : list A) :
  let r := foldr (λ x best, if Qltb (f x) (f best) then x else best) d l in
  (r = d ∨ r ∈ l) ∧ (f r <= f d)%Q ∧ ∀ x, x ∈ l → (f r <= f x)%Q.
Proof.
  induction l as [|y l IH]; simpl.
  - split; [by left|]. split; [apply Qle_refl|]. intros x Hx.
    by apply elem_of_nil in Hx.
  - destruct IH as (Hin & Hd & Hall).
    set (r := foldr _ d l) in *.
    destruct (Qltb (f y) (f r)) eqn:E.
    + apply Qltb_lt in E. split; [right; by left|].
      split; [lra|]. intros x Hx. apply elem_of_cons in Hx as [->|Hx].
      * apply Qle_refl.
      * specialize (Hall x Hx). lra.
    + assert (f r <= f y)%Q as Hry.
      { destruct (Qlt_le_dec (f y) (f r)) as [Hlt|?]; [|done].
        apply Qltb_lt in Hlt. congruence. }
      split; [destruct Hin; [by left|right; by right]|].
      split; [done|]. intros x Hx. apply elem_of_cons in Hx as [->|Hx]; auto.
Qed.

Lemma lsa_brute_optimal : lsa_optimal lsa_brute.
Proof.
  intros m n Hn _. unfold lsa_brute. simpl. rewrite Hn.
  pose proof (argmin_foldr (lsa_cost m) (seq 0 n) (permutations (seq 0 n)))
    as (Hin & _ & Hall). simpl in *.
  set (r := foldr _ (seq 0 n) (permutations (seq 0 n))) in *.
  exists (seq 0 n), r. split; [done|].
  split; [done|]. split.
  - destruct Hin as [->|Hin]; [done|].
    apply permutations_Permutation in Hin. by symmetry.
  - intros cols v w Hc Hv Hw.
    assert (cols ∈ permutations (seq 0 n)) as Hcin.
    { apply permutations_Permutation. by symmetry. }
    specialize (Hall cols Hcin). unfold lsa_cost in Hall.
    rewrite Hn, Hv, Hw in Hall. exact Hall.
Qed.

Global Instance sqrt_floor_proper : Proper (Qeq ==> Qeq) sqrt_floor.
Proof.
  intros p q Hpq. unfold sqrt_floor.
  by rewrite (Qred_complete p q Hpq).
Qed.

Lemma sqrt_floor_0 : (sqrt_floor 0 == 0)%Q.
Proof. reflexivity. Qed.

Lemma empty_structures_raise :
  length ([] : list nat) = length ([] : list nat)
  ∧ (∀ k, count_type k [] = count_type k [])
  ∧ get_min_rmsd lsa_brute sqrt_floor [] [] [] []
    = Raise ZeroDivisionError.
Proof. repeat split. Qed.

Lemma identical_empty_structures_not_zero :
  min_rmsd_of lsa_brute sqrt_floor [] [] = Raise ZeroDivisionError.
Proof. reflexivity. Qed.

Lemma get_min_rmsd_raises_iff_witness :
  let r := get_min_rmsd lsa_brute sqrt_floor pts_a.*1 pts_a.*2
             pts_b.*1 pts_b.*2 in
  let differ :=
    length pts_a.*2 ≠ length pts_b.*2
    ∨ ∃ k, count_type k pts_a.*2 ≠ count_type k pts_b.*2 in
  lsa_optimal lsa_brute
  ∧ length pts_a.*1 = length pts_a.*2
  ∧ length pts_b.*1 = length pts_b.*2
  ∧ ((∃ msg, r = Raise (ValueError msg)) ↔ differ)
  ∧ (r = Raise ZeroDivisionError ↔ pts_a.*2 = [] ∧ pts_b.*2 = [])
  ∧ r ≠ Raise IndexError
  ∧ ((∃ e, r = Raise e) ↔ differ ∨ (pts_a.*2 = [] ∧ pts_b.*2 = [])).
Proof.
  split; [exact lsa_brute_optimal|].
  split; [reflexivity|]. split; [reflexivity|].
  assert (length pts_a.*1 = length pts_a.*2) as Ha by reflexivity.
  assert (length pts_b.*1 = length pts_b.*2) as Hb by reflexivity.
  destruct (get_min_rmsd_raises_iff lsa_brute sqrt_floor pts_a.*1 pts_a.*2
              pts_b.*1 pts_b.*2 Ha Hb)
    as (_ & _ & _ & H).
  exact (H lsa_brute_optimal).
Defined.

Lemma get_min_rmsd_permutation_invariant_witness :
  lsa_optimal lsa_brute ∧ Proper (Qeq ==> Qeq) sqrt_floor
  ∧ (sqrt_floor 0 == 0)%Q
  ∧ (∀ atoms1 atoms1' atoms2 atoms2',
       atoms1 ≡ₚ atoms1' → atoms2 ≡ₚ atoms2' →
       result_equiv (min_rmsd_of lsa_brute sqrt_floor atoms1 atoms2)
         (min_rmsd_of lsa_brute sqrt_floor atoms1' atoms2'))
  ∧ (∀ atoms, atoms ≠ [] →
       ∃ v, min_rmsd_of lsa_brute sqrt_floor atoms atoms = Return v
            ∧ (v == 0)%Q).
Proof.
  split; [exact lsa_brute_optimal|].
  split; [exact sqrt_floor_proper|].
  split; [exact sqrt_floor_0|].
  exact (get_min_rmsd_permutation_invariant lsa_brute sqrt_floor
           lsa_brute_optimal sqrt_floor_proper sqrt_floor_0).
Defined.


Lemma fit_gd_runs_budget_witness :
  (0 ≤ 3)%Z
  ∧ Adam sgd_backend (gd_kwargs (with_lr (1 # 2) beam2)) [(1, 0, 0)%Q]
    = Some (1 # 2)%Q
  ∧ (∃ st xyz' solver' grid_pred grid_diff loss,
      gd_run sgd_backend (with_lr (1 # 2) beam2) crowded_target
        [(1, 0, 0)%Q] [[1; 0]%Q] 3 = Some st
      ∧ fit_gd sgd_backend (with_lr (1 # 2) beam2) crowded_target
          [(1, 0, 0)%Q] [[1; 0]%Q] 3
        = Some (xyz', grid_pred, grid_diff, loss)
      ∧ gd_steps st = Z.to_nat 3
      ∧ (xyz', solver')
        = Nat.iter (Z.to_nat 3)
            (gd_step sgd_backend (with_lr (1 # 2) beam2) crowded_target
               [[1; 0]%Q])
            ([(1, 0, 0)%Q], (1 # 2)%Q)
      ∧ grid_pred
        = c2grid sgd_backend (dimension crowded_target)
            (resolution crowded_target) (center crowded_target) xyz'
            [[1; 0]%Q] (atomic_radius <$> channels crowded_target)
      ∧ flat grid_diff
        = zip_with Qminus (flat (values crowded_target)) (flat grid_pred)
      ∧ loss = (if fit_L1_loss (with_lr (1 # 2) beam2)
                then Qsum (Qabs <$> flat grid_diff)
                else Qsum (Qsq <$> flat grid_diff) / 2)%Q)
  ∧ (λ r, r.1.1.1) <$> fit_gd sgd_backend (with_lr (1 # 2) beam2)
                         crowded_target [(1, 0, 0)%Q] [[1; 0]%Q] 3
    = Some [(1 # 8, 0, 0)%Q].
Proof.
  split; [lia|]. split; [reflexivity|].
  split; [|vm_compute; reflexivity].
  apply (fit_gd_runs_budget sgd_backend (with_lr (1 # 2) beam2)
           crowded_target [(1, 0, 0)%Q] [[1; 0]%Q] 3 ltac:(lia)).
  reflexivity.
Defined.

Lemma fit_gd_rejected_hyperparameters :
  (0 ≤ 3)%Z
  ∧ adam_accepts (gd_kwargs (with_lr (-1 # 10) beam2)) = false
  ∧ fit_gd sgd_backend (with_lr (-1 # 10) beam2) crowded_target
      [(1, 0, 0)%Q] [[1; 0]%Q] 3 = None.
Proof. split; [lia|]. split; vm_compute; reflexivity. Qed.

Lemma initial_objective_magnitude_witness :
  0 < n_channels (values two_atoms)
  ∧ ∃ st e0,
      fit_init toy_backend beam3_typed two_atoms [2]%Q = Some st
      ∧ best_structs st = [e0]
      ∧ s_id e0 = 0 ∧ s_xyz e0 = [] ∧ s_c e0 = []
      ∧ s_objective e0
        = TypeFit (Qsum (Qabs <$> [2]%Q))
            (Qsum (Qsq <$> flat (values two_atoms)) / 2)%Q
      ∧ (Qsum (Qsq <$> flat (values two_atoms)) / 2)%Q
        = loss_of beam3_typed
            (tsub (values two_atoms)
               {| n_channels := n_channels (values two_atoms);
                  grid_dim := grid_dim (values two_atoms);
                  flat := replicate (length (flat (values two_atoms)))
                            0%Q |})
      ∧ ∀ t f : Q,
          obj_ltb (TypeFit t f) (s_objective e0) = true
          ↔ (t < Qsum (Qabs <$> [2]%Q))%Q
            ∨ (t == Qsum (Qabs <$> [2]%Q)
               ∧ f < Qsum (Qsq <$> flat (values two_atoms)) / 2)%Q.
Proof.
  split; [simpl; lia|].
  apply (initial_objective_magnitude toy_backend beam3_typed two_atoms
           [2]%Q).
  - simpl. lia.
  - simpl. lia.
  - simpl. lia.
Defined.

Lemma initial_l2_loss_is_not_the_norm :
  (Qsum (Qsq <$> flat (values target34)) == Qsq 5)%Q
  ∧ fit_L1_loss beam2 = false
  ∧ (λ st, s_objective <$> best_structs st)
      <$> fit_init toy_backend beam2 target34 []
    = Some [Fit (25 # 2)%Q]
  ∧ ¬ (25 # 2 == 5)%Q.
Proof.
  split; [reflexivity|]. split; [reflexivity|].
  split; [vm_compute; reflexivity|]. intros H. discriminate H.
Qed.

Lemma accepted_pass_merges_pool_witness :
  expand_pool toy_backend beam2 crowded_target [1; 49]%Q crowded_init
  = Some crowded_pass1
  ∧ new_best_structs crowded_pass1 ≠ []
  ∧ ∃ attempts,
      spec_pass_attempts toy_backend beam2 crowded_target [1; 49]%Q
        (best_structs crowded_init) (expanded_ids crowded_init)
        (best_structs crowded_init) = Some attempts
      ∧ visited_structs crowded_pass1 = visited_structs crowded_init ++ attempts
      ∧ entry_key <$> new_best_structs crowded_pass1
        = visit_key <$> accepted (best_structs crowded_init) attempts
      ∧ (∀ o, is_new_best o (best_structs crowded_init) = true
              ↔ ∃ s, s ∈ best_structs crowded_init
                     ∧ obj_lt o (s_objective s))
      ∧ found_new_best_struct crowded_pass1 = true
      ∧ ((1 ≤ beam_size beam2)%Z → is_Some (select_best beam2 crowded_pass1))
      ∧ ∀ st2, select_best beam2 crowded_pass1 = Some st2 →
          let merged :=
            sorted (best_structs crowded_init
                    ++ new_best_structs crowded_pass1) in
          merged ≡ₚ best_structs crowded_init
                    ++ new_best_structs crowded_pass1
          ∧ StronglySorted struct_le merged
          ∧ best_structs st2 = slice_to (beam_size beam2) merged
          ∧ ((0 ≤ beam_size beam2)%Z →
             best_structs st2 = take (Z.to_nat (beam_size beam2)) merged)
          ∧ ∀ e2 e, head (best_structs st2) = Some e2 →
                    e ∈ best_structs crowded_init →
                    obj_le (s_objective e2) (s_objective e).
Proof.
  assert (expand_pool toy_backend beam2 crowded_target [1; 49]%Q crowded_init
          = Some crowded_pass1) as H by (vm_compute; reflexivity).
  assert (new_best_structs crowded_pass1 ≠ []) as Hne.
  { intros E. apply (f_equal length) in E. vm_compute in E. discriminate E. }
  split; [exact H|]. split; [exact Hne|].
  destruct (accepted_pass_merges_pool toy_backend beam2 crowded_target
              [1; 49]%Q crowded_init crowded_pass1 H)
    as (attempts & H1 & H2 & H3 & H4 & _ & H6).
  exists attempts. split; [exact H1|]. split; [exact H2|].
  split; [exact H3|]. split; [exact H4|]. exact (H6 Hne).
Defined.

(** ** Both suppression paths *)

Lemma mask_select_nil_r {A} (mask : list bool) : mask_select mask (@nil A) = [].
Proof. unfold mask_select. by rewrite zip_with_nil_r. Qed.

Lemma mask_select_cons {A} (b : bool) mask (x : A) l :
  mask_select (b :: mask) (x :: l)
  = (if b then [x] else []) ++ mask_select mask l.
Proof.
  unfold mask_select. simpl. rewrite filter_cons. simpl.
  destruct b; case_decide; try done.
Qed.

Lemma mask_select_app {A} (m1 m2 : list bool) (l1 l2 : list A) :
  length m1 = length l1 →
  mask_select (m1 ++ m2) (l1 ++ l2) = mask_select m1 l1 ++ mask_select m2 l2.
Proof.
  revert l1. induction m1 as [|b m1 IH]; intros [|x l1] Hl; simpl in Hl;
    try done.
  simpl. rewrite !mask_select_cons, IH by lia. by rewrite app_assoc.
Qed.

(** An element of a masked list sits at a selected position. *)
Lemma mask_select_lookup {A} (mask : list bool) (l : list A) k x :
  mask_select mask l !! k = Some x →
  ∃ i, l !! i = Some x ∧ mask !! i = Some true.
Proof.
  revert l k. induction mask as [|b mask IH]; intros [|y l] k;
    rewrite ?mask_select_nil_r; try done.
  rewrite mask_select_cons. destruct b; simpl.
  - destruct k as [|k]; simpl.
    + intros [= ->]. by exists 0.
    + intros H. apply IH in H as (i & ? & ?). by exists (S i).
  - intros H. apply IH in H as (i & ? & ?). by exists (S i).
Qed.

Lemma mask_select_lookup_lt {A} (mask : list bool) (l : list A) k1 k2 x y :
  k1 < k2 →
  mask_select mask l !! k1 = Some x → mask_select mask l !! k2 = Some y →
  ∃ i j, i < j ∧ l !! i = Some x ∧ l !! j = Some y
         ∧ mask !! i = Some true ∧ mask !! j = Some true.
Proof.
  revert l k1 k2. induction mask as [|b mask IH]; intros [|z l] k1 k2 Hlt;
    rewrite ?mask_select_nil_r; try done.
  rewrite mask_select_cons. destruct b; simpl.
  - destruct k1 as [|k1], k2 as [|k2]; simpl; try lia.
    + intros [= ->] H. apply mask_select_lookup in H as (j & ? & ?).
      exists 0, (S j). repeat split; auto. lia.
    + intros H1 H2.
      destruct (IH l k1 k2 ltac:(lia) H1 H2) as (i & j & ? & ? & ? & ? & ?).
      exists (S i), (S j). repeat split; auto. lia.
  - intros H1 H2.
    destruct (IH l k1 k2 Hlt H1 H2) as (i & j & ? & ? & ? & ? & ?).
    exists (S i), (S j). repeat split; auto. lia.
Qed.

Lemma mask_select_elem {A} (mask : list bool) (l : list A) i x :
  l !! i = Some x → mask !! i = Some true →
  ∃ k, mask_select mask l !! k = Some x.
Proof.
  revert l i. induction mask as [|b mask IH]; intros [|y l] i; try done.
  rewrite mask_select_cons. destruct i as [|i]; simpl.
  - intros [= ->] [= ->]. by exists 0.
  - intros H1 H2. destruct (IH l i H1 H2) as [k Hk].
    destruct b; simpl; [by exists (S k)|by exists k].
Qed.

(** The test of one loop iteration: is the atom too close to a kept atom
    of its type? *)
Lemma nms_loop_step_spec md r (kept0 : list atom) (a : atom) ra r_max :
  r !! a.2 = Some ra → gather r kept0.*2 = Some r_max →
  ∃ hit : bool,
    nms_loop_step md r (Some kept0) a
      = Some (kept0 ++ if hit then [] else [a])
    ∧ (hit = true ↔
       ∃ k b rb, kept0 !! k = Some b ∧ r !! b.2 = Some rb
                 ∧ too_close_pair md (a, ra) (b, rb) = true).
Proof.
  intros Hra Hg. unfold nms_loop_step. simpl. rewrite Hra. simpl.
  rewrite Hg. simpl.
  match goal with |- context [existsb id ?l] => set (tests := l) end.
  exists (existsb id tests). split.
  { destruct (existsb id tests); [by rewrite app_nil_r|done]. }
  rewrite existsb_id_lookup. subst tests. split.
  - intros (k & Hk).
    rewrite !lookup_zip_with, !list_lookup_fmap in Hk.
    destruct (kept0 !! k) as [b|] eqn:Hb; simpl in Hk; [|done].
    destruct (r_max !! k) as [rb|] eqn:Hrb; simpl in Hk; [|done].
    exists k, b, rb. split; [done|]. split.
    + rewrite <- Hrb. symmetry. eapply gather_lookup; [exact Hg|].
      by rewrite list_lookup_fmap, Hb.
    + unfold too_close_pair. simpl. congruence.
  - intros (k & b & rb & Hb & Hrb & Hc). exists k.
    rewrite !lookup_zip_with, !list_lookup_fmap, Hb. simpl.
    assert (r_max !! k = Some rb) as ->.
    { rewrite <- Hrb. eapply gather_lookup; [exact Hg|].
      by rewrite list_lookup_fmap, Hb. }
    simpl. unfold too_close_pair in Hc. simpl in Hc. congruence.
Qed.

Lemma gather_app {A} (t : list A) i1 i2 k1 k2 :
  gather t i1 = Some k1 → gather t i2 = Some k2 →
  gather t (i1 ++ i2) = Some (k1 ++ k2).
Proof.
  unfold gather. intros H1 H2. apply mapM_Some.
  apply mapM_Some in H1, H2. by apply Forall2_app.
Qed.

Lemma foldl_nms_loop_greedy md r rest : ∀ pre keep0 kept,
  length keep0 = length pre →
  Forall (λ a : atom, a.2 < length r) (pre ++ rest) →
  foldl (nms_loop_step md r) (Some (mask_select keep0 pre)) rest = Some kept →
  ∃ keep1,
    length keep1 = length rest
    ∧ kept = mask_select (keep0 ++ keep1) (pre ++ rest)
    ∧ ∀ i a ra, length pre ≤ i → (pre ++ rest) !! i = Some a →
        r !! a.2 = Some ra →
        ((keep0 ++ keep1) !! i = Some false ↔
         ∃ j b rb, j < i ∧ (pre ++ rest) !! j = Some b
           ∧ (keep0 ++ keep1) !! j = Some true ∧ r !! b.2 = Some rb
           ∧ too_close_pair md (a, ra) (b, rb) = true).
Proof.
  induction rest as [|a rest IH]; intros pre keep0 kept Hl Hr; cbn [foldl].
  - intros [= <-]. exists []. rewrite !app_nil_r. split; [done|].
    split; [done|]. intros i x rx Hi Hx.
    apply lookup_lt_Some in Hx. lia.
  - apply Forall_app in Hr as [Hpre Hrest].
    apply Forall_cons in Hrest as [Ha Hrest].
    destruct (lookup_lt_is_Some_2 r a.2 Ha) as [ra Hra].
    destruct (gather_is_Some r (mask_select keep0 pre).*2) as [r_max Hg].
    { apply Forall_fmap. eapply Forall_sublist; [apply mask_select_sublist|].
      exact Hpre. }
    destruct (nms_loop_step_spec md r _ a ra r_max Hra Hg)
      as (hit & Hstep & Hhit).
    rewrite Hstep. intros Hfold.
    assert (mask_select keep0 pre ++ (if hit then [] else [a])
            = mask_select (keep0 ++ [negb hit]) (pre ++ [a])) as Hm.
    { rewrite mask_select_app by done. f_equal.
      rewrite mask_select_cons, mask_select_nil_r, app_nil_r.
      by destruct hit. }
    rewrite Hm in Hfold.
    destruct (IH (pre ++ [a]) (keep0 ++ [negb hit]) kept) as
      (keep1 & Hl1 & Hkept & Hspec).
    { rewrite !length_app. simpl. lia. }
    { rewrite <- app_assoc. simpl. apply Forall_app. split; [done|].
      by constructor. }
    { exact Hfold. }
    exists (negb hit :: keep1).
    replace (keep0 ++ negb hit :: keep1) with ((keep0 ++ [negb hit]) ++ keep1)
      by (by rewrite <- app_assoc).
    replace (pre ++ a :: rest) with ((pre ++ [a]) ++ rest)
      by (by rewrite <- app_assoc).
    split; [simpl; lia|]. split; [exact Hkept|].
    intros i x rx Hi Hx Hrx.
    destruct (decide (i = length pre)) as [->|Hne].
    2: { apply Hspec; auto. rewrite length_app. simpl. lia. }
    assert (x = a) as ->.
    { rewrite lookup_app_l in Hx by (rewrite length_app; simpl; lia).
      rewrite lookup_app_r in Hx by lia.
      rewrite Nat.sub_diag in Hx. simpl in Hx. congruence. }
    assert (rx = ra) as -> by congruence.
    assert (((keep0 ++ [negb hit]) ++ keep1) !! length pre
            = Some (negb hit)) as ->.
    { rewrite lookup_app_l by (rewrite length_app; simpl; lia).
      rewrite lookup_app_r by lia.
      replace (length pre - length keep0) with 0 by lia. done. }
    split.
    + intros [= Hh]. apply negb_false_iff in Hh.
      apply Hhit in Hh as (k & b & rb & Hb & Hrb & Hc).
      apply mask_select_lookup in Hb as (j & Hj & Hkj).
      pose proof (lookup_lt_Some _ _ _ Hj) as Hjl.
      exists j, b, rb. split; [lia|].
      split.
      { rewrite <- app_assoc. by rewrite lookup_app_l. }
      split; [|done].
      rewrite <- app_assoc. rewrite lookup_app_l by lia. done.
    + intros (j & b & rb & Hj & Hb & Hkj & Hrb & Hc).
      f_equal. apply negb_false_iff. apply Hhit.
      rewrite <- app_assoc in Hb, Hkj.
      rewrite lookup_app_l in Hb by lia.
      rewrite lookup_app_l in Hkj by lia.
      destruct (mask_select_elem keep0 pre j b Hb Hkj) as [k Hk].
      exists k, b, rb. done.
Qed.

Lemma nms_loop_keep_mask md r (atoms : list atom) :
  atoms ≠ [] →
  Forall (λ a : atom, a.2 < length r) atoms →
  ∃ keep : list bool,
    length keep = length atoms
    ∧ nms_loop md r atoms = Some (mask_select keep atoms)
    ∧ keep !! 0 = Some true
    ∧ ∀ i a ra, atoms !! i = Some a → r !! a.2 = Some ra →
        (keep !! i = Some false ↔
         ∃ j b rb, j < i ∧ atoms !! j = Some b ∧ keep !! j = Some true
           ∧ r !! b.2 = Some rb
           ∧ too_close_pair md (a, ra) (b, rb) = true).
Proof.
  intros Hne Hr. destruct atoms as [|a0 rest]; [done|]. clear Hne.
  destruct (foldl_nms_loop_is_Some md r rest [a0]) as [kept Hk].
  { apply Forall_cons in Hr as [? ?]. by constructor. }
  { by apply Forall_cons in Hr as [? ?]. }
  destruct (foldl_nms_loop_greedy md r rest [a0] [true] kept)
    as (keep1 & Hl & Hkept & Hspec); [done|exact Hr| |].
  { rewrite mask_select_cons, mask_select_nil_r. exact Hk. }
  exists (true :: keep1). split; [simpl; lia|].
  split; [simpl; rewrite Hk; by rewrite Hkept|].
  split; [done|].
  intros i a ra Ha Hra. destruct i as [|i].
  - simpl. split; [done|]. intros (j & _ & _ & ? & _). lia.
  - apply (Hspec (S i) a ra); [simpl; lia|exact Ha|exact Hra].
Qed.

(** X2: the for-loop path of the suppression is greedy: the first atom
    is kept, and a later atom is dropped exactly when an atom that was
    kept before it, of the same channel, is closer than
    [min_dist * (r_a + r_b)]. *)
Theorem nms_loop_greedy md r (atoms : list atom) :
  atoms ≠ [] →
  Forall (λ a : atom, a.2 < length r) atoms →
  ∃ keep : list bool,
    length keep = length atoms
    ∧ nms_loop md r atoms = Some (mask_select keep atoms)
    ∧ keep !! 0 = Some true
    ∧ ∀ i a ra, atoms !! i = Some a → r !! a.2 = Some ra →
        (keep !! i = Some false ↔
         ∃ j b rb, j < i ∧ atoms !! j = Some b ∧ keep !! j = Some true
           ∧ r !! b.2 = Some rb
           ∧ (sqdist a.1 b.1 < Qsq (md * (ra + rb)))%Q ∧ a.2 = b.2).
Proof.
  intros Hne Hr.
  destruct (nms_loop_keep_mask md r atoms Hne Hr)
    as (keep & Hl & Hloop & H0 & Hspec).
  exists keep. split; [done|]. split; [done|]. split; [done|].
  intros i a ra Ha Hra. rewrite (Hspec i a ra Ha Hra).
  split; intros (j & b & rb & H1 & H2 & H3 & H4 & H5);
    exists j, b, rb; repeat split; auto.
  - by apply too_close_pair_true in H5 as [? ?].
  - by apply too_close_pair_true in H5 as [? ?].
  - apply too_close_pair_true. tauto.
Qed.

Lemma head_mask_select {A} (mask : list bool) (l : list A) :
  length mask = length l → mask !! 0 = Some true →
  head (mask_select mask l) = head l.
Proof.
  destruct mask as [|b mask], l as [|x l]; simpl; try done.
  intros _ [= ->]. by rewrite mask_select_cons.
Qed.

Lemma radius_lookup (channels : list Channel) k ch :
  channels !! k = Some ch →
  (atomic_radius <$> channels) !! k = Some (atomic_radius ch).
Proof. intros H. by rewrite list_lookup_fmap, H. Qed.

(** X3: whichever path runs, the atoms that survive the suppression
    are pairwise separated: the highest-ranked candidate is kept, the kept
    atoms keep their order, and no kept atom lies within
    [min_dist * (r_a + r_b)] of a kept atom of the same channel that ranks
    above it. *)
Theorem suppress_separates self channels (atoms : list atom) md :
  min_dist self = Some md → (0 < md)%Q → (1 < n_atoms_detect self)%Z →
  Forall (λ a, a.2 < length channels) atoms →
  ∃ kept,
    suppress self channels atoms = Some kept
    ∧ kept `sublist_of` atoms
    ∧ head kept = head atoms
    ∧ ∀ i j a b ch_a ch_b,
        i < j → kept !! i = Some a → kept !! j = Some b → a.2 = b.2 →
        channels !! a.2 = Some ch_a → channels !! b.2 = Some ch_b →
        (Qsq (md * (atomic_radius ch_b + atomic_radius ch_a))
         <= sqdist b.1 a.1)%Q.
Proof.
  intros Hmd Hpos Hn Hch.
  assert (Forall (λ a : atom, a.2 < length (atomic_radius <$> channels))
            atoms) as Hr by (by rewrite length_fmap).
  assert (∃ keep : list bool,
    length keep = length atoms
    ∧ suppress self channels atoms = Some (mask_select keep atoms)
    ∧ (atoms ≠ [] → keep !! 0 = Some true)
    ∧ ∀ i j a b ra rb, j < i → atoms !! i = Some a → atoms !! j = Some b →
        keep !! i = Some true → keep !! j = Some true →
        (atomic_radius <$> channels) !! a.2 = Some ra →
        (atomic_radius <$> channels) !! b.2 = Some rb →
        too_close_pair md (a, ra) (b, rb) = false)
    as (keep & Hl & Hs & Hhead & Hsep).
  { unfold suppress, suppress_non_max. rewrite Hmd.
    apply Qltb_lt in Hpos. rewrite Hpos.
    rewrite bool_decide_eq_true_2 by lia.
    case_bool_decide as Hlen.
    - destruct (gather_is_Some (atomic_radius <$> channels) atoms.*2)
        as [r_c Hg]; [by apply Forall_fmap|].
      destruct (nms_matrix_too_close md _ _ _ Hg) as (tc & Htl & Hnms & Hspec).
      assert (∀ k (x : atom), atoms !! k = Some x →
                r_c !! k = (atomic_radius <$> channels) !! x.2) as Hrad.
      { intros k x Hx. eapply gather_lookup; [exact Hg|].
        by rewrite list_lookup_fmap, Hx. }
      exists (negb <$> tc). split; [by rewrite length_fmap|].
      split; [done|]. split.
      + intros Hne. destruct atoms as [|a0 rest]; [done|].
        destruct tc as [|t0 tc]; [done|]. simpl. f_equal.
        destruct (lookup_lt_is_Some_2 (atomic_radius <$> channels) a0.2)
          as [ra Hra]; [by apply Forall_cons in Hr as [? _]|].
        destruct t0; [|done]. exfalso.
        assert ((true :: tc) !! 0 = Some true) as H0 by done.
        apply (Hspec 0 a0 ra) in H0 as (j & _ & _ & ? & _); [lia|done|].
        rewrite (Hrad 0 a0); done.
      + intros i j a b ra rb Hji Ha Hb Hki Hkj Hra Hrb.
        rewrite list_lookup_fmap in Hki.
        destruct (tc !! i) as [ti|] eqn:Hti; simpl in Hki; [|done].
        injection Hki as Hti'. apply negb_true_iff in Hti'. subst ti.
        destruct (too_close_pair md (a, ra) (b, rb)) eqn:Hc; [|done].
        exfalso.
        assert (tc !! i = Some true) as Habs; [|congruence].
        apply (Hspec i a ra Ha); [by rewrite (Hrad i a)|].
        exists j, b, rb. repeat split; auto. by rewrite (Hrad j b).
    - destruct (nms_loop_keep_mask md (atomic_radius <$> channels) atoms)
        as (keep & Hkl & Hloop & Hk0 & Hspec); [|exact Hr|].
      { intros ->. simpl in Hlen. lia. }
      exists keep. split; [done|]. split; [done|]. split; [done|].
      intros i j a b ra rb Hji Ha Hb Hki Hkj Hra Hrb.
      destruct (too_close_pair md (a, ra) (b, rb)) eqn:Hc; [|done].
      exfalso.
      assert (keep !! i = Some false) as Habs; [|congruence].
      apply (Hspec i a ra Ha Hra).
      exists j, b, rb. repeat split; auto. }
  exists (mask_select keep atoms). split; [done|].
  split; [apply mask_select_sublist|]. split.
  { destruct atoms as [|a0 rest] eqn:E.
    - by rewrite mask_select_nil_r.
    - apply head_mask_select; [done|]. by apply Hhead. }
  intros i j a b ch_a ch_b Hij Ha Hb Heq Hca Hcb.
  destruct (mask_select_lookup_lt keep atoms i j a b Hij Ha Hb)
    as (i' & j' & Hlt & Ha' & Hb' & Hki & Hkj).
  pose proof (Hsep j' i' b a _ _ Hlt Hb' Ha' Hkj Hki
                (radius_lookup _ _ _ Hcb) (radius_lookup _ _ _ Hca)) as Hc.
  apply Qnot_lt_le. intros Hd.
  assert (too_close_pair md (b, atomic_radius ch_b) (a, atomic_radius ch_a)
          = true); [|congruence].
  apply too_close_pair_true. split; [exact Hd|]. simpl. done.
Qed.

(** Three atoms in a row at unit spacing, of one channel of radius 1: the
    suppression at [min_dist = 3/4] keeps them at least 1.5 apart. *)
Lemma suppress_separates_witness :
  ∃ kept,
    suppress (detector None (Some (3 # 4)%Q) 3) [carbon] line3 = Some kept
    ∧ kept `sublist_of` line3
    ∧ head kept = head line3
    ∧ ∀ i j a b ch_a ch_b,
        i < j → kept !! i = Some a → kept !! j = Some b → a.2 = b.2 →
        [carbon] !! a.2 = Some ch_a → [carbon] !! b.2 = Some ch_b →
        (Qsq ((3 # 4) * (atomic_radius ch_b + atomic_radius ch_a))
         <= sqdist b.1 a.1)%Q.
Proof.
  apply (suppress_separates (detector None (Some (3 # 4)%Q) 3) [carbon] line3
           (3 # 4)%Q).
  - reflexivity.
  - reflexivity.
  - simpl. lia.
  - repeat constructor.
Defined.

Lemma nms_loop_greedy_witness :
  ∃ keep : list bool,
    length keep = length line3
    ∧ nms_loop (3 # 4) [1%Q] line3 = Some (mask_select keep line3)
    ∧ keep !! 0 = Some true
    ∧ ∀ i a ra, line3 !! i = Some a → [1%Q] !! a.2 = Some ra →
        (keep !! i = Some false ↔
         ∃ j b rb, j < i ∧ line3 !! j = Some b ∧ keep !! j = Some true
           ∧ [1%Q] !! b.2 = Some rb
           ∧ (sqdist a.1 b.1 < Qsq ((3 # 4) * (ra + rb)))%Q ∧ a.2 = b.2).
Proof.
  apply (nms_loop_greedy (3 # 4) [1%Q] line3).
  - discriminate.
  - repeat constructor.
Defined.

Lemma unravel_ravel nc d v idx :
  0 < d → idx < nc * (d * (d * d)) →
  let u := unravel nc d (v, idx) in
  (vx_idx u).1.1 < d ∧ (vx_idx u).1.2 < d ∧ (vx_idx u).2 < d
  ∧ vx_c u < nc ∧ ravel d (vx_c u) (vx_idx u) = idx.
Proof.
  intros Hd Hidx. simpl.
  pose proof (Nat.mod_upper_bound idx d ltac:(lia)).
  pose proof (Nat.mod_upper_bound (idx / d) d ltac:(lia)).
  pose proof (Nat.mod_upper_bound (idx / d / d) d ltac:(lia)).
  pose proof (Nat.div_mod_eq idx d) as E1.
  pose proof (Nat.div_mod_eq (idx / d) d) as E2.
  pose proof (Nat.div_mod_eq (idx / d / d) d) as E3.
  assert (idx / d / d / d < nc) as Hc.
  { apply Nat.Div0.div_lt_upper_bound.
    apply Nat.Div0.div_lt_upper_bound.
    apply Nat.Div0.div_lt_upper_bound. lia. }
  rewrite (Nat.mod_small _ nc Hc).
  repeat split; try done. nia.
Qed.

Section DetectionSoundness.

Context (B : Backend).

Lemma ranked_voxels_scored self grid channels resolution types :
  ranked_voxels B self grid channels resolution types
  = exclude_exhausted self types
      (apply_threshold self
         (unravel (n_channels grid) (grid_dim grid) <$>
          sort_descending (flat (scored_grid B self grid channels
                                   resolution)))).
Proof.
  unfold ranked_voxels, scored_grid. by destruct (peak_value self).
Qed.

Lemma sort_descending_lookup (l : list Q) v i :
  (v, i) ∈ sort_descending l → l !! i = Some v.
Proof.
  unfold sort_descending. rewrite merge_sort_Permutation.
  intros H. apply elem_of_lookup_imap in H as (j & x & [= -> ->] & Hx).
  done.
Qed.

Lemma apply_threshold_above self vs t :
  threshold self = Some t →
  Forall (λ v, t < vx_value v)%Q (apply_threshold self vs).
Proof.
  intros Ht. unfold apply_threshold. rewrite Ht.
  apply Forall_forall. intros v Hv.
  apply list_elem_of_filter in Hv as [Hv _]. by apply Qltb_lt.
Qed.

Lemma exclude_exhausted_left self types vs vs' :
  constrain_types self = true →
  exclude_exhausted self types vs = Some vs' →
  Forall (λ v, ∃ n, types !! vx_c v = Some n ∧ (0 < n)%Q) vs'.
Proof.
  intros Hc. unfold exclude_exhausted. rewrite Hc.
  destruct (gather types (vx_c <$> vs)) as [left|] eqn:Hg; simpl; [|done].
  intros [= <-]. apply Forall_forall. intros v Hv.
  apply list_elem_of_lookup in Hv as [k Hk].
  apply mask_select_lookup in Hk as (i & Hi & Hm).
  rewrite list_lookup_fmap in Hm.
  destruct (left !! i) as [n|] eqn:Hn; simpl in Hm; [|done].
  exists n. split.
  - rewrite <- Hn. symmetry. eapply gather_lookup; [exact Hg|].
    by rewrite list_lookup_fmap, Hi.
  - apply Qltb_lt. congruence.
Qed.

(** X4: every atom that [detect_atoms] returns sits on a grid point of the
    input grid, carries the one-hot vector of that point's channel, has a
    score above the threshold (when one is set), and belongs to a type
    with atoms left (when types are constrained). *)
Theorem detect_atoms_sound self grid channels center resolution types xyz c :
  let nc := n_channels grid in
  let d := grid_dim grid in
  let scores := scored_grid B self grid channels resolution in
  0 < d → length (flat scores) = nc * (d * (d * d)) →
  detect_atoms B self grid channels center resolution types = Some (xyz, c) →
  Forall2 (λ p row,
             ∃ k, one_hot nc k = Some row
                  ∧ detected_from self scores nc d center resolution types
                      (p, k)) xyz c.
Proof.
  intros nc d scores Hd Hwf. unfold detect_atoms, surviving_atoms.
  rewrite ranked_voxels_scored. fold scores nc d.
  destruct (exclude_exhausted _ _ _) as [ranked|] eqn:Hr; simpl; [|done].
  destruct (suppress self channels _) as [survivors|] eqn:Hs; simpl; [|done].
  unfold F_one_hot. destruct (decide (nc = 0)) as [|_]; [done|].
  destruct (mapM _ _) as [c'|] eqn:Hc; simpl; [|done].
  intros [= <- <-].
  assert (Forall (detected_from self scores nc d center resolution types)
            (limit self survivors)) as Hall.
  { eapply Forall_sublist.
    { unfold limit. case_bool_decide; [apply sublist_take|reflexivity]. }
    eapply Forall_sublist; [eapply suppress_sublist; exact Hs|].
    apply Forall_fmap.
    pose proof (exclude_exhausted_sublist self types _ _ Hr) as Hsub1.
    pose proof (apply_threshold_sublist self
                  (unravel nc d <$> sort_descending (flat scores))) as Hsub2.
    apply Forall_forall. intros u Hu.
    assert (u ∈ unravel nc d <$> sort_descending (flat scores)) as Hin.
    { eapply elem_of_sublist; [exact Hu|]. by etrans. }
    apply list_elem_of_fmap in Hin as ([v idx] & -> & Hin).
    apply sort_descending_lookup in Hin.
    pose proof (lookup_lt_Some _ _ _ Hin) as Hlt. rewrite Hwf in Hlt.
    destruct (unravel_ravel nc d v idx Hd Hlt) as (H1 & H2 & H3 & H4 & H5).
    exists (vx_idx (unravel nc d (v, idx))), v.
    repeat split; try done.
    - unfold to_atom. cbn [snd]. rewrite H5. exact Hin.
    - intros t Ht.
      pose proof (apply_threshold_above self
                    (unravel nc d <$> sort_descending (flat scores)) t Ht)
        as Hab.
      rewrite Forall_forall in Hab.
      apply (Hab (unravel nc d (v, idx))).
      eapply elem_of_sublist; [exact Hu|exact Hsub1].
    - intros Hct.
      pose proof (exclude_exhausted_left self types _ _ Hct Hr) as He.
      rewrite Forall_forall in He. apply (He _ Hu). }
  apply mapM_Some in Hc.
  apply Forall2_fmap_l.
  apply Forall2_fmap_l in Hc.
  revert Hc Hall. generalize (limit self survivors). intros l Hc.
  induction Hc as [|[p k] row l c' Hoh _ IH]; intros Hall; constructor.
  - apply Forall_cons in Hall as [Hdet _]. simpl in *. by exists k.
  - apply Forall_cons in Hall as [_ Hall]. by apply IH.
Qed.

End DetectionSoundness.

Lemma voxel_coord_inj center resolution d i i' :
  ¬ (resolution == 0)%Q →
  voxel_coord center resolution d i = voxel_coord center resolution d i' →
  i = i'.
Proof.
  intros Hres. destruct center as [[cx cy] cz].
  destruct i as [[ix iy] iz], i' as [[ix' iy'] iz']. simpl.
  assert (∀ c k k',
    (c - resolution * (inject_Z (Z.of_nat d) - 1) / 2
     + resolution * inject_Z (Z.of_nat k))%Q
    = (c - resolution * (inject_Z (Z.of_nat d) - 1) / 2
       + resolution * inject_Z (Z.of_nat k'))%Q → k = k') as Hinj.
  { intros c k k' E.
    assert (resolution * (inject_Z (Z.of_nat k) - inject_Z (Z.of_nat k'))
            == 0)%Q as Hz.
    { assert (Hq := Qeq_refl (c - resolution * (inject_Z (Z.of_nat d) - 1) / 2
                     + resolution * inject_Z (Z.of_nat k))%Q).
      rewrite E in Hq at 2. lra. }
    apply Qmult_integral in Hz as [Hz|Hz]; [done|].
    assert (inject_Z (Z.of_nat k) == inject_Z (Z.of_nat k'))%Q as Hk by lra.
    unfold Qeq in Hk. simpl in Hk. lia. }
  intros E.
  pose proof (f_equal (λ p : vec3, p.1.1) E) as E1.
  pose proof (f_equal (λ p : vec3, p.1.2) E) as E2.
  pose proof (f_equal (λ p : vec3, p.2) E) as E3.
  cbn [fst snd] in E1, E2, E3.
  apply Hinj in E1, E2, E3. by subst.
Qed.

Lemma one_hot_inj nc k k' row :
  one_hot nc k = Some row → one_hot nc k' = Some row → k = k'.
Proof.
  unfold one_hot. case_decide as Hk; [|done]. case_decide as Hk'; [|done].
  intros [= <-] [= E].
  assert (((λ j, if decide (j = k') then 1%Q else 0%Q) <$> seq 0 nc) !! k
          = ((λ j, if decide (j = k) then 1%Q else 0%Q) <$> seq 0 nc) !! k)
    as Hl by (by rewrite E).
  rewrite !list_lookup_fmap, lookup_seq_lt in Hl by done. simpl in Hl.
  rewrite (decide_True (P := k = k)) in Hl by done.
  destruct (decide (k = k')); [done|]. by injection Hl.
Qed.

Lemma sort_descending_indices (l : list Q) :
  (sort_descending l).*2 ≡ₚ seq 0 (length l).
Proof.
  unfold sort_descending. rewrite merge_sort_Permutation.
  assert (∀ n, (imap (λ i v, (v, n + i)) l).*2 = seq n (length l)) as H.
  { induction l as [|x l IH]; intros n; simpl; [done|].
    rewrite Nat.add_0_r. f_equal.
    rewrite <- (IH (S n)). f_equal. apply imap_ext.
    intros i y _. simpl. f_equal. lia. }
  by rewrite <- (H 0).
Qed.

Section DetectionDistinct.

Context (B : Backend).

(** X5: [detect_atoms] returns no grid point twice: on a grid of non-zero
    resolution the returned atoms (coordinate and type vector) are
    pairwise distinct. *)
Theorem detect_atoms_distinct self grid channels center resolution types
    xyz c :
  let nc := n_channels grid in
  let d := grid_dim grid in
  let scores := scored_grid B self grid channels resolution in
  0 < d → length (flat scores) = nc * (d * (d * d)) →
  ¬ (resolution == 0)%Q →
  detect_atoms B self grid channels center resolution types = Some (xyz, c) →
  length xyz = length c ∧ NoDup (zip xyz c).
Proof.
  intros nc d scores Hd Hwf Hres. unfold detect_atoms, surviving_atoms.
  rewrite ranked_voxels_scored. fold scores nc d.
  destruct (exclude_exhausted _ _ _) as [ranked|] eqn:Hr; simpl; [|done].
  destruct (suppress self channels _) as [survivors|] eqn:Hs; simpl; [|done].
  unfold F_one_hot. destruct (decide (nc = 0)) as [|_]; [done|].
  destruct (mapM _ _) as [c'|] eqn:Hc; simpl; [|done].
  intros [= <- <-].
  split.
  { apply length_mapM in Hc. by rewrite !length_fmap in *. }
  set (h := λ vi : Q * nat, to_atom center resolution d (unravel nc d vi)).
  assert (NoDup (h <$> sort_descending (flat scores))) as Hnd.
  { apply NoDup_fmap_2_strong.
    - intros [v i] [v' i'] Hin Hin' E.
      apply sort_descending_lookup in Hin, Hin'.
      pose proof (lookup_lt_Some _ _ _ Hin) as Hlt.
      pose proof (lookup_lt_Some _ _ _ Hin') as Hlt'.
      rewrite Hwf in Hlt, Hlt'.
      destruct (unravel_ravel nc d v i Hd Hlt) as (_ & _ & _ & _ & H5).
      destruct (unravel_ravel nc d v' i' Hd Hlt') as (_ & _ & _ & _ & H5').
      subst h. unfold to_atom in E.
      revert E H5 H5'.
      generalize (unravel nc d (v, i)) (unravel nc d (v', i')).
      intros u u' E H5 H5'.
      pose proof (f_equal fst E) as Ec. pose proof (f_equal snd E) as Ek.
      cbn [fst snd] in Ec, Ek.
      apply voxel_coord_inj in Ec; [|done].
      assert (i = i') as <- by (by rewrite <- H5, <- H5', Ec, Ek).
      f_equal. congruence.
    - apply (NoDup_fmap_1 snd).
      rewrite sort_descending_indices. apply NoDup_seq. }
  assert (NoDup (limit self survivors)) as Hl.
  { eapply sublist_NoDup; [exact Hnd|].
    etrans.
    { unfold limit. case_bool_decide; [apply sublist_take|reflexivity]. }
    etrans; [eapply suppress_sublist; exact Hs|].
    subst h.
    change (λ vi : Q * nat, to_atom center resolution d (unravel nc d vi))
      with (to_atom center resolution d ∘ unravel nc d).
    rewrite (list_fmap_compose (unravel nc d)).
    apply fmap_sublist. etrans.
    - eapply exclude_exhausted_sublist; exact Hr.
    - apply apply_threshold_sublist. }
  apply mapM_Some in Hc. revert Hc Hl.
  generalize (limit self survivors). intros l Hc. revert c' Hc.
  induction l as [|[p k] l IH]; intros c' Hc Hl.
  - apply Forall2_nil_inv_l in Hc as ->. constructor.
  - rewrite fmap_cons in Hc.
    apply Forall2_cons_inv_l in Hc as (row & c'' & Hoh & Hc & ->).
    apply NoDup_cons in Hl as [Hnotin Hl]. simpl.
    constructor; [|by apply IH].
    intros Hin. apply Hnotin.
    apply list_elem_of_lookup in Hin as [j Hj].
    apply lookup_zip_with_Some in Hj as (p' & row' & [= <- <-] & Hp & Hrow).
    rewrite list_lookup_fmap in Hp.
    destruct (l !! j) as [[p'' k'']|] eqn:Hlj; simpl in Hp; [|done].
    injection Hp as ->.
    destruct (Forall2_lookup_l _ _ _ j k'' Hc) as (row'' & Hrow'' & Hoh'').
    { by rewrite list_lookup_fmap, Hlj. }
    assert (row'' = row) as -> by congruence.
    simpl in Hoh. pose proof (one_hot_inj _ _ _ _ Hoh Hoh'') as Ek.
    subst k''. by eapply list_elem_of_lookup_2.
Qed.

End DetectionDistinct.


Lemma detect_atoms_sound_witness :
  Forall2 (λ p row,
             ∃ k, one_hot 1 k = Some row
                  ∧ detected_from ramp2_detector
                      (scored_grid toy_backend ramp2_detector (ramp 2)
                         [carbon] 2%Q)
                      1 2 (0, 0, 0)%Q 2%Q [] (p, k))
    ramp2_detected.1 ramp2_detected.2.
Proof.
  apply (detect_atoms_sound toy_backend ramp2_detector (ramp 2) [carbon]
           (0, 0, 0)%Q 2%Q []).
  - simpl. lia.
  - reflexivity.
  - vm_compute. reflexivity.
Defined.

Lemma detect_atoms_distinct_witness :
  length ramp2_detected.1 = length ramp2_detected.2
  ∧ NoDup (zip ramp2_detected.1 ramp2_detected.2).
Proof.
  apply (detect_atoms_distinct toy_backend ramp2_detector (ramp 2) [carbon]
           (0, 0, 0)%Q 2%Q []).
  - simpl. lia.
  - reflexivity.
  - vm_compute. discriminate.
  - vm_compute. reflexivity.
Defined.

(** ** Invariants of the search loop *)


Lemma obj_le_refl a : obj_le a a.
Proof.
  apply obj_le_alt. right. destruct a; simpl; [reflexivity|split; reflexivity].
Qed.

Lemma obj_le_trans a b c : obj_le a b → obj_le b c → obj_le a c.
Proof.
  rewrite !obj_le_alt. intros [H1|H1] [H2|H2].
  - left. eapply obj_lt_trans; eauto.
  - left. eapply obj_lt_eq; eauto.
  - left. eapply obj_eq_lt; eauto.
  - right. eapply obj_eq_trans; eauto.
Qed.

Lemma slice_to_sublist {A} n (l : list A) : slice_to n l `sublist_of` l.
Proof. unfold slice_to. case_bool_decide; apply sublist_take. Qed.

Lemma head_StronglySorted_le (l : list struct_entry) e' e :
  StronglySorted struct_le l → head l = Some e' → e ∈ l →
  obj_le (s_objective e') (s_objective e).
Proof.
  intros Hs Hh He. destruct l as [|x l]; [done|]. injection Hh as ->.
  apply StronglySorted_inv in Hs as [_ Hall].
  apply elem_of_cons in He as [->|He]; [apply obj_le_refl|].
  apply struct_le_obj_le. rewrite Forall_forall in Hall. by apply Hall.
Qed.

Section SearchInvariants.

Context (B : Backend).

Lemma try_expansion_ids self grid types st id xyz c st' acc :
  try_expansion B self grid types st id xyz c = Some (st', acc) →
  ids_fresh st →
  ids_fresh st' ∧ best_structs st' = best_structs st
  ∧ struct_count st ≤ struct_count st'.
Proof.
  unfold try_expansion, ids_fresh.
  destruct (fit_gd _ _ _ _ _ _) as [[[[x gp] gd] fl]|]; simpl; [|done].
  destruct (is_new_best _ _).
  - destruct (detect_atoms _ _ _ _ _ _ _) as [[xn cn]|]; simpl; [|done].
    intros [= <- <-] [Hnd Hlt]. simpl.
    split; [|split; [done|lia]].
    rewrite app_assoc. split.
    + rewrite fmap_app. simpl. apply NoDup_app. split; [done|].
      split; [|apply NoDup_singleton].
      intros i Hi Hi'. apply list_elem_of_singleton in Hi'. subst i.
      apply list_elem_of_fmap in Hi as (s & Hs & Hin).
      rewrite Forall_forall in Hlt. specialize (Hlt _ Hin). lia.
    + apply Forall_app. split.
      * eapply Forall_impl; [exact Hlt|]. simpl. intros; lia.
      * repeat constructor.
  - intros [= <- <-] [Hnd Hlt]. simpl. done.
Qed.

Lemma expand_single_ids self grid types s : ∀ nexts st st',
  foldl (λ st next,
           st ← st;
           fst <$> try_expansion B self grid types st (s_id s)
                     (s_xyz s ++ [next.1]) (s_c s ++ [next.2]))
        (Some st) nexts = Some st' →
  ids_fresh st →
  ids_fresh st' ∧ best_structs st' = best_structs st
  ∧ struct_count st ≤ struct_count st'.
Proof.
  induction nexts as [|next nexts IH]; intros st st'; cbn [foldl].
  - intros [= <-]. done.
  - simpl.
    destruct (try_expansion _ _ _ _ _ _ _ _) as [[st1 acc]|] eqn:Ht; simpl.
    + intros H Hf. apply try_expansion_ids in Ht as (Hf1 & Hb1 & Hc1); [|done].
      destruct (IH _ _ H Hf1) as (? & ? & ?).
      split; [done|]. split; [congruence|lia].
    + intros H. exfalso. revert H. clear.
      induction nexts; simpl; [done|auto].
Qed.

Lemma expand_struct_ids self grid types st s st' :
  expand_struct B self grid types (Some st) s = Some st' →
  ids_fresh st →
  ids_fresh st' ∧ best_structs st' = best_structs st
  ∧ struct_count st ≤ struct_count st'.
Proof.
  unfold expand_struct. simpl. case_decide as Hexp.
  { intros [= <-]. done. }
  intros H Hf.
  assert (∃ st1 (single : bool),
    ids_fresh st1 ∧ best_structs st1 = best_structs st
    ∧ struct_count st ≤ struct_count st1
    ∧ (if single then expand_single B self grid types s st1 else Some st1)
      ≫= (λ st,
       Some {| best_structs := best_structs st;
               new_best_structs := new_best_structs st;
               found_new_best_struct := found_new_best_struct st;
               expanded_ids := {[s_id s]} ∪ expanded_ids st;
               visited_structs := visited_structs st;
               struct_count := struct_count st;
               xyz_new := xyz_new st |}) = Some st')
    as (st1 & single & Hf1 & Hb1 & Hc1 & Hq).
  { destruct (multi_atom self).
    - destruct (try_expansion _ _ _ _ _ _ _ _) as [[st1 acc]|] eqn:Ht;
        simpl in H; [|done].
      apply try_expansion_ids in Ht as (? & ? & ?); [|done].
      exists st1, (negb acc). done.
    - exists st, true. done. }
  destruct single.
  - destruct (expand_single B self grid types s st1) as [st2|] eqn:Hs;
      simpl in Hq; [|done].
    apply expand_single_ids in Hs as (Hf2 & Hb2 & Hc2); [|done].
    injection Hq as <-. unfold ids_fresh in *. simpl.
    split; [done|]. split; [congruence|lia].
  - simpl in Hq. injection Hq as <-. unfold ids_fresh in *. simpl. done.
Qed.

Lemma foldl_expand_struct_ids self grid types : ∀ l st st',
  foldl (expand_struct B self grid types) (Some st) l = Some st' →
  ids_fresh st →
  ids_fresh st' ∧ best_structs st' = best_structs st
  ∧ struct_count st ≤ struct_count st'.
Proof.
  induction l as [|s l IH]; intros st st'; cbn [foldl].
  - intros [= <-]. done.
  - destruct (expand_struct B self grid types (Some st) s) as [st1|] eqn:H1.
    + intros H Hf. apply expand_struct_ids in H1 as (Hf1 & Hb1 & Hc1); [|done].
      destruct (IH _ _ H Hf1) as (? & ? & ?).
      split; [done|]. split; [congruence|lia].
    + by rewrite foldl_expand_struct_None.
Qed.

(** One iteration of the while loop keeps the pool well-formed and the
    log growing, and never worsens the best objective. *)
Lemma search_pass_inv self grid types st st2 :
  search_pass B self grid types st = Some st2 →
  pool_inv self st →
  pool_inv self st2 ∧ no_worse st st2
  ∧ visited_structs st `prefix_of` visited_structs st2
  ∧ struct_count st ≤ struct_count st2.
Proof.
  unfold search_pass. intros H Hinv.
  destruct (expand_pool B self grid types st) as [st1|] eqn:Hp;
    simpl in H; [|done].
  destruct Hinv as [Hne Hsorted Hnd Hcount Hbeam].
  pose proof Hp as Hp'. unfold expand_pool in Hp'.
  apply foldl_expand_struct_ids in Hp' as ([Hnd1 Hlt1] & Hb1 & Hc1).
  2: { unfold ids_fresh. simpl. by rewrite !app_nil_r. }
  simpl in Hb1, Hc1.
  apply expand_pool_steps in Hp as (attempts & _ & Hv & _ & _ & _).
  revert H. unfold select_best.
  destruct (found_new_best_struct st1).
  - destruct (head (slice_to _ _)) as [e0|] eqn:Hhead; simpl; [|done].
    destruct (xyz_new st1) as [last_xyz|]; simpl; [|done].
    intros [= <-]. simpl.
    destruct (sorted_spec (best_structs st1 ++ new_best_structs st1))
      as [Hss Hperm].
    pose proof (slice_to_sublist (beam_size self)
                  (sorted (best_structs st1 ++ new_best_structs st1)))
      as Hsub.
    split; [split; simpl|split; [|split]].
    + intros E. by rewrite E in Hhead.
    + eapply StronglySorted_sublist; eauto.
    + eapply sublist_NoDup; [|apply fmap_sublist; exact Hsub].
      by rewrite Hperm.
    + eapply Forall_sublist; [exact Hsub|]. by rewrite Hperm.
    + intros Hb. unfold slice_to. rewrite bool_decide_eq_true_2 by lia.
      rewrite length_take. lia.
    + intros e e' He' He. simpl in He'.
      eapply head_StronglySorted_le.
      * exact Hss.
      * eapply head_slice_to. exact He'.
      * rewrite Hperm, Hb1. apply elem_of_app. by left.
    + simpl. rewrite Hv. by apply prefix_app_r.
    + simpl. lia.
  - intros [= <-].
    split; [split|split; [|split]]; rewrite ?Hb1; try done.
    + eapply Forall_impl; [exact Hcount|]. simpl. intros; lia.
    + intros e e' He' He. rewrite Hb1 in He'.
      by eapply head_StronglySorted_le.
    + rewrite Hv. by apply prefix_app_r.
Qed.

Lemma fit_init_inv self grid types st0 :
  fit_init B self grid types = Some st0 →
  pool_inv self st0
  ∧ ∃ e0, best_structs st0 = [e0]
          ∧ s_objective e0 = initial_objective B self grid types
          ∧ s_xyz e0 = [] ∧ s_c e0 = [].
Proof.
  unfold fit_init.
  destruct (detect_atoms _ _ _ _ _ _ _) as [[xn cn]|]; simpl; [|done].
  intros [= <-]. split; [split; simpl|].
  - done.
  - repeat constructor.
  - repeat constructor. set_solver.
  - repeat constructor.
  - lia.
  - eexists. split; [reflexivity|]. done.
Qed.

Lemma search_inv self grid types fuel : ∀ st st',
  search B self grid types fuel st = Some st' →
  pool_inv self st →
  pool_inv self st' ∧ no_worse st st'
  ∧ visited_structs st `prefix_of` visited_structs st'
  ∧ struct_count st ≤ struct_count st'
  ∧ found_new_best_struct st' = false.
Proof.
  induction fuel as [|fuel IH]; intros st st'; simpl.
  - destruct (found_new_best_struct st) eqn:Hf; [done|].
    intros [= <-] Hinv. split; [done|]. split; [|done].
    intros e e' He' He. eapply head_StronglySorted_le; eauto.
    by destruct Hinv.
  - destruct (found_new_best_struct st) eqn:Hf.
    + destruct (search_pass B self grid types st) as [st1|] eqn:Hp;
        simpl; [|done].
      intros H Hinv.
      destruct (search_pass_inv _ _ _ _ _ Hp Hinv) as (Hinv1 & Hw1 & Hv1 & Hc1).
      destruct (IH _ _ H Hinv1) as (Hinv2 & Hw2 & Hv2 & Hc2 & Hf2).
      split; [done|]. split; [|split; [by etrans|split; [lia|done]]].
      intros e e' He' He.
      destruct (head (best_structs st1)) as [e1|] eqn:Hh1.
      2: { destruct Hinv1 as [Hne1 _ _ _ _].
           destruct (best_structs st1); done. }
      eapply obj_le_trans.
      * apply (Hw2 e1 e' He'). destruct (best_structs st1); [done|].
        injection Hh1 as ->. by left.
      * by apply (Hw1 e e1).
    + intros [= <-] Hinv. split; [done|]. split; [|done].
      intros e e' He' He. eapply head_StronglySorted_le; eauto.
      by destruct Hinv.
Qed.

(** X7: throughout the search of [fit] the pool of best structures is never
    empty, stays sorted by objective and id, holds pairwise distinct ids
    below the counter, and holds at most [beam_size] structures when
    [beam_size >= 1]; the log of visited structures only grows; and the
    loop ends with its flag cleared. *)
Theorem search_keeps_pool self grid types fuel st0 st :
  fit_init B self grid types = Some st0 →
  search B self grid (fit_types B self grid types) fuel st0 = Some st →
  best_structs st ≠ []
  ∧ StronglySorted struct_le (best_structs st)
  ∧ NoDup (s_id <$> best_structs st)
  ∧ Forall (λ s, s_id s < struct_count st) (best_structs st)
  ∧ ((1 ≤ beam_size self)%Z →
     (Z.of_nat (length (best_structs st)) ≤ beam_size self)%Z)
  ∧ visited_structs st0 `prefix_of` visited_structs st
  ∧ found_new_best_struct st = false.
Proof.
  intros Hi Hs. apply fit_init_inv in Hi as [Hinv _].
  destruct (search_inv _ _ _ _ _ _ Hs Hinv)
    as ([? ? ? ? ?] & _ & ? & _ & ?).
  repeat split; done.
Qed.

(** X8: the search never ends on a structure worse than the empty one: the
    objective of the best structure it ends with is at most the
    objective that [fit] gave to the initial, empty structure. *)
Theorem search_never_worsens self grid types fuel st0 st :
  fit_init B self grid types = Some st0 →
  search B self grid (fit_types B self grid types) fuel st0 = Some st →
  ∃ best,
    head (best_structs st) = Some best
    ∧ obj_le (s_objective best) (initial_objective B self grid types)
    ∧ ∀ e, e ∈ best_structs st →
        obj_le (s_objective best) (s_objective e).
Proof.
  intros Hi Hs. apply fit_init_inv in Hi as [Hinv (e0 & Hb0 & Ho0 & _)].
  destruct (search_inv _ _ _ _ _ _ Hs Hinv)
    as ([Hne Hsorted _ _ _] & Hw & _).
  destruct (best_structs st) as [|best rest] eqn:Hb; [done|].
  exists best. split; [done|]. split.
  - rewrite <- Ho0. apply (Hw e0 best); [by rewrite Hb|].
    rewrite Hb0. by left.
  - intros e He. eapply head_StronglySorted_le; [exact Hsorted|done|done].
Qed.

End SearchInvariants.

Lemma sqdist_sym p q : (sqdist p q == sqdist q p)%Q.
Proof.
  destruct p as [[px py] pz], q as [[qx qy] qz]. unfold sqdist, Qsq. simpl.
  ring.
Qed.

Lemma pair_cost_sym ps qs : (pair_cost ps qs == pair_cost qs ps)%Q.
Proof.
  unfold pair_cost. revert qs.
  induction ps as [|p ps IH]; intros [|q qs]; simpl; try reflexivity.
  by rewrite IH, sqdist_sym.
Qed.

Lemma min_cost_le_sym ps ps' qs qs' v v' :
  ps ≡ₚ ps' → qs ≡ₚ qs' → length ps = length qs →
  min_cost ps qs v → min_cost qs' ps' v' → (v <= v')%Q.
Proof.
  intros HP HQ Hl [_ Hmin] [(ps1 & HP1 & ->) _].
  destruct (zip_Permutation_l ps1 ps qs') as (qs2 & HQ2 & Hz).
  { by rewrite HP1, HP. }
  { rewrite HP1, <- HP, <- HQ. done. }
  rewrite pair_cost_sym.
  assert (pair_cost ps qs2 == pair_cost ps1 qs')%Q as <-.
  { unfold pair_cost.
    rewrite (zip_with_uncurry sqdist ps qs2),
      (zip_with_uncurry sqdist ps1 qs').
    apply Qsum_Permutation. by apply fmap_Permutation. }
  apply Hmin. by rewrite HQ2, HQ.
Qed.

Lemma min_cost_sym ps ps' qs qs' v v' :
  ps ≡ₚ ps' → qs ≡ₚ qs' → length ps = length qs →
  min_cost ps qs v → min_cost qs' ps' v' → (v == v')%Q.
Proof.
  intros HP HQ Hl H H'. apply Qle_antisym.
  - by apply (min_cost_le_sym ps ps' qs qs').
  - apply (min_cost_le_sym qs' qs ps' ps); try done.
    by rewrite <- HP, <- HQ.
Qed.

Section MinRmsdSymmetry.

Variable lsa : list (list Q) → result (list nat * list nat).
Variable np_sqrt : Q → Q.

(** X10: [get_min_rmsd] is symmetric in its two structures: swapping them
    gives the same exception or the same value. *)
Theorem get_min_rmsd_symmetric atoms1 atoms2 :
  lsa_optimal lsa → Proper (Qeq ==> Qeq) np_sqrt →
  result_equiv (min_rmsd_of lsa np_sqrt atoms1 atoms2)
    (min_rmsd_of lsa np_sqrt atoms2 atoms1).
Proof.
  intros lsa_ok np_sqrt_proper. unfold min_rmsd_of.
  destruct (decide (length atoms1.*2 = length atoms2.*2)) as [E|E].
  2: { rewrite (get_min_rmsd_length lsa np_sqrt _ _ _ _ E).
       rewrite get_min_rmsd_length by lia. done. }
  destruct (decide (atoms1.*2 ≡ₚ atoms2.*2)) as [Hp|Hp].
  2: { rewrite (get_min_rmsd_histogram lsa np_sqrt _ _ _ _ E Hp).
       rewrite get_min_rmsd_histogram; [done|lia|].
       intros Hp'. apply Hp. by symmetry. }
  destruct (get_min_rmsd_compatible lsa np_sqrt lsa_ok
              atoms1.*1 atoms1.*2 atoms2.*1 atoms2.*2
              ltac:(by rewrite !length_fmap)
              ltac:(by rewrite !length_fmap) Hp)
    as (X1 & X2 & costs & Hz1 & Hz2 & HX1 & HX2 & HF & ->).
  destruct (get_min_rmsd_compatible lsa np_sqrt lsa_ok
              atoms2.*1 atoms2.*2 atoms1.*1 atoms1.*2
              ltac:(by rewrite !length_fmap)
              ltac:(by rewrite !length_fmap) (symmetry Hp))
    as (X2' & X1' & costs' & Hz2' & Hz1' & HX2' & HX1' & HF' & ->).
  rewrite <- E.
  destruct (decide (length atoms1.*2 = 0)); [done|]. simpl.
  apply np_sqrt_proper.
  assert (sorted_labels atoms2.*2 = sorted_labels atoms1.*2) as Hs.
  { symmetry. by apply sorted_labels_eq_iff. }
  rewrite Hs in *.
  rewrite !zip_fst_snd in *.
  apply Qmult_comp; [|reflexivity].
  apply foldl_Qplus_proper; [|reflexivity].
  eapply Forall2_join_l; [exact HF|exact HF'|].
  intros c v v' _ Hv Hv'.
  eapply min_cost_sym; [| | |exact Hv|exact Hv'].
  - rewrite !class_points_Permutation by eassumption. done.
  - rewrite !class_points_Permutation by eassumption. done.
  - rewrite !class_points_length by done. done.
Qed.

End MinRmsdSymmetry.

Lemma get_min_rmsd_symmetric_witness :
  lsa_optimal lsa_brute ∧ Proper (Qeq ==> Qeq) sqrt_floor
  ∧ min_rmsd_of lsa_brute sqrt_floor pts_a pts_c
    = Return (sqrt_floor (5 / 3))
  ∧ result_equiv (min_rmsd_of lsa_brute sqrt_floor pts_a pts_c)
      (min_rmsd_of lsa_brute sqrt_floor pts_c pts_a).
Proof.
  split; [exact lsa_brute_optimal|].
  split; [exact sqrt_floor_proper|].
  split; [vm_compute; reflexivity|].
  exact (get_min_rmsd_symmetric lsa_brute sqrt_floor pts_a pts_c
           lsa_brute_optimal sqrt_floor_proper).
Defined.

(** ** The value of [get_min_rmsd] is a minimum *)


Lemma Qsum_cons (x : Q) (l : list Q) : Qsum (x :: l) = (x + Qsum l)%Q.
Proof. reflexivity. Qed.

Lemma Qsum_fmap_ext {A} (f g : A → Q) (D : list A) :
  (∀ c, c ∈ D → (f c == g c)%Q) → (Qsum (f <$> D) == Qsum (g <$> D))%Q.
Proof.
  induction D as [|c D IH]; intros H; [reflexivity|].
  rewrite !fmap_cons, !Qsum_cons.
  rewrite (H c) by left. rewrite IH; [reflexivity|].
  intros c' Hc'. apply H. by right.
Qed.

Lemma Qsum_fmap_plus {A} (f g : A → Q) (D : list A) :
  (Qsum ((λ c, f c + g c) <$> D) == Qsum (f <$> D) + Qsum (g <$> D))%Q.
Proof.
  induction D as [|c D IH]; [reflexivity|].
  rewrite !fmap_cons, !Qsum_cons, IH. ring.
Qed.

Lemma Qsum_indicator (x : nat) (a : Q) (D : list nat) :
  NoDup D →
  (Qsum ((λ c, if decide (x = c) then a else 0) <$> D)
   == if decide (x ∈ D) then a else 0)%Q.
Proof.
  induction 1 as [|c D Hc Hnd IH].
  - rewrite decide_False by apply not_elem_of_nil. reflexivity.
  - rewrite fmap_cons, Qsum_cons, IH. destruct (decide (x = c)) as [->|Hne].
    + rewrite (decide_True (P := c ∈ c :: D)) by left.
      rewrite decide_False by done. ring.
    + destruct (decide (x ∈ D)).
      * rewrite (decide_True (P := x ∈ c :: D)) by (by right). ring.
      * rewrite (decide_False (P := x ∈ c :: D)); [ring|].
        by apply not_elem_of_cons.
Qed.

Lemma class_points_cons c p xyz x s :
  class_points c (p :: xyz) (x :: s)
  = (if decide (x = c) then [p] else []) ++ class_points c xyz s.
Proof.
  unfold class_points. rewrite fmap_cons, mask_select_cons.
  destruct (decide (x = c)).
  - by rewrite bool_decide_eq_true_2.
  - by rewrite bool_decide_eq_false_2.
Qed.

Lemma class_points_nil c s : class_points c [] s = [].
Proof. unfold class_points. apply mask_select_nil_r. Qed.

(** The cost of a pairing that respects the types is the sum of its costs
    within each type. *)
Lemma pair_cost_classes (D : list nat) (s : list nat) : ∀ ps qs : list vec3,
  NoDup D → (∀ x, x ∈ s → x ∈ D) →
  length ps = length s → length qs = length s →
  (pair_cost ps qs
   == Qsum ((λ c, pair_cost (class_points c ps s) (class_points c qs s))
            <$> D))%Q.
Proof.
  induction s as [|x s IH]; intros ps qs Hnd Hin Hp Hq.
  - destruct ps, qs; try done. unfold pair_cost at 1. simpl.
    rewrite (Qsum_fmap_ext _ (λ _, 0%Q)).
    + clear. induction D; simpl; [reflexivity|]. rewrite <- IHD. ring.
    + intros c _. by rewrite !class_points_nil.
  - destruct ps as [|p ps], qs as [|q qs]; try done.
    simpl in Hp, Hq.
    rewrite (Qsum_fmap_ext _
      (λ c, (if decide (x = c) then sqdist p q else 0)
            + pair_cost (class_points c ps s) (class_points c qs s))%Q).
    2: { intros c _. rewrite !class_points_cons.
         destruct (decide (x = c)); simpl.
         - unfold pair_cost. simpl. reflexivity.
         - ring. }
    rewrite Qsum_fmap_plus, Qsum_indicator by done.
    rewrite decide_True by (apply Hin; left).
    assert (∀ y, y ∈ s → y ∈ D) as Hin' by (intros y Hy; apply Hin; by right).
    rewrite <- (IH ps qs Hnd Hin' ltac:(lia) ltac:(lia)).
    unfold pair_cost. simpl. reflexivity.
Qed.

Lemma foldl_Qplus_Qsum (k : list Q) : (foldl Qplus 0 k == Qsum k)%Q.
Proof.
  assert (∀ a : Q, foldl Qplus a k == a + Qsum k)%Q as H.
  { induction k as [|x k IH]; intros a; simpl; [ring|].
    rewrite IH. ring. }
  rewrite H. ring.
Qed.

Lemma Forall2_Qsum_le {A} (R : A → Q → Prop) (h : A → Q) D costs :
  Forall2 R D costs → (∀ c v, c ∈ D → R c v → (v <= h c)%Q) →
  (Qsum costs <= Qsum (h <$> D))%Q.
Proof.
  induction 1 as [|c v D costs Hc _ IH]; intros Hle; simpl; [apply Qle_refl|].
  apply Qplus_le_compat.
  - apply Hle; [by left|done].
  - apply IH. intros c' v' Hc'. apply Hle. by right.
Qed.

Lemma Forall2_Qsum_eq {A} (R : A → Q → Prop) (h : A → Q) D costs :
  Forall2 R D costs → (∀ c v, c ∈ D → R c v → (v == h c)%Q) →
  (Qsum costs == Qsum (h <$> D))%Q.
Proof.
  induction 1 as [|c v D costs Hc _ IH]; intros Hle; simpl; [reflexivity|].
  rewrite (Hle c v); [|by left|done].
  rewrite IH; [reflexivity|]. intros c' v' Hc'. apply Hle. by right.
Qed.

(** Pairings seen as lists of labelled pairs. *)
Lemma zip_with_sqdist_labelled (ps : list vec3) (s : list nat) (qs : list vec3) :
  length ps = length s →
  zip_with sqdist ps qs
  = (λ t : vec3 * nat * vec3, sqdist t.1.1 t.2) <$> zip (zip ps s) qs.
Proof.
  revert s qs. induction ps as [|p ps IH]; intros [|x s] [|q qs] Hl;
    simpl in *; try done.
  f_equal. apply IH. lia.
Qed.

Lemma zip_relabel (ps : list vec3) (s : list nat) (qs : list vec3) :
  length ps = length s → length qs = length s →
  (λ t : vec3 * nat * vec3, (t.2, t.1.2)) <$> zip (zip ps s) qs = zip qs s.
Proof.
  revert s qs. induction ps as [|p ps IH]; intros [|x s] [|q qs] Hl Hl';
    simpl in *; try done.
  f_equal. apply IH; lia.
Qed.

Lemma scatter_length c : ∀ s new qs,
  length (scatter c new qs s) = length qs.
Proof.
  induction s as [|x s IH]; intros new [|q qs]; simpl; try done.
  destruct (decide (x = c)); [destruct new|]; simpl; by rewrite IH.
Qed.

Lemma count_type_cons c x s :
  count_type c (x :: s) = (if decide (x = c) then 1 else 0) + count_type c s.
Proof.
  unfold count_type. rewrite filter_cons. by destruct (decide (x = c)).
Qed.

Lemma scatter_class c : ∀ s new qs,
  length qs = length s → length new = count_type c s →
  class_points c (scatter c new qs s) s = new.
Proof.
  induction s as [|x s IH]; intros new [|q qs] Hq Hn; try done.
  - destruct new; done.
  - rewrite count_type_cons in Hn. cbn [scatter length] in *.
    destruct (decide (x = c)) as [->|Hne].
    + destruct new as [|n new]; [done|]. cbn [length] in Hn.
      rewrite class_points_cons, decide_True by done. simpl.
      f_equal. apply IH; lia.
    + rewrite class_points_cons, decide_False by done. simpl.
      apply IH; lia.
Qed.

Lemma scatter_other c c' : ∀ s new qs,
  c' ≠ c → length qs = length s →
  class_points c' (scatter c new qs s) s = class_points c' qs s.
Proof.
  induction s as [|x s IH]; intros new [|q qs] Hne Hq; simpl in *; try done.
  destruct (decide (x = c)) as [->|Hxc].
  - destruct new as [|n new]; rewrite !class_points_cons;
      rewrite !decide_False by done; simpl; apply IH; (done || lia).
  - rewrite !class_points_cons. f_equal. apply IH; (done || lia).
Qed.

Lemma filter_zip_class c : ∀ (qs : list vec3) (s : list nat),
  length qs = length s →
  filter (λ p : vec3 * nat, p.2 = c) (zip qs s)
  = (λ q, (q, c)) <$> class_points c qs s.
Proof.
  induction qs as [|q qs IH]; intros [|x s] Hl; simpl in *; try done.
  rewrite filter_cons, class_points_cons. simpl.
  destruct (decide (x = c)) as [->|Hne]; simpl; rewrite IH by lia; done.
Qed.

Lemma filter_zip_scatter_other c : ∀ s new (qs : list vec3),
  length qs = length s →
  filter (λ p : vec3 * nat, p.2 ≠ c) (zip (scatter c new qs s) s)
  = filter (λ p : vec3 * nat, p.2 ≠ c) (zip qs s).
Proof.
  induction s as [|x s IH]; intros new [|q qs] Hl; simpl in *; try done.
  destruct (decide (x = c)) as [->|Hne].
  - destruct new as [|n new]; simpl; rewrite !filter_cons; simpl;
      rewrite !decide_False by (by intros ?); apply IH; lia.
  - simpl. rewrite !filter_cons. simpl. rewrite !decide_True by done.
    f_equal. apply IH. lia.
Qed.

Lemma filter_split {A} (P : A → Prop) `{∀ x, Decision (P x)} (l : list A) :
  l ≡ₚ filter P l ++ filter (λ x, ¬ P x) l.
Proof.
  induction l as [|x l IH]; [done|].
  rewrite !filter_cons. destruct (decide (P x)).
  - rewrite decide_False by tauto. simpl. by constructor.
  - rewrite decide_True by done. rewrite <- Permutation_middle.
    by constructor.
Qed.

Lemma scatter_Permutation c s new (qs : list vec3) :
  length qs = length s → new ≡ₚ class_points c qs s →
  zip (scatter c new qs s) s ≡ₚ zip qs s.
Proof.
  intros Hl Hp.
  assert (length new = count_type c s) as Hn.
  { rewrite (Permutation_length Hp). by apply class_points_length. }
  rewrite (filter_split (λ p : vec3 * nat, p.2 = c) (zip (scatter _ _ _ _) s)).
  rewrite (filter_split (λ p : vec3 * nat, p.2 = c) (zip qs s)).
  rewrite filter_zip_scatter_other by done.
  rewrite !filter_zip_class by (rewrite ?scatter_length; done).
  rewrite scatter_class by done. by rewrite Hp.
Qed.

Lemma Forall2_impl_elem {A C} (R R' : A → C → Prop) l k :
  Forall2 R l k → (∀ x y, x ∈ l → R x y → R' x y) → Forall2 R' l k.
Proof.
  induction 1 as [|x y l k Hxy _ IH]; intros Himp; constructor.
  - apply Himp; [by left|done].
  - apply IH. intros x' y' Hx'. apply Himp. by right.
Qed.

(** Optimal pairings of the types can be put together to one pairing. *)
Lemma assemble_classes (X1 X2 : list vec3) (s : list nat) :
  length X1 = length s → length X2 = length s →
  ∀ D costs,
    NoDup D →
    Forall2 (λ c v, min_cost (class_points c X1 s) (class_points c X2 s) v)
      D costs →
    ∃ Q2, length Q2 = length s ∧ zip Q2 s ≡ₚ zip X2 s
      ∧ (∀ c, c ∉ D → class_points c Q2 s = class_points c X2 s)
      ∧ Forall2 (λ c v, v = pair_cost (class_points c X1 s)
                            (class_points c Q2 s)) D costs.
Proof.
  intros H1 H2 D costs Hnd HF. revert Hnd.
  induction HF as [|c v D costs Hc _ IH]; intros Hnd.
  - exists X2. repeat split; auto.
  - apply NoDup_cons in Hnd as [Hnotin Hnd].
    destruct (IH Hnd) as (Q2 & HlQ & Hperm & Hout & HF').
    destruct Hc as [(new & Hnew & ->) _].
    rewrite <- (Hout c Hnotin) in Hnew.
    exists (scatter c new Q2 s).
    split; [by rewrite scatter_length|]. split.
    { rewrite scatter_Permutation by done. done. }
    split.
    { intros c' Hc'. apply not_elem_of_cons in Hc' as [Hne Hc'].
      rewrite scatter_other by done. by apply Hout. }
    constructor.
    + rewrite scatter_class; [done|done|].
      rewrite (Permutation_length Hnew). by apply class_points_length.
    + eapply Forall2_impl_elem; [exact HF'|].
      intros c' v' Hc' ->. simpl.
      rewrite scatter_other; [done| |done].
      intros ->. done.
Qed.

Section MinRmsdMinimal.

Variable lsa : list (list Q) → result (list nat * list nat).
Variable np_sqrt : Q → Q.

(** X11: [get_min_rmsd] returns the root of the mean of the least total
    squared distance over all ways of pairing the atoms of the two structures
    type by type: some reordering of the second structure that lines its types
    up with the first attains it, and none goes below it. *)
Theorem get_min_rmsd_minimal (atoms1 atoms2 : list (vec3 * nat)) :
  lsa_optimal lsa → atoms1.*2 ≡ₚ atoms2.*2 → atoms1 ≠ [] →
  ∃ ssd,
    min_rmsd_of lsa np_sqrt atoms1 atoms2
    = Return (np_sqrt (ssd / inject_Z (Z.of_nat (length atoms1)))%Q)
    ∧ (∃ m, m ≡ₚ atoms2 ∧ m.*2 = atoms1.*2
            ∧ (ssd == pair_cost atoms1.*1 m.*1)%Q)
    ∧ (∀ m, m ≡ₚ atoms2 → m.*2 = atoms1.*2 →
            (ssd <= pair_cost atoms1.*1 m.*1)%Q).
Proof.
  intros lsa_ok Hp Hne. unfold min_rmsd_of.
  destruct (get_min_rmsd_compatible lsa np_sqrt lsa_ok
              atoms1.*1 atoms1.*2 atoms2.*1 atoms2.*2
              ltac:(by rewrite !length_fmap)
              ltac:(by rewrite !length_fmap) Hp)
    as (X1 & X2 & costs & Hz1 & Hz2 & HX1 & HX2 & HF & ->).
  rewrite !zip_fst_snd in *.
  set (s := sorted_labels atoms1.*2) in *.
  assert (length s = length atoms1) as Hls.
  { subst s. by rewrite sorted_labels_Permutation, length_fmap. }
  rewrite length_fmap.
  destruct (decide (length atoms1 = 0)) as [E|_].
  { apply length_zero_iff_nil in E. done. }
  exists (foldl Qplus 0%Q costs). split; [done|].
  set (D := remove_dups s) in *.
  assert (NoDup D) as HD by apply NoDup_remove_dups.
  assert (∀ x, x ∈ s → x ∈ D) as HsD.
  { intros x Hx. by apply elem_of_remove_dups. }
  split.
  - destruct (assemble_classes X1 X2 s HX1 HX2 D costs HD HF)
      as (Q2 & HlQ & HpQ & _ & Hcost).
    destruct (zip_Permutation_l (zip X1 s) atoms1 Q2 Hz1) as (Q3 & HQ3 & Hz3).
    { rewrite length_zip. lia. }
    assert (length Q3 = length atoms1) as HlQ3.
    { rewrite (Permutation_length HQ3). lia. }
    exists (zip Q3 atoms1.*2).
    assert (zip atoms1 Q3 = zip (zip atoms1.*1 atoms1.*2) Q3) as Hz4.
    { by rewrite zip_fst_snd. }
    split; [|split].
    + rewrite <- (zip_relabel atoms1.*1 atoms1.*2 Q3)
        by (rewrite !length_fmap; lia).
      rewrite <- Hz4, Hz3.
      rewrite (zip_relabel X1 s Q2) by lia.
      by rewrite HpQ.
    + rewrite snd_zip; [done|]. rewrite length_fmap. lia.
    + rewrite fst_zip by (rewrite length_fmap; lia).
      rewrite foldl_Qplus_Qsum.
      rewrite (Forall2_Qsum_eq _ (λ c, pair_cost (class_points c X1 s)
                 (class_points c Q2 s)) D costs Hcost).
      2: { intros c v _ ->. reflexivity. }
      rewrite <- (pair_cost_classes D s X1 Q2) by (done || lia).
      unfold pair_cost.
      rewrite (zip_with_sqdist_labelled X1 s Q2) by lia.
      rewrite (zip_with_sqdist_labelled atoms1.*1 atoms1.*2 Q3)
        by (by rewrite !length_fmap).
      rewrite <- Hz4. apply Qsum_Permutation.
      apply fmap_Permutation. by symmetry.
  - intros m Hm Hm2.
    assert (length m = length atoms1) as Hlm.
    { rewrite <- (length_fmap snd m), Hm2. by rewrite length_fmap. }
    destruct (zip_Permutation_l atoms1 (zip X1 s) m.*1 (symmetry Hz1))
      as (Q2 & HQ2 & Hz3).
    { rewrite length_fmap. lia. }
    assert (length Q2 = length s) as HlQ.
    { rewrite (Permutation_length HQ2), length_fmap. lia. }
    assert (zip Q2 s ≡ₚ atoms2) as HpQ.
    { rewrite <- (zip_relabel X1 s Q2) by lia. rewrite Hz3.
      rewrite <- (zip_fst_snd atoms1) at 1.
      rewrite (zip_relabel atoms1.*1 atoms1.*2 m.*1)
        by (rewrite !length_fmap; lia).
      rewrite <- Hm2, zip_fst_snd. done. }
    rewrite foldl_Qplus_Qsum.
    assert (pair_cost atoms1.*1 m.*1 == pair_cost X1 Q2)%Q as ->.
    { unfold pair_cost.
      rewrite (zip_with_sqdist_labelled X1 s Q2) by lia.
      rewrite (zip_with_sqdist_labelled atoms1.*1 atoms1.*2 m.*1)
        by (by rewrite !length_fmap).
      rewrite zip_fst_snd. apply Qsum_Permutation.
      apply fmap_Permutation. by symmetry. }
    rewrite (pair_cost_classes D s X1 Q2) by (done || lia).
    eapply Forall2_Qsum_le; [exact HF|].
    intros c v _ [_ Hmin]. apply Hmin.
    rewrite !class_points_Permutation by eassumption. done.
Qed.

End MinRmsdMinimal.

(** ** [count_types] and [OutputWriter.compute_struct_metrics] *)



Lemma np_index_Some n i k :
  np_index n i = Some k
  ↔ k < n ∧ (i = Z.of_nat k ∨ i = (Z.of_nat k - Z.of_nat n)%Z).
Proof.
  unfold np_index. repeat case_bool_decide; split; try done.
  - intros [= <-]. lia.
  - intros [? [-> | ->]]; f_equal; lia.
  - intros [= <-]. lia.
  - intros [? [-> | ->]]; f_equal; lia.
  - intros [? [-> | ->]]; lia.
Qed.

Lemma np_index_None n i :
  np_index n i = None ↔ ¬ (- Z.of_nat n ≤ i < Z.of_nat n)%Z.
Proof. unfold np_index. repeat case_bool_decide; split; try done; lia. Qed.

Lemma hits_cons n k i c :
  hits n k (i :: c)
  = (if decide (np_index n i = Some k) then 1 else 0) + hits n k c
  ∨ ¬ k < n.
Proof.
  destruct (decide (k < n)) as [Hk|Hk]; [left|by right].
  unfold hits. rewrite filter_cons.
  destruct (decide (np_index n i = Some k)) as [E|E].
  - apply np_index_Some in E as [_ E]. by rewrite decide_True.
  - rewrite decide_False; [done|]. intros H. apply E.
    apply np_index_Some. done.
Qed.

Lemma sum_list_alter_S (count : list nat) k :
  k < length count → sum_list (alter S k count) = S (sum_list count).
Proof.
  revert k. induction count as [|x count IH]; intros [|k] Hk; simpl in Hk;
    try lia.
  - simpl. lia.
  - change (alter S (S k) (x :: count)) with (x :: alter S k count).
    cbn [sum_list sum_list_with]. rewrite IH by lia. lia.
Qed.

Lemma count_types_loop_raise n e c :
  foldl (count_step n) (Raise e) c = Raise e.
Proof. induction c; simpl; auto. Qed.

Lemma count_types_loop n c : ∀ count0,
  length count0 = n →
  Forall (λ i, - Z.of_nat n ≤ i < Z.of_nat n)%Z c →
  ∃ count,
    foldl (count_step n) (Return count0) c = Return count
    ∧ length count = n
    ∧ sum_list count = sum_list count0 + length c
    ∧ ∀ k v, count0 !! k = Some v → count !! k = Some (v + hits n k c).
Proof.
  induction c as [|i c IH]; intros count0 Hl Hr; cbn [foldl].
  - exists count0. repeat split; auto.
    intros k v Hv. unfold hits. simpl. rewrite Nat.add_0_r. done.
  - apply Forall_cons in Hr as [Hi Hr].
    destruct (np_index n i) as [j|] eqn:Hj.
    2: { apply np_index_None in Hj. done. }
    unfold count_step at 2. simpl. rewrite Hj.
    pose proof (proj1 (np_index_Some n i j) Hj) as [Hjn _].
    destruct (IH (alter S j count0)) as (count & Hc & Hlc & Hsum & Hk).
    { by rewrite length_alter. }
    { done. }
    exists count. split; [done|]. split; [done|]. split.
    { rewrite Hsum, sum_list_alter_S by lia. simpl. lia. }
    intros k v Hv.
    assert (k < n) as Hkn by (apply lookup_lt_Some in Hv; lia).
    destruct (hits_cons n k i c) as [->|?]; [|done].
    rewrite Hj. destruct (decide (j = k)) as [->|Hne].
    + rewrite decide_True by done.
      rewrite (Hk k (S v)); [f_equal; lia|].
      by rewrite list_lookup_alter_eq, Hv.
    + rewrite decide_False by congruence.
      rewrite (Hk k v); [done|].
      by rewrite list_lookup_alter_ne.
Qed.

(** X12: [count_types] raises [IndexError] exactly when some entry of [c] is
    outside [-n_types .. n_types-1]; otherwise it returns an array of length
    [n_types] whose entry [k] is the number of entries of [c] equal to [k] or
    to [k - n_types], and whose entries add up to the length of [c]. *)
Theorem count_types_spec (c : list Z) (n_types : nat) :
  let in_range i := (- Z.of_nat n_types ≤ i < Z.of_nat n_types)%Z in
  (Forall in_range c →
   ∃ count,
     count_types c n_types = Return count
     ∧ length count = n_types
     ∧ sum_list count = length c
     ∧ ∀ k, k < n_types → count !! k = Some (hits n_types k c))
  ∧ (¬ Forall in_range c → count_types c n_types = Raise IndexError).
Proof.
  intros in_range. split.
  - intros Hr.
    destruct (count_types_loop n_types c (replicate n_types 0))
      as (count & Hc & Hl & Hsum & Hk); [by rewrite length_replicate|done|].
    exists count. split; [done|]. split; [done|]. split.
    + rewrite Hsum. clear. induction n_types; simpl; auto.
    + intros k Hkn. apply (Hk k 0). by apply lookup_replicate_2.
  - intros Hr. unfold count_types.
    generalize (replicate n_types 0).
    induction c as [|i c IH]; intros count0; [by destruct Hr|].
    cbn [foldl]. unfold count_step at 2. simpl.
    destruct (np_index n_types i) as [j|] eqn:Hj.
    + apply IH. intros Hc. apply Hr. constructor; [|done].
      apply np_index_Some in Hj. subst in_range. simpl. lia.
    + apply count_types_loop_raise.
Qed.

Lemma hits_of_nat n k (c : list nat) :
  k < n → hits n k (Z.of_nat <$> c) = count_type k c.
Proof.
  intros Hk. unfold hits, count_type.
  induction c as [|x c IH]; [done|].
  rewrite fmap_cons, !filter_cons.
  destruct (decide (x = k)) as [->|Hne].
  - rewrite decide_True by (by left). simpl. by rewrite IH.
  - rewrite decide_False by lia. done.
Qed.

Lemma norm1_diff_zero (a b : list nat) :
  length a = length b → (norm1_diff a b = 0%Z ↔ a = b).
Proof.
  unfold norm1_diff. revert b.
  induction a as [|x a IH]; intros [|y b] Hl; simpl in *; try done.
  assert (0 ≤ foldr Z.add 0
            (zip_with (λ a b, Z.abs (Z.of_nat a - Z.of_nat b)) a b))%Z as Hpos.
  { clear. revert b. induction a as [|x a IH]; intros [|y b]; simpl; try lia.
    specialize (IH b). lia. }
  split.
  - intros H. assert (x = y) as -> by lia. f_equal. apply IH; lia.
  - intros [= -> ->]. assert (H := proj2 (IH b ltac:(lia)) eq_refl). lia.
Qed.

Lemma count_types_labels n (c : list nat) :
  Forall (λ x, x < n) c →
  ∃ count, count_types (Z.of_nat <$> c) n = Return count
           ∧ length count = n
           ∧ ∀ k, k < n → count !! k = Some (count_type k c).
Proof.
  intros Hc.
  destruct (count_types_loop n (Z.of_nat <$> c) (replicate n 0))
    as (count & Hr & Hl & _ & Hk).
  { by rewrite length_replicate. }
  { apply Forall_fmap. eapply Forall_impl; [exact Hc|]. simpl. lia. }
  exists count. split; [done|]. split; [done|].
  intros k Hkn. rewrite (Hk k 0) by (by apply lookup_replicate_2).
  by rewrite hits_of_nat.
Qed.

Lemma same_counts_below n (c1 c2 : list nat) :
  Forall (λ x, x < n) c1 → Forall (λ x, x < n) c2 →
  (∀ k, k < n → count_type k c1 = count_type k c2) ↔ c1 ≡ₚ c2.
Proof.
  intros H1 H2. rewrite <- same_histogram_Permutation. split; [|auto].
  intros H k. destruct (decide (k < n)) as [Hk|Hk]; [auto|].
  rewrite !count_type_not_elem; [done| |].
  - intros Hin. rewrite Forall_forall in H2. specialize (H2 _ Hin). lia.
  - intros Hin. rewrite Forall_forall in H1. specialize (H1 _ Hin). lia.
Qed.

Section StructMetricsFacts.

Variable lsa : list (list Q) → result (list nat * list nat).
Variable np_sqrt : Q → Q.

(** X13: for two structures with valid channel indices
    [compute_struct_metrics] raises nothing: the type difference it
    writes is 0 exactly when both structures have the same number of
    atoms of every type, and the RMSD it writes is NaN exactly when the
    type difference is not 0 or both structures are empty. *)
Theorem compute_struct_metrics_rmsd n_types
    (struct ref_struct : list (vec3 * nat)) :
  lsa_optimal lsa →
  Forall (λ a, a.2 < n_types) struct →
  Forall (λ a, a.2 < n_types) ref_struct →
  ∃ type_diff rmsd,
    compute_struct_metrics lsa np_sqrt n_types struct ref_struct
    = Return (type_diff, bool_decide (type_diff = 0%Z), rmsd)
    ∧ (type_diff = 0%Z ↔ ref_struct.*2 ≡ₚ struct.*2)
    ∧ (rmsd = None ↔ type_diff ≠ 0%Z ∨ (struct = [] ∧ ref_struct = [])).
Proof.
  intros Hlsa Hs Hr.
  assert (Forall (λ x, x < n_types) struct.*2) as Hs2 by (by apply Forall_fmap).
  assert (Forall (λ x, x < n_types) ref_struct.*2) as Hr2
    by (by apply Forall_fmap).
  destruct (count_types_labels n_types struct.*2 Hs2)
    as (types & Ht & Hlt & Hkt).
  destruct (count_types_labels n_types ref_struct.*2 Hr2)
    as (ref_types & Hrt & Hlr & Hkr).
  unfold compute_struct_metrics. rewrite Ht, Hrt. simpl.
  set (td := norm1_diff ref_types types).
  assert (td = 0%Z ↔ ref_struct.*2 ≡ₚ struct.*2) as Htd.
  { subst td. rewrite norm1_diff_zero by lia.
    rewrite <- (same_counts_below n_types) by done. split.
    - intros -> k Hk.
      assert (Some (count_type k ref_struct.*2) = Some (count_type k struct.*2))
        as [= E]; [|done].
      by rewrite <- (Hkr k Hk), <- (Hkt k Hk).
    - intros H. apply (list_eq_same_length _ _ n_types); [done..|].
      intros i x y Hi Hx Hy.
      rewrite (Hkr i Hi) in Hx. rewrite (Hkt i Hi) in Hy.
      specialize (H i Hi). congruence. }
  pose proof (get_min_rmsd_cases lsa np_sqrt ref_struct.*1 ref_struct.*2
                struct.*1 struct.*2 Hlsa
                ltac:(by rewrite !length_fmap) ltac:(by rewrite !length_fmap))
    as Hcases.
  fold (min_rmsd_of lsa np_sqrt ref_struct struct) in Hcases.
  simpl in Hcases.
  destruct Hcases
    as [[Hd [msg Hv]]|[(Hn & E1 & E2 & Hv)|(Hn & N1 & N2 & [v Hv])]];
    rewrite Hv.
  - exists td, None. split; [done|]. split; [done|].
    split; [|done]. intros _. left. rewrite Htd. intros Hp.
    destruct Hd as [Hd|[k Hk]].
    + apply Hd. by rewrite Hp.
    + apply Hk. by apply same_histogram_Permutation.
  - exists td, None. split; [done|]. split; [done|].
    split; [|done]. intros _. right.
    split; by eapply fmap_nil_inv.
  - exists td, (Some v). split; [done|]. split; [done|].
    split; [done|]. intros [Hne|[-> _]]; [|done].
    exfalso. apply Hne. apply Htd. apply same_histogram_Permutation.
    intros k. destruct (decide (count_type k ref_struct.*2
                                = count_type k struct.*2)); [done|].
    exfalso. apply Hn. right. by exists k.
Qed.

End StructMetricsFacts.

Section FitFacts.

Context (B : Backend).

(** X9: when the first detection on the target finds no atom (and
    neither joint expansion nor type constraint is configured), [fit]
    tries no expansion: it ends the search after one pass, runs the final
    gradient descent on the empty structure and reports exactly two
    visited structures, the initial one and the final one. *)
Theorem fit_nothing_detected self grid types fuel :
  multi_atom self = false → constrain_types self = false → 0 < fuel →
  detect_atoms B self (values grid) (channels grid) (center grid)
    (resolution grid) (fit_types B self grid types) = Some ([], []) →
  fit B self grid types fuel
  = '(xyz_best, grid_pred, grid_diff, fit_loss) ←
      fit_gd B self grid [] [] (final_gd_iters self);
    Some {|
      xyz_best := xyz_best;
      c_best := [];
      grid_pred := grid_pred;
      L2_loss_best := L2_loss grid_diff;
      L1_loss_best := L1_loss grid_diff;
      type_diff_best :=
        Qsum (Qabs <$> zip_with Qminus (fit_types B self grid types)
                         (col_sums (length (channels grid)) []));
      visited :=
        [ {| v_objective := initial_objective B self grid types;
             v_id := 0; v_xyz := []; v_c := [] |};
          {| v_objective := Fit fit_loss; v_id := 1;
             v_xyz := xyz_best; v_c := [] |} ];
    |}.
Proof.
  intros Hm Hc Hf Hd. unfold fit, fit_init. rewrite Hd.
  destruct fuel as [|fuel]; [lia|].
  cbn [mbind option_bind search found_new_best_struct].
  unfold search_pass, expand_pool.
  cbn [best_structs foldl expand_struct mbind option_bind s_id expanded_ids].
  destruct (decide (0 ∈ (∅ : gset nat))) as [Hin|_]; [set_solver|].
  rewrite Hm. unfold expand_single.
  cbn [s_xyz_next s_c_next zip zip_with foldl mbind option_bind
       found_new_best_struct select_best].
  destruct fuel; cbn [search found_new_best_struct best_structs head
                      mbind option_bind s_c s_xyz s_id visited_structs];
    destruct (fit_gd B self grid [] [] (final_gd_iters self))
      as [[[[xyz_best gp] gdiff] loss]|]; cbn [mbind option_bind];
    rewrite ?Hc; reflexivity.
Qed.

End FitFacts.

Lemma fit_nothing_detected_witness :
  multi_atom (detector (Some (1 # 10)%Q) None 1) = false
  ∧ constrain_types (detector (Some (1 # 10)%Q) None 1) = false
  ∧ 0 < 1
  ∧ fit toy_backend (detector (Some (1 # 10)%Q) None 1) empty_target
      [0%Q] 1
    = '(xyz_best, grid_pred, grid_diff, fit_loss) ←
        fit_gd toy_backend (detector (Some (1 # 10)%Q) None 1)
          empty_target [] []
          (final_gd_iters (detector (Some (1 # 10)%Q) None 1));
      Some {|
        xyz_best := xyz_best;
        c_best := [];
        grid_pred := grid_pred;
        L2_loss_best := L2_loss grid_diff;
        L1_loss_best := L1_loss grid_diff;
        type_diff_best :=
          Qsum (Qabs <$> zip_with Qminus
                  (fit_types toy_backend
                     (detector (Some (1 # 10)%Q) None 1) empty_target
                     [0%Q])
                  (col_sums (length (channels empty_target)) []));
        visited :=
          [ {| v_objective :=
                 initial_objective toy_backend
                   (detector (Some (1 # 10)%Q) None 1) empty_target
                   [0%Q];
               v_id := 0; v_xyz := []; v_c := [] |};
            {| v_objective := Fit fit_loss; v_id := 1;
               v_xyz := xyz_best; v_c := [] |} ];
      |}.
Proof.
  split; [reflexivity|]. split; [reflexivity|]. split; [lia|].
  apply (fit_nothing_detected toy_backend
           (detector (Some (1 # 10)%Q) None 1) empty_target [0%Q] 1).
  - reflexivity.
  - reflexivity.
  - lia.
  - vm_compute. reflexivity.
Defined.

Lemma fit_gd_negative_budget_witness :
  (-1 < 0)%Z
  ∧ fit_gd toy_backend beam2 crowded_target [(1, 0, 0)%Q] [[1; 0]%Q] (-1)
    = None.
Proof.
  split; [lia|].
  apply (fit_gd_negative_budget toy_backend beam2 crowded_target
           [(1, 0, 0)%Q] [[1; 0]%Q] (-1)).
  lia.
Defined.

Lemma search_keeps_pool_witness :
  fit_init toy_backend beam2 crowded_target [1; 49]%Q = Some crowded_init
  ∧ search toy_backend beam2 crowded_target
      (fit_types toy_backend beam2 crowded_target [1; 49]%Q) 10
      crowded_init = Some crowded_final
  ∧ length (best_structs crowded_final) = 2
  ∧ length (visited_structs crowded_final) = 103
  ∧ best_structs crowded_final ≠ []
  ∧ StronglySorted struct_le (best_structs crowded_final)
  ∧ NoDup (s_id <$> best_structs crowded_final)
  ∧ Forall (λ s, s_id s < struct_count crowded_final)
      (best_structs crowded_final)
  ∧ ((1 ≤ beam_size beam2)%Z →
     (Z.of_nat (length (best_structs crowded_final)) ≤ beam_size beam2)%Z)
  ∧ visited_structs crowded_init `prefix_of` visited_structs crowded_final
  ∧ found_new_best_struct crowded_final = false.
Proof.
  assert (fit_init toy_backend beam2 crowded_target [1; 49]%Q
          = Some crowded_init) as Hi by (vm_compute; reflexivity).
  assert (search toy_backend beam2 crowded_target
            (fit_types toy_backend beam2 crowded_target [1; 49]%Q) 10
            crowded_init = Some crowded_final) as Hs
    by (vm_compute; reflexivity).
  split; [exact Hi|]. split; [exact Hs|].
  split; [vm_compute; reflexivity|]. split; [vm_compute; reflexivity|].
  exact (search_keeps_pool toy_backend beam2 crowded_target [1; 49]%Q 10
           crowded_init crowded_final Hi Hs).
Defined.

Lemma search_never_worsens_witness :
  fit_init toy_backend beam2 crowded_target [1; 49]%Q = Some crowded_init
  ∧ search toy_backend beam2 crowded_target
      (fit_types toy_backend beam2 crowded_target [1; 49]%Q) 10
      crowded_init = Some crowded_final
  ∧ ∃ best,
      head (best_structs crowded_final) = Some best
      ∧ obj_le (s_objective best)
          (initial_objective toy_backend beam2 crowded_target [1; 49]%Q)
      ∧ ∀ e, e ∈ best_structs crowded_final →
          obj_le (s_objective best) (s_objective e).
Proof.
  assert (fit_init toy_backend beam2 crowded_target [1; 49]%Q
          = Some crowded_init) as Hi by (vm_compute; reflexivity).
  assert (search toy_backend beam2 crowded_target
            (fit_types toy_backend beam2 crowded_target [1; 49]%Q) 10
            crowded_init = Some crowded_final) as Hs
    by (vm_compute; reflexivity).
  split; [exact Hi|]. split; [exact Hs|].
  exact (search_never_worsens toy_backend beam2 crowded_target [1; 49]%Q 10
           crowded_init crowded_final Hi Hs).
Defined.

Lemma get_min_rmsd_minimal_witness :
  lsa_optimal lsa_brute ∧ pts_a.*2 ≡ₚ pts_c.*2 ∧ pts_a ≠ []
  ∧ min_rmsd_of lsa_brute sqrt_floor pts_a pts_c
    = Return (sqrt_floor (5 / 3))
  ∧ ∃ ssd,
      min_rmsd_of lsa_brute sqrt_floor pts_a pts_c
      = Return (sqrt_floor (ssd / inject_Z (Z.of_nat (length pts_a)))%Q)
      ∧ (∃ m, m ≡ₚ pts_c ∧ m.*2 = pts_a.*2
              ∧ (ssd == pair_cost pts_a.*1 m.*1)%Q)
      ∧ (∀ m, m ≡ₚ pts_c → m.*2 = pts_a.*2 →
              (ssd <= pair_cost pts_a.*1 m.*1)%Q).
Proof.
  assert (pts_a.*2 ≡ₚ pts_c.*2) as Hp.
  { simpl. apply perm_skip. apply perm_swap. }
  assert (pts_a ≠ []) as Hne by done.
  split; [exact lsa_brute_optimal|]. split; [exact Hp|].
  split; [exact Hne|]. split; [vm_compute; reflexivity|].
  exact (get_min_rmsd_minimal lsa_brute sqrt_floor pts_a pts_c
           lsa_brute_optimal Hp Hne).
Defined.

Lemma count_types_spec_witness :
  (∃ count,
     count_types [0; 2; -1; 2]%Z 3 = Return count
     ∧ length count = 3
     ∧ sum_list count = length [0; 2; -1; 2]%Z
     ∧ ∀ k, k < 3 → count !! k = Some (hits 3 k [0; 2; -1; 2]%Z))
  ∧ count_types [0; 2; -1; 2]%Z 3 = Return [1; 0; 3]
  ∧ count_types [0; 3]%Z 3 = Raise IndexError.
Proof.
  split; [|split].
  - apply (count_types_spec [0; 2; -1; 2]%Z 3).
    repeat constructor; lia.
  - vm_compute. reflexivity.
  - apply (count_types_spec [0; 3]%Z 3).
    intros H. apply Forall_cons_1 in H as [_ H].
    apply Forall_cons_1 in H as [H _]. lia.
Defined.

Lemma compute_struct_metrics_rmsd_witness :
  lsa_optimal lsa_brute
  ∧ Forall (λ a, a.2 < 2) pts_a ∧ Forall (λ a, a.2 < 2) pts_c
  ∧ compute_struct_metrics lsa_brute sqrt_floor 2 pts_a pts_c
    = Return (0%Z, true, Some (sqrt_floor (5 / 3)))
  ∧ ∃ type_diff rmsd,
      compute_struct_metrics lsa_brute sqrt_floor 2 pts_a pts_c
      = Return (type_diff, bool_decide (type_diff = 0%Z), rmsd)
      ∧ (type_diff = 0%Z ↔ pts_c.*2 ≡ₚ pts_a.*2)
      ∧ (rmsd = None ↔ type_diff ≠ 0%Z ∨ (pts_a = [] ∧ pts_c = [])).
Proof.
  assert (Forall (λ a : vec3 * nat, a.2 < 2) pts_a) as Ha
    by (repeat constructor; simpl; lia).
  assert (Forall (λ a : vec3 * nat, a.2 < 2) pts_c) as Hc
    by (repeat constructor; simpl; lia).
  split; [exact lsa_brute_optimal|]. split; [exact Ha|].
  split; [exact Hc|]. split; [vm_compute; reflexivity|].
  exact (compute_struct_metrics_rmsd lsa_brute sqrt_floor 2 pts_a pts_c
           lsa_brute_optimal Ha Hc).
Defined.
